(** * ALAN tiles: critical depth of artificial light at night under the sea

    A shallow embedding of [alan_tools/alan_tile.py] and of the batch driver
    [GetAlanTiles.py], with the properties of the critical-depth pipeline
    proved over it.

    Layout:
    - [Arith]: the scalar arithmetic the NumPy code runs on, as an interface
      with two instances: IEEE-754 binary64 ([spec_float], the format of
      [numpy.float64]) and exact real arithmetic with an undefined value;
    - [ndarray]: two-dimensional arrays with NumPy's elementwise operations;
    - the methods of [ALANTile], in source order;
    - [fill_and_regrid] over an object store, with pyinterp as a parameter;
    - the region/month loop of the driver. *)

From Stdlib Require Import ZArith Bool List String Reals Lra Lia.
From Stdlib Require Import Floats.SpecFloat.
From stdpp Require Import base option list gmap strings pretty.

Set Default Proof Using "Type".
Local Open Scope Z_scope.

(** ** Python exceptions and results *)

Inductive exn :=
  | ValueError (msg : string)
  | IndexError (msg : string)
  | KeyError (key : string)
  | TypeError (msg : string)
  | FileNotFoundError (path : string).

Inductive result (A : Type) :=
  | Ok (a : A)
  | Raise (e : exn).
Arguments Ok {A} a.
Arguments Raise {A} e.

#[global] Instance result_ret : MRet result := @Ok.
#[global] Instance result_bind : MBind result := λ A B f m,
  match m with Ok a => f a | Raise e => Raise e end.

(** Code that also reads and writes a state [S]: the state after a raised
    exception is the state at the [raise]. *)
Definition ST (S A : Type) : Type := S → result A * S.

#[global] Instance ST_ret {S} : MRet (ST S) := λ A a σ, (Ok a, σ).
#[global] Instance ST_bind {S} : MBind (ST S) := λ A B f m σ,
  match m σ with
  | (Ok a, σ') => f a σ'
  | (Raise e, σ') => (Raise e, σ')
  end.

Definition raise {S A} (e : exn) : ST S A := λ σ, (Raise e, σ).
Definition lift_result {S A} (r : result A) : ST S A := λ σ, (r, σ).

(** [for x in xs: body(x)] *)
Fixpoint for_each {S A} (body : A → ST S unit) (xs : list A) : ST S unit :=
  match xs with
  | [] => mret tt
  | x :: xs' => body x ≫= λ _, for_each body xs'
  end.

(** Weakest preconditions for stateful code.

    [wp m σ Q E]: run from [σ], [m] either returns [a] in a state [σ'] with
    [Q a σ'] or raises [e] in a state [σ'] with [E e σ']. *)

Definition wp {S A} (m : ST S A) (σ : S) (Q : A → S → Prop)
    (E : exn → S → Prop) : Prop :=
  match m σ with
  | (Ok a, σ') => Q a σ'
  | (Raise e, σ') => E e σ'
  end.

(** ** Scalar arithmetic

    The operations NumPy applies to each cell. [f_ltb x y] is [x < y],
    [f_leb x y] is [x <= y], [f_eqb x y] is [x == y]; Python's [a > b] is
    [f_ltb b a] and [a != b] is [negb (f_eqb a b)]. *)

Class Arith (F : Type) := {
  f_nan : F;
  f_zero : F;
  f_neg_one : F;
  f_add : F → F → F;
  f_mul : F → F → F;
  f_div : F → F → F;
  f_exp : F → F;
  f_log : F → F;
  f_ltb : F → F → bool;
  f_leb : F → F → bool;
  f_eqb : F → F → bool;
  f_isnan : F → bool
}.

(** *** IEEE-754 binary64 *)

Module B64.

Definition prec : Z := 53.
Definition emax : Z := 1024.

Abbreviation float := spec_float.

Definition nan : float := S754_nan.
Definition pinf : float := S754_infinity false.
Definition ninf : float := S754_infinity true.
Definition zero : float := S754_zero false.
Definition one : float := S754_finite false 4503599627370496 (-52).
Definition neg_one : float := S754_finite true 4503599627370496 (-52).

Definition of_Z (z : Z) : float := binary_normalize prec emax z 0 false.

Definition add : float → float → float := SFadd prec emax.
Definition mul : float → float → float := SFmul prec emax.
Definition div : float → float → float := SFdiv prec emax.
Definition valid : float → bool := valid_binary prec emax.

Definition isnan (x : float) : bool :=
  match x with S754_nan => true | _ => false end.

Definition isinf (x : float) : bool :=
  match x with S754_infinity _ => true | _ => false end.

(** [numpy.isfinite]: neither NaN nor an infinity. *)
Definition isfinite (x : float) : bool :=
  match x with S754_zero _ | S754_finite _ _ _ => true | _ => false end.

(** The C library's [exp] and [log] on finite non-zero arguments. NumPy
    delegates to them; IEEE 754 does not fix their rounding, so the value
    on ordinary arguments is a parameter of the model. *)
Class Libm := {
  exp_core : bool → positive → Z → float;
  log_core : positive → Z → float
}.

(** [numpy.exp]: the special values are those of C99 Annex F. *)
Definition np_exp `{Libm} (x : float) : float :=
  match x with
  | S754_nan => S754_nan
  | S754_infinity false => S754_infinity false
  | S754_infinity true => S754_zero false
  | S754_zero _ => one
  | S754_finite s m e => exp_core s m e
  end.

(** [numpy.log]: NaN on negative arguments (with a warning, no exception
    under NumPy's default error state), minus infinity at zero. *)
Definition np_log `{Libm} (x : float) : float :=
  match x with
  | S754_nan => S754_nan
  | S754_infinity false => S754_infinity false
  | S754_infinity true => S754_nan
  | S754_zero _ => S754_infinity true
  | S754_finite true _ _ => S754_nan
  | S754_finite false m e => log_core m e
  end.

(** What is assumed of the library on ordinary arguments: the logarithm of
    a positive finite binary64 number is a finite binary64 number. *)
Definition log_finite `{Libm} : Prop :=
  ∀ m e, bounded prec emax m e = true →
    isfinite (log_core m e) = true ∧ valid (log_core m e) = true.

#[global] Instance arith `{Libm} : Arith float := {|
  f_nan := nan;
  f_zero := zero;
  f_neg_one := neg_one;
  f_add := add;
  f_mul := mul;
  f_div := div;
  f_exp := np_exp;
  f_log := np_log;
  f_ltb := SFltb;
  f_leb := SFleb;
  f_eqb := SFeqb;
  f_isnan := isnan
|}.

End B64.

(** ** Two-dimensional arrays

    A [numpy.ndarray] of two dimensions, as the list of its rows. Every
    array of a tile is built on the same target grid, so elementwise
    operations are modelled on operands of equal shape; on other operands
    they raise [ValueError] (NumPy's broadcasting of unequal shapes is not
    modelled). A scalar operand is broadcast to the shape of the array it
    meets. *)

Abbreviation ndarray A := (list (list A)).

Definition shape {A} (a : ndarray A) : list nat := length <$> a.

Definition cell {A} (a : ndarray A) (i j : nat) : option A :=
  a !! i ≫= λ row, row !! j.

Definition amap {A B} (f : A → B) (a : ndarray A) : ndarray B :=
  (fmap f : list A → list B) <$> a.

Definition amap2 {A B C} (f : A → B → C) (a : ndarray A) (b : ndarray B)
    : result (ndarray C) :=
  if decide (shape a = shape b)
  then Ok (zip_with (zip_with f) a b)
  else Raise (ValueError "operands could not be broadcast together").

(** [numpy.full_like(a, s)]: the scalar [s] at the shape of [a]. *)
Definition full_like {A B} (a : ndarray A) (s : B) : ndarray B :=
  amap (λ _, s) a.

(** [numpy.where(c, x, y)] on three arrays. *)
Definition np_where {A} (c : ndarray bool) (x y : ndarray A)
    : result (ndarray A) :=
  xy ← amap2 pair x y;
  amap2 (λ (b : bool) (p : A * A), if b then p.1 else p.2) c xy.

Definition np_logical_and (a b : ndarray bool) : result (ndarray bool) :=
  amap2 andb a b.

(** [a.T] *)
Fixpoint transpose {A} (a : ndarray A) : ndarray A :=
  match a with
  | [] => []
  | [row] => (λ x, [x]) <$> row
  | row :: rest => zip_with cons row (transpose rest)
  end.

(** [a.ravel()], row-major. *)
Definition ravel {A} (a : ndarray A) : list A := concat a.

(** [v.reshape(sh)] for a flat [v]: rows of the lengths in [sh]. *)
Fixpoint reshape {A} (v : list A) (sh : list nat) : ndarray A :=
  match sh with
  | [] => []
  | n :: sh' => take n v :: reshape (drop n v) sh'
  end.


(** [a[mask] = v]: assignment through a boolean index of the same shape,
    on the copy the caller made. A mask of another shape is an
    [IndexError]. *)
Definition setitem_mask {A} (a : ndarray A) (mask : ndarray bool) (v : A)
    : result (ndarray A) :=
  if decide (shape mask = shape a)
  then Ok (zip_with (zip_with (λ (m : bool) x, if m then v else x)) mask a)
  else Raise (IndexError "boolean index did not match indexed array").

(** [d[key]] on a Python dict. *)
Definition dict_get {V} (d : gmap string V) (key : string) : result V :=
  match d !! key with
  | Some v => Ok v
  | None => Raise (KeyError key)
  end.

(** ** Configuration

    [alan_tools/config.py] is not among the sources; the constants the tile
    reads from it are the fields of this record. *)

Record config (F : Type) := {
  M_BLUE : F; C_BLUE : F;
  M_GREEN : F; C_GREEN : F;
  M_RED : F; C_RED : F;
  THRESH_IRR_TOTAL_UW_M2 : F;
  FALCHI_MASK_THRESHOLD : F;
  KD_FILLVAL : F
}.
Arguments M_BLUE {F} _.
Arguments C_BLUE {F} _.
Arguments M_GREEN {F} _.
Arguments C_GREEN {F} _.
Arguments M_RED {F} _.
Arguments C_RED {F} _.
Arguments THRESH_IRR_TOTAL_UW_M2 {F} _.
Arguments FALCHI_MASK_THRESHOLD {F} _.
Arguments KD_FILLVAL {F} _.

(** An [xarray.Dataset] of the attenuation file: coordinate vectors and
    the data variables by name, each with a leading (time) dimension. *)
Record Dataset (F : Type) := {
  ds_lat : list F;
  ds_lon : list F;
  ds_vars : gmap string (list (ndarray F))
}.
Arguments ds_lat {F} _.
Arguments ds_lon {F} _.
Arguments ds_vars {F} _.
Arguments Build_Dataset {F} _ _ _.

(** The sea code of the land/sea raster. *)
Definition SEA : Z := 255.

(** ** The methods of [ALANTile] *)

Section ALANTile.
Context {F : Type} `{Arith F}.
Variable cfg : config F.

(** The region of interest [(S, N, W, E)], Python integers. *)
Variable roi : Z * Z * Z * Z.
Definition min_lat : Z := roi.1.1.1.
Definition max_lat : Z := roi.1.1.2.
Definition min_lon : Z := roi.1.2.
Definition max_lon : Z := roi.2.

(** [Dataset.sel(lat=slice(a, b), lon=slice(c, d))], xarray's label-based
    selection: a library operation, taken as given. *)
Variable sel : Dataset F → Z * Z → Z * Z → Dataset F.

(** [mask_falchi] *)
Definition mask_falchi (falchi_regridded : ndarray F) : result (ndarray F) :=
  np_where
    (amap (λ b, f_leb b (FALCHI_MASK_THRESHOLD cfg)) falchi_regridded)
    (full_like falchi_regridded f_nan)
    falchi_regridded.

(** [ds != v] and [ds.where(cond)] on the variables of a dataset; the
    condition is computed from the dataset itself, so both have the same
    variables and shapes. *)
Definition ds_ne (vars : gmap string (list (ndarray F))) (v : F)
    : gmap string (list (ndarray bool)) :=
  fmap (M:=list) (amap (λ x, negb (f_eqb x v))) <$> vars.

Definition ds_where (vars : gmap string (list (ndarray F)))
    (cond : gmap string (list (ndarray bool)))
    : gmap string (list (ndarray F)) :=
  map_zip_with
    (zip_with (zip_with (zip_with (λ x (c : bool), if c then x else f_nan))))
    vars cond.

(** [get_kd_data], from the opened dataset on. *)
Definition get_kd_data (kd_data : Dataset F) : Dataset F :=
  let kd_roi :=
    sel kd_data (max_lat + 1, min_lat - 1) (min_lon - 1, max_lon + 1) in
  Build_Dataset (ds_lat kd_roi) (ds_lon kd_roi)
    (ds_where (ds_vars kd_roi) (ds_ne (ds_vars kd_roi) (KD_FILLVAL cfg))).

(** [apply_landmask] *)
Definition apply_landmask (landmask : ndarray Z) (in_arr : ndarray F)
    : result (ndarray F) :=
  let land_mask := amap (λ c, negb (c =? SEA)) landmask in
  let masked_arr := in_arr in
  setitem_mask masked_arr land_mask f_nan.

(** [calculate_z_thresh] *)
Definition calculate_z_thresh (falchi_masked : ndarray F)
    (kd_regridded : gmap string (ndarray F)) (landmask : ndarray Z)
    : result (ndarray F) :=
  let sfce_irr_blue_uW_m2 :=
    amap (λ b, f_add (f_mul (M_BLUE cfg) b) (C_BLUE cfg)) falchi_masked in
  let sfce_irr_green_uW_m2 :=
    amap (λ b, f_add (f_mul (M_GREEN cfg) b) (C_GREEN cfg)) falchi_masked in
  let sfce_irr_red_uW_m2 :=
    amap (λ b, f_add (f_mul (M_RED cfg) b) (C_RED cfg)) falchi_masked in
  bg ← amap2 f_add sfce_irr_blue_uW_m2 sfce_irr_green_uW_m2;
  sfce_irr_total_uW_m2 ← amap2 f_add bg sfce_irr_red_uW_m2;
  R_blue ← amap2 f_div sfce_irr_blue_uW_m2 sfce_irr_total_uW_m2;
  R_green ← amap2 f_div sfce_irr_green_uW_m2 sfce_irr_total_uW_m2;
  R_red ← amap2 f_div sfce_irr_red_uW_m2 sfce_irr_total_uW_m2;
  kd_blue ← dict_get kd_regridded "kd_blue";
  t_blue ← amap2 f_mul R_blue (amap (λ k, f_exp (f_mul f_neg_one k)) kd_blue);
  kd_green ← dict_get kd_regridded "kd_green";
  t_green ←
    amap2 f_mul R_green (amap (λ k, f_exp (f_mul f_neg_one k)) kd_green);
  t_bg ← amap2 f_add t_blue t_green;
  kd_red ← dict_get kd_regridded "kd_red";
  t_red ← amap2 f_mul R_red (amap (λ k, f_exp (f_mul f_neg_one k)) kd_red);
  Kd_log_expression ← amap2 f_add t_bg t_red;
  cond ← np_logical_and
    (amap (λ x, f_ltb f_zero x) Kd_log_expression)
    (amap (λ x, negb (f_isnan x)) Kd_log_expression);
  Kd_total ← np_where cond
    (amap (λ x, f_mul f_neg_one (f_log x)) Kd_log_expression)
    (full_like cond f_nan);
  Kd_total ← np_where
    (amap (λ k, f_ltb f_zero k) Kd_total) Kd_total (full_like Kd_total f_nan);
  z_thresh ← amap2 f_mul
    (amap (λ k, f_div f_neg_one k) Kd_total)
    (amap (λ e, f_log (f_div (THRESH_IRR_TOTAL_UW_M2 cfg) e))
       sfce_irr_total_uW_m2);
  apply_landmask landmask z_thresh.

(** *** The computation at one cell

    What the array expressions above compute at a cell with masked
    brightness [b] and attenuation coefficients [kb], [kg], [kr]. *)

Definition sfce_irr_blue (b : F) : F := f_add (f_mul (M_BLUE cfg) b) (C_BLUE cfg).
Definition sfce_irr_green (b : F) : F :=
  f_add (f_mul (M_GREEN cfg) b) (C_GREEN cfg).
Definition sfce_irr_red (b : F) : F := f_add (f_mul (M_RED cfg) b) (C_RED cfg).

Definition sfce_irr_total (b : F) : F :=
  f_add (f_add (sfce_irr_blue b) (sfce_irr_green b)) (sfce_irr_red b).

Definition R_blue (b : F) : F := f_div (sfce_irr_blue b) (sfce_irr_total b).
Definition R_green (b : F) : F := f_div (sfce_irr_green b) (sfce_irr_total b).
Definition R_red (b : F) : F := f_div (sfce_irr_red b) (sfce_irr_total b).

Definition Kd_log_expression (b kb kg kr : F) : F :=
  f_add
    (f_add (f_mul (R_blue b) (f_exp (f_mul f_neg_one kb)))
           (f_mul (R_green b) (f_exp (f_mul f_neg_one kg))))
    (f_mul (R_red b) (f_exp (f_mul f_neg_one kr))).

(** The first guard: the logarithm is kept where its argument is positive
    and not NaN. *)
Definition Kd_guard (x : F) : F :=
  if f_ltb f_zero x && negb (f_isnan x)
  then f_mul f_neg_one (f_log x) else f_nan.

(** The second guard: the coefficient is kept where it is positive. *)
Definition Kd_clamp (k : F) : F := if f_ltb f_zero k then k else f_nan.

Definition Kd_total (b kb kg kr : F) : F :=
  Kd_clamp (Kd_guard (Kd_log_expression b kb kg kr)).

(** Steps 1 to 5, before the land mask. *)
Definition z_thresh_sea (b kb kg kr : F) : F :=
  f_mul (f_div f_neg_one (Kd_total b kb kg kr))
        (f_log (f_div (THRESH_IRR_TOTAL_UW_M2 cfg) (sfce_irr_total b))).

Definition z_thresh_cell (b kb kg kr : F) (lm : Z) : F :=
  if negb (lm =? SEA) then f_nan else z_thresh_sea b kb kg kr.

Definition mask_low (b : F) : F :=
  if f_leb b (FALCHI_MASK_THRESHOLD cfg) then f_nan else b.

Definition scrub_fill (x : F) : F :=
  if negb (f_eqb x (KD_FILLVAL cfg)) then x else f_nan.

End ALANTile.

(** ** [fill_and_regrid]

    The function works on objects that its caller keeps: the source
    [DataArray] and the two mesh arrays. They live in a store of objects by
    reference; the function allocates, reads, and rebinds the [data]
    attribute of one [DataArray]. A transposed view shares no cell that is
    written afterwards, so it is modelled as an array of its own. *)

Inductive obj (F : Type) :=
  | ONdarray (a : ndarray F)
  | OVector (v : list F)
  | ODataArray (data lat lon : positive).
Arguments ONdarray {F} a.
Arguments OVector {F} v.
Arguments ODataArray {F} data lat lon.

Abbreviation store F := (gmap positive (obj F)).

(** The grid pyinterp builds from a [DataArray] with dimensions
    [(lat, lon)]: the longitude axis, the latitude axis, and the values
    indexed longitude first. *)
Record Grid2D (F : Type) := {
  g_x : list F;
  g_y : list F;
  g_array : ndarray F
}.
Arguments g_x {F} _.
Arguments g_y {F} _.
Arguments g_array {F} _.
Arguments Build_Grid2D {F} _ _ _.

(** The two pyinterp calls of the function: [pyinterp.fill.loess(grid, nx,
    ny)] and [Grid2D.bivariate(coords)], both returning new arrays. *)
Record Pyinterp (F : Type) := {
  fill_loess : Grid2D F → nat → nat → result (ndarray F);
  bivariate : Grid2D F → list F → list F → result (list F)
}.
Arguments fill_loess {F} _ _ _ _.
Arguments bivariate {F} _ _ _ _.

(** [v.reshape(sh)] raises unless the sizes agree. *)
Definition np_reshape {A} (v : list A) (sh : list nat) : result (ndarray A) :=
  if decide (length v = sum_list sh)
  then Ok (reshape v sh)
  else Raise (ValueError "cannot reshape array").

Section regrid.
Context {F : Type}.
Variable pyi : Pyinterp F.

Definition alloc (o : obj F) : ST (store F) positive := λ σ,
  let l := fresh (dom σ) in (Ok l, <[l:=o]> σ).

Definition put_obj (l : positive) (o : obj F) : ST (store F) unit := λ σ,
  (Ok tt, <[l:=o]> σ).

Definition get_ndarray (l : positive) : ST (store F) (ndarray F) := λ σ,
  match σ !! l with
  | Some (ONdarray a) => (Ok a, σ)
  | _ => (Raise (TypeError "ndarray expected"), σ)
  end.

Definition get_vector (l : positive) : ST (store F) (list F) := λ σ,
  match σ !! l with
  | Some (OVector v) => (Ok v, σ)
  | _ => (Raise (TypeError "vector expected"), σ)
  end.

Definition get_DataArray (l : positive)
    : ST (store F) (positive * positive * positive) := λ σ,
  match σ !! l with
  | Some (ODataArray d lat lon) => (Ok (d, lat, lon), σ)
  | _ => (Raise (TypeError "DataArray expected"), σ)
  end.

(** [a.T] *)
Definition ndarray_T (l : positive) : ST (store F) positive :=
  a ← get_ndarray l;
  alloc (ONdarray (transpose a)).

(** [pyinterp.backends.xarray.Grid2D(da)] *)
Definition Grid2D_new (da : positive) : ST (store F) (Grid2D F) :=
  '(d, lat, lon) ← get_DataArray da;
  a ← get_ndarray d;
  y ← get_vector lat;
  x ← get_vector lon;
  if decide (shape a = replicate (length y) (length x))
  then mret (Build_Grid2D x y (transpose a))
  else raise (ValueError "coordinates do not match the data").

(** [da.copy()], deep: the data and the coordinates are copied. *)
Definition DataArray_copy (da : positive) : ST (store F) positive :=
  '(d, lat, lon) ← get_DataArray da;
  a ← get_ndarray d;
  y ← get_vector lat;
  x ← get_vector lon;
  d' ← alloc (ONdarray a);
  lat' ← alloc (OVector y);
  lon' ← alloc (OVector x);
  alloc (ODataArray d' lat' lon').

(** [da.data = new]: the attribute is rebound; xarray refuses data of
    another shape. *)
Definition DataArray_set_data (da new : positive) : ST (store F) unit :=
  '(d, lat, lon) ← get_DataArray da;
  old ← get_ndarray d;
  a ← get_ndarray new;
  if decide (shape a = shape old)
  then put_obj da (ODataArray new lat lon)
  else raise (ValueError "replacement data must match the shape").

Definition fill_and_regrid (in_arr mx my : positive)
    : ST (store F) positive :=
  grid ← Grid2D_new in_arr;
  filled_v ← lift_result (fill_loess pyi grid 3 3);
  filled ← alloc (ONdarray filled_v);
  filled_ds ← DataArray_copy in_arr;
  filled_T ← ndarray_T filled;
  _ ← DataArray_set_data filled_ds filled_T;
  interpolator ← Grid2D_new filled_ds;
  mx_a ← get_ndarray mx;
  my_a ← get_ndarray my;
  vals ← lift_result
    (bivariate pyi interpolator (ravel mx_a) (ravel my_a));
  regridded_v ← lift_result (np_reshape vals (shape mx_a));
  regridded ← alloc (ONdarray regridded_v);
  ndarray_T regridded.

End regrid.

(** A coordinate lies within an axis when some node is at or below it and
    some node is at or above it. *)
Definition covers {F} `{Arith F} (axis : list F) (v : F) : bool :=
  existsb (λ a, f_leb a v) axis && existsb (λ a, f_leb v a) axis.

(** The target point [(x, y)] lies outside the domain of the grid. *)
Definition outside {F} `{Arith F} (g : Grid2D F) (x y : F) : Prop :=
  covers (g_x g) x && covers (g_y g) y = false.

(** pyinterp's documented treatment of points outside the grid when
    [bounds_error] is left at [False], as the function leaves it: the call
    answers, with one value per point, NaN at the points outside. *)
Definition bounds_error_False {F} `{Arith F} (pyi : Pyinterp F) : Prop :=
  ∀ g xs ys, length xs = length ys →
    ∃ vs, bivariate pyi g xs ys = Ok vs ∧ length vs = length xs ∧
      ∀ i x y, xs !! i = Some x → ys !! i = Some y → outside g x y →
        vs !! i = Some f_nan.

(** ** Reference implementations of the libraries

    Concrete stand-ins for the C library and for pyinterp, to run the model
    on concrete tiles. The properties below are proved for every library
    that meets the stated assumptions; these are instances of them. *)

Module Ref.
Import B64.

Definition sub : float → float → float := SFsub prec emax.

(** [ln 2] and [1 / ln 2] in binary64. *)
Definition ln2 : float := S754_finite false 6243314768165359 (-53).
Definition log2e_mantissa : Z := 6497320848556798.

(** [2 ^ k] in binary64, with overflow and underflow. *)
Definition pow2 (k : Z) : float :=
  if 1024 <=? k then pinf
  else if k <? -1074 then zero
  else if -1022 <=? k then S754_finite false 4503599627370496 (k - 52)
  else S754_finite false (Z.to_pos (Z.shiftl 1 (k + 1074))) (-1074).

(** A coarse exponential, [2 ^ floor (x / ln 2)]: within a factor of two
    of [exp x]. *)
Definition exp_ref (s : bool) (m : positive) (e : Z) : float :=
  pow2 (Z.shiftl (cond_Zopp s (Z.pos m) * log2e_mantissa) (e - 52)).

(** A coarse logarithm, [floor (log2 x) * ln 2]: within [ln 2] of [ln x]. *)
Definition log_ref (m : positive) (e : Z) : float :=
  mul (of_Z (e + Z.pos (digits2_pos m) - 1)) ln2.

(** The values of [log_ref] on the binary64 numbers are the products of
    [ln 2] with the integers from [-1074] to [1023]: this checks that each
    is a finite binary64 number. *)
Definition log_ref_table_ok : bool :=
  List.forallb
    (λ k, let y := mul (of_Z (Z.of_nat k - 1074)) ln2 in
          isfinite y && valid y)
    (List.seq 0 2098).

Definition libm : Libm := {| exp_core := exp_ref; log_core := log_ref |}.

Definition arith : Arith float := @B64.arith libm.

(** The first pair of neighbouring nodes of an axis that encloses [v],
    with the index of the pair. *)
Fixpoint bracket (axis : list float) (v : float) (k : nat)
    : option (nat * float * float) :=
  match axis with
  | a0 :: rest =>
      match rest with
      | a1 :: _ =>
          if (SFleb a0 v && SFleb v a1) || (SFleb a1 v && SFleb v a0)
          then Some (k, a0, a1)
          else bracket rest v (S k)
      | [] => None
      end
  | [] => None
  end.

(** Bilinear interpolation at one point; NaN outside the grid. *)
Definition bilinear (g : Grid2D float) (x y : float) : float :=
  match bracket (g_x g) x 0, bracket (g_y g) y 0 with
  | Some (i, x0, x1), Some (j, y0, y1) =>
      let z := g_array g in
      match cell z i j, cell z (S i) j, cell z i (S j), cell z (S i) (S j) with
      | Some z00, Some z10, Some z01, Some z11 =>
          let t := div (sub x x0) (sub x1 x0) in
          let u := div (sub y y0) (sub y1 y0) in
          add (add (mul (mul (sub one t) (sub one u)) z00)
                   (mul (mul t (sub one u)) z10))
              (add (mul (mul (sub one t) u) z01)
                   (mul (mul t u) z11))
      | _, _, _, _ => nan
      end
  | _, _ => nan
  end.

Definition bivariate_ref (g : Grid2D float) (xs ys : list float)
    : result (list float) :=
  if decide (length xs = length ys)
  then Ok (zip_with (bilinear g) xs ys)
  else Raise (ValueError "coordinate arrays of different lengths").

(** The defined cells within [nx], [ny] steps of [(i, j)]. *)
Definition window (z : ndarray float) (nx ny i j : nat) : list float :=
  filter (λ v, isnan v = false)
    (concat ((λ row, take (j `min` ny + ny + 1) (drop (j - ny) row)) <$>
             take (i `min` nx + nx + 1) (drop (i - nx) z))).

(** A gap fill that keeps every defined cell and gives an undefined cell
    the mean of the defined cells of its window (pyinterp weights them by
    distance). *)
Definition fill_cell (z : ndarray float) (nx ny i j : nat) (v : float)
    : float :=
  if isnan v
  then let w := window z nx ny i j in
       div (foldr add zero w) (of_Z (Z.of_nat (length w)))
  else v.

Definition loess_ref (g : Grid2D float) (nx ny : nat)
    : result (ndarray float) :=
  Ok (imap (λ i row, imap (λ j v, fill_cell (g_array g) nx ny i j v) row)
        (g_array g)).

Definition pyinterp : Pyinterp float :=
  {| fill_loess := loess_ref; bivariate := bivariate_ref |}.

End Ref.

(** ** The batch driver, [GetAlanTiles.py] *)

Local Open Scope string_scope.

Abbreviation ROI := (Z * Z * Z * Z)%type.

(** The region table, in the order of the source: a Python dict iterates
    in insertion order. *)
Definition REGION_LOOKUP : list (string * (string * ROI)) :=
  [ ("EuropeMed", ("Europe Mediterranean", (20, 85, -20, 55)%Z));
    ("MidE_NInd", ("Middle East and Northern Indian Ocean", (0, 30, 30, 60)%Z));
    ("NInd_FarE", ("Northern Indian Ocean, Far East", (0, 30, 60, 100)%Z));
    ("FarE_Isl", ("Far East and Islands", (-10, 30, 100, 130)%Z));
    ("Oceania", ("Oceania", (-50, 0, 100, 180)%Z));
    ("PacRim", ("Pacific Rim", (20, 85, 100, 180)%Z));
    ("NAm", ("North America", (20, 85, -180, -50)%Z));
    ("CAm", ("Central America", (0, 20, -120, -60)%Z));
    ("SAm", ("South America", (-60, 0, -90, -30)%Z));
    ("NAfr", ("North Africa", (0, 30, -20, 20)%Z));
    ("SAfr", ("South Africa", (-40, 0, 0, 70)%Z)) ].

Definition MONTHS_LIST : list string :=
  ["01"; "02"; "03"; "04"; "05"; "06"; "07"; "08"; "09"; "10"; "11"; "12"].

(** [table[key]] on a dict kept as an association list. *)
Fixpoint assoc_get {V} (table : list (string * V)) (key : string) : result V :=
  match table with
  | [] => Raise (KeyError key)
  | (k, v) :: rest => if decide (k = key) then Ok v else assoc_get rest key
  end.

(** [repr] of a list of strings. *)
Definition repr_list (l : list string) : string :=
  "[" +:+ String.concat ", " ((λ s, "'" +:+ s +:+ "'") <$> l) +:+ "]".

(** The command line: the output directory and the regions and months to
    process. The source paths go to the tile constructor unchanged. *)
Record Args := {
  output_dir : string;
  regions : list string;
  months : list string
}.

(** What the run leaves behind: the debug log and the files written, in
    order. *)
Record World := {
  logged : list string;
  saved : list string
}.

(** [make_output_fname] *)
Definition make_output_fname (roi : ROI) (month : string)
    (region_name : string) : string :=
  let region_str := if decide (region_name = "") then ""
                    else "_" +:+ region_name in
  "In-water_clear-sky_ALAN_Zc_Month-" +:+ month +:+ "_" +:+
  pretty roi.1.1.1 +:+ "S_" +:+ pretty roi.1.1.2 +:+ "N_" +:+
  pretty roi.1.2 +:+ "W_" +:+ pretty roi.2 +:+ "E" +:+ region_str +:+ ".nc".

(** The file the unit (region, month) writes under [dir]. *)
Definition unit_path (dir region_name month : string) : string :=
  match assoc_get REGION_LOOKUP region_name with
  | Ok entry =>
      (dir +:+ "/" +:+ make_output_fname entry.2 month region_name)%string
  | Raise _ => ""%string
  end.

Section driver.

(** A computed tile, its constructor [ALANTile(name, roi, month, ...)],
    which reads the three sources and computes the depth grid, and the
    NetCDF writer: all three may fail on the files they meet. *)
Variable tile : Type.
Variable ALANTile_new : string → ROI → string → result tile.
Variable to_netcdf : tile → string → result unit.

Definition logging_debug (msg : string) : ST World unit := λ w,
  (Ok tt, {| logged := logged w ++ [msg]; saved := saved w |}).

Definition file_written (path : string) : ST World unit := λ w,
  (Ok tt, {| logged := logged w; saved := saved w ++ [path] |}).

(** [save_z_thresh_to_nc], with the default file name. *)
Definition save_z_thresh_to_nc (t : tile) (roi : ROI) (month : string)
    (dir : string) (region_name : string) : ST World unit :=
  let fname := make_output_fname roi month region_name in
  let output_path := dir +:+ "/" +:+ fname in
  _ ← lift_result (to_netcdf t output_path);
  file_written output_path.

(** The body of the inner loop: one (region, month) unit. *)
Definition process_month (args : Args) (region_name : string)
    (user_friendly_region_name : string) (roi : ROI) (month : string)
    : ST World unit :=
  _ ← logging_debug ("Processing month " +:+ month);
  alan_tile ← lift_result (ALANTile_new user_friendly_region_name roi month);
  _ ← logging_debug ("Saving results to " +:+ output_dir args);
  save_z_thresh_to_nc alan_tile roi month (output_dir args) region_name.

(** The body of the outer loop. *)
Definition process_region (args : Args) (region_name : string)
    : ST World unit :=
  _ ← logging_debug ("Processing " +:+ region_name);
  entry ← lift_result (assoc_get REGION_LOOKUP region_name);
  let roi := entry.2 in
  let user_friendly_region_name := entry.1 in
  for_each (process_month args region_name user_friendly_region_name roi)
    (months args).

(** The script, after argument parsing. *)
Definition main (args : Args) : ST World unit :=
  _ ← logging_debug ("Regions to be processed: " +:+ repr_list (regions args));
  _ ← logging_debug ("Months to be processed: " +:+ repr_list (months args));
  for_each (process_region args) (regions args).

(** The unit (region, month) goes through: the region is in the table, the
    tile is built, and the file is written. *)
Definition unit_ok (dir region_name month : string) : Prop :=
  ∃ entry t,
    assoc_get REGION_LOOKUP region_name = Ok entry ∧
    ALANTile_new entry.1 entry.2 month = Ok t ∧
    to_netcdf t (unit_path dir region_name month) = Ok tt.

(** The unit fails in the tile constructor. *)
Definition unit_raises (region_name month : string) (e : exn) : Prop :=
  ∃ entry,
    assoc_get REGION_LOOKUP region_name = Ok entry ∧
    ALANTile_new entry.1 entry.2 month = Raise e.

End driver.

Arguments unit_ok {tile} _ _ _ _ _.
Arguments unit_raises {tile} _ _ _ _.

Local Close Scope string_scope.

(** ** Sample tiles, stores and runs *)

Module Sample.
Import B64.

Definition two : float := S754_finite false 4503599627370496 (-51).
Definition half : float := S754_finite false 4503599627370496 (-53).
Definition fill : float := of_Z (-999).

(** Unit calibration slopes, no offsets, threshold irradiance [0.5],
    brightness mask at [1.0]. *)
Definition cfg : config float := {|
  M_BLUE := one; C_BLUE := zero;
  M_GREEN := one; C_GREEN := zero;
  M_RED := one; C_RED := zero;
  THRESH_IRR_TOTAL_UW_M2 := half;
  FALCHI_MASK_THRESHOLD := one;
  KD_FILLVAL := fill
|}.

(** Calibration whose channels cancel: blue [B], green [-B], red [0]. *)
Definition cfg_cancel : config float := {|
  M_BLUE := one; C_BLUE := zero;
  M_GREEN := neg_one; C_GREEN := zero;
  M_RED := zero; C_RED := zero;
  THRESH_IRR_TOTAL_UW_M2 := half;
  FALCHI_MASK_THRESHOLD := zero;
  KD_FILLVAL := fill
|}.

Definition kd (k : float) : gmap string (ndarray float) :=
  <["kd_blue"%string := [[k; k]]]>
  (<["kd_green"%string := [[k; k]]]>
  (<["kd_red"%string := [[k; k]]]> ∅)).

Definition ten : float := of_Z 10.
Definition thousand : float := of_Z 1000.

(** A two-by-two source on longitudes and latitudes [0, 1] with one gap,
    as the [DataArray] at reference 1, and the meshes of two target
    points, [(0.5, 0.5)] and [(1, 1)], at references 5 and 6. *)
Definition store_near : store float :=
  <[1%positive := ODataArray 2 3 4]>
  (<[2%positive := ONdarray [[one; nan]; [one; two]]]>
  (<[3%positive := OVector [zero; one]]>
  (<[4%positive := OVector [zero; one]]>
  (<[5%positive := ONdarray [[half; one]]]>
  (<[6%positive := ONdarray [[half; one]]]> ∅))))).

(** The same source without the gap, and one target point at [(10, 10)]:
    no overlap. *)
Definition store_far : store float :=
  <[1%positive := ODataArray 2 3 4]>
  (<[2%positive := ONdarray [[one; one]; [one; two]]]>
  (<[3%positive := OVector [zero; one]]>
  (<[4%positive := OVector [zero; one]]>
  (<[5%positive := ONdarray [[ten]]]>
  (<[6%positive := ONdarray [[ten]]]> ∅))))).

(** A run of the driver in which the attenuation file of month 01 is
    missing: that tile fails, every other tile is built and written. *)
Definition ALANTile_new (name : string) (roi : ROI) (month : string)
    : result unit :=
  if decide (month = "01"%string)
  then Raise (FileNotFoundError "kd_01.nc")
  else Ok tt.

Definition to_netcdf (t : unit) (path : string) : result unit := Ok tt.

Definition args (ms : list string) : Args :=
  {| output_dir := "out"; regions := ["NAfr"; "SAfr"]%string; months := ms |}.

Definition world0 : World := {| logged := []; saved := [] |}.

End Sample.


(** ** The regridding methods and the constructor

    [regrid_falchi], [regrid_kd] and the computing part of [__init__], over
    the object store of [fill_and_regrid]. *)

(** [numpy.meshgrid(x, y, indexing='ij')]: both arrays have one row per
    element of [x] and one column per element of [y]. *)
Definition meshgrid_ij {A} (xs ys : list A) : ndarray A * ndarray A :=
  ((λ x, (λ _ : A, x) <$> ys) <$> xs, (λ _ : A, ys) <$> xs).

(** A [DataArray] with a leading dimension (the band of the brightness
    raster, the time of an attenuation variable): the references of its
    two-dimensional slices and of its coordinate vectors. *)
Record DataArray3 := {
  da_slices : list positive;
  da_lat : positive;
  da_lon : positive
}.

Section regrid_methods.
Context {F : Type} `{Arith F}.
Variable cfg : config F.
Variable pyi : Pyinterp F.

(** [da[k]]: a new [DataArray] on the data of slice [k], which it shares,
    and on the same coordinates. *)
Definition DataArray3_getitem (da : DataArray3) (k : nat)
    : ST (store F) positive :=
  match da_slices da !! k with
  | Some d => alloc (ODataArray d (da_lat da) (da_lon da))
  | None => raise (IndexError "index out of bounds")
  end.

(** [np.meshgrid(self.lon.data, self.lat.data, indexing='ij')], the two
    meshes as new arrays. *)
Definition target_mesh (lon lat : positive)
    : ST (store F) (positive * positive) :=
  xs ← get_vector lon;
  ys ← get_vector lat;
  mx ← alloc (ONdarray (meshgrid_ij xs ys).1);
  my ← alloc (ONdarray (meshgrid_ij xs ys).2);
  mret (mx, my).

(** [regrid_falchi] *)
Definition regrid_falchi (falchi_data : DataArray3) (lon lat : positive)
    : ST (store F) positive :=
  m ← target_mesh lon lat;
  band ← DataArray3_getitem falchi_data 0;
  fill_and_regrid pyi band m.1 m.2.

(** The loop of [regrid_kd], with the dict it fills. [self.kd_data] is an
    [xarray.Dataset]: indexing it by a name it does not hold raises
    [KeyError]; the argument of that exception is xarray's message, kept
    here as the name. *)
Fixpoint regrid_channels (kd_data : gmap string DataArray3)
    (mx my : positive) (channels : list string)
    (kd_regridded : gmap string positive)
    : ST (store F) (gmap string positive) :=
  match channels with
  | [] => mret kd_regridded
  | channel :: rest =>
      var ← lift_result (dict_get kd_data channel);
      slice ← DataArray3_getitem var 0;
      regridded ← fill_and_regrid pyi slice mx my;
      regrid_channels kd_data mx my rest (<[channel := regridded]> kd_regridded)
  end.

(** [regrid_kd] *)
Definition regrid_kd (kd_data : gmap string DataArray3) (lon lat : positive)
    : ST (store F) (gmap string positive) :=
  m ← target_mesh lon lat;
  regrid_channels kd_data m.1 m.2
    ["kd_blue"; "kd_red"; "kd_green"]%string ∅.

(** The arrays a dict of references stands for. *)
Definition deref (σ : store F) (d : gmap string positive)
    : gmap string (ndarray F) :=
  omap (λ l, match σ !! l with Some (ONdarray a) => Some a | _ => None end) d.

Definition get_arrays (d : gmap string positive)
    : ST (store F) (gmap string (ndarray F)) := λ σ, (Ok (deref σ d), σ).

(** What [__init__] keeps of its computation. *)
Record Tile := {
  falchi_regridded : positive;
  falchi_masked : ndarray F;
  kd_regridded : gmap string positive;
  z_thresh : ndarray F
}.

(** [__init__] from the loaded sources on: the land/sea raster of the
    region with its coordinate vectors, the brightness raster and the
    attenuation variables. *)
Definition ALANTile_init (landmask : ndarray Z) (lat lon : positive)
    (falchi_data : DataArray3) (kd_data : gmap string DataArray3)
    : ST (store F) Tile :=
  fr ← regrid_falchi falchi_data lon lat;
  fr_a ← get_ndarray fr;
  fm ← lift_result (mask_falchi cfg fr_a);
  kr ← regrid_kd kd_data lon lat;
  kd ← get_arrays kr;
  z ← lift_result (calculate_z_thresh cfg fm kd landmask);
  mret {| falchi_regridded := fr; falchi_masked := fm;
          kd_regridded := kr; z_thresh := z |}.

End regrid_methods.

Arguments Tile : clear implicits.

(** What the tile needs of pyinterp to go through: the gap fill returns
    an array of the shape of the grid, the interpolation one value for
    each point. *)
Definition pyinterp_returns {F} (pyi : Pyinterp F) : Prop :=
  (∀ g nx ny, ∃ f, fill_loess pyi g nx ny = Ok f ∧
                   shape f = shape (g_array g)) ∧
  (∀ g xs ys, length xs = length ys →
     ∃ vs, bivariate pyi g xs ys = Ok vs ∧ length vs = length xs).

(** A source raster in the store: a data array of one row for each
    latitude and one column for each longitude, neither axis empty. *)
Definition source_at {F} (σ : store F) (d lat lon : positive)
    (a : ndarray F) (ys xs : list F) : Prop :=
  σ !! d = Some (ONdarray a) ∧ σ !! lat = Some (OVector ys) ∧
  σ !! lon = Some (OVector xs) ∧
  shape a = replicate (length ys) (length xs) ∧ ys ≠ [] ∧ xs ≠ [].

(** The arrays of a dict of references all have the shape [sh]. *)
Definition dict_shaped {F} (σ : store F) (r : gmap string positive)
    (sh : list nat) : Prop :=
  ∀ c l, r !! c = Some l →
    ∃ o, σ !! l = Some (ONdarray o) ∧ shape o = sh.

(** The variable of a channel is in the dataset, with a well-formed
    first slice. *)
Definition channel_at {F} (σ : store F) (kd_data : gmap string DataArray3)
    (c : string) : Prop :=
  ∃ var d a ys xs,
    kd_data !! c = Some var ∧ da_slices var !! 0%nat = Some d ∧
    source_at σ d (da_lat var) (da_lon var) a ys xs.

(** ** File names of the batch run *)

(** The part of the output file name after the month. *)
Definition fname_suffix (roi : ROI) (region_name : string) : string :=
  let region_str := if decide (region_name = "") then ""
                    else "_" +:+ region_name in
  "_" +:+
  pretty roi.1.1.1 +:+ "S_" +:+ pretty roi.1.1.2 +:+ "N_" +:+
  pretty roi.1.2 +:+ "W_" +:+ pretty roi.2 +:+ "E" +:+ region_str +:+ ".nc".

(** Two strings can end two equal strings: the shorter is an end of the
    longer. *)
Definition ends_agree (t1 t2 : string) : bool :=
  let l1 := reverse (list_ascii_of_string t1) in
  let l2 := reverse (list_ascii_of_string t2) in
  let n := (length l1 `min` length l2)%nat in
  bool_decide (take n l1 = take n l2).

(** ** The data variable of the output dataset *)

Section dataset.
Context {F : Type} `{Arith F}.

(** [np.expand_dims(a, axis=0)] *)
Definition expand_dims0 {A} (a : ndarray A) : list (ndarray A) := [a].

(** [da.fillna(value)] on a float array with a leading dimension. *)
Definition fillna (value : F) (a : list (ndarray F)) : list (ndarray F) :=
  fmap (M:=list) (amap (λ x, if f_isnan x then value else x)) a.

(** The data of the variable [z_thresh] that [make_z_thresh_dataset]
    returns; the replacement value is a constant of the configuration
    module. *)
Definition z_thresh_data (VALUE_TO_REPLACE_NANS : F) (z_thresh : ndarray F)
    : list (ndarray F) :=
  fillna VALUE_TO_REPLACE_NANS (expand_dims0 z_thresh).

End dataset.

(** ** Sample sources of a tile *)

Module Demo.
Import B64.

(** Target axes of three longitudes (reference 1) and two latitudes
    (reference 2); source axes [0, 1] (references 3 and 4); a brightness
    band (reference 5) and three attenuation slices (references 6 to 8),
    the blue one with a gap. *)
Definition sources : store float :=
  <[1%positive := OVector [zero; Sample.half; one]]>
  (<[2%positive := OVector [zero; one]]>
  (<[3%positive := OVector [zero; one]]>
  (<[4%positive := OVector [zero; one]]>
  (<[5%positive := ONdarray [[Sample.two; Sample.two];
                             [Sample.two; Sample.ten]]]>
  (<[6%positive := ONdarray [[Sample.half; nan];
                             [Sample.half; Sample.half]]]>
  (<[7%positive := ONdarray [[Sample.half; Sample.half];
                             [Sample.half; Sample.half]]]>
  (<[8%positive := ONdarray [[Sample.half; Sample.half];
                             [Sample.half; Sample.half]]]> ∅))))))).

Definition falchi_data : DataArray3 :=
  {| da_slices := [5%positive]; da_lat := 3; da_lon := 4 |}.

Definition no_bands : DataArray3 :=
  {| da_slices := []; da_lat := 3; da_lon := 4 |}.

Definition kd_data : gmap string DataArray3 :=
  <["kd_blue"%string := {| da_slices := [6%positive]; da_lat := 3; da_lon := 4 |}]>
  (<["kd_green"%string := {| da_slices := [7%positive]; da_lat := 3; da_lon := 4 |}]>
  (<["kd_red"%string := {| da_slices := [8%positive]; da_lat := 3; da_lon := 4 |}]> ∅)).

(** Two rows of latitude, three columns of longitude; two land cells. *)
Definition landmask : ndarray Z := [[255; 255; 0]; [255; 0; 255]].

(** An attenuation file of one variable and one time step, with a fill
    value in its first cell, and a selection that keeps everything. *)
Definition kd_file : Dataset float :=
  Build_Dataset [zero] [zero; one]
    {["kd_blue"%string := [[[Sample.fill; Sample.half]]]]}.

Definition sel_all (ds : Dataset float) (lat lon : Z * Z) : Dataset float :=
  ds.

Definition roi : ROI := (0, 30, -20, 20).

(** A configuration whose fill value is NaN. *)
Definition cfg_nan_fill : config float := {|
  M_BLUE := one; C_BLUE := zero;
  M_GREEN := one; C_GREEN := zero;
  M_RED := one; C_RED := zero;
  THRESH_IRR_TOTAL_UW_M2 := Sample.half;
  FALCHI_MASK_THRESHOLD := one;
  KD_FILLVAL := nan
|}.

(** A pyinterp whose gap fill fails. *)
Definition pyinterp_failing : Pyinterp float :=
  {| fill_loess := λ _ _ _, Raise (ValueError "loess failed");
     bivariate := Ref.bivariate_ref |}.

(** A run over one known region and one that is not in the table. *)
Definition args_unknown : Args :=
  {| output_dir := "out"; regions := ["NAfr"; "Atlantis"; "SAfr"]%string;
     months := ["02"]%string |}.

End Demo.

(** ** The local arrays of [calculate_z_thresh]

    [calculate_z_thresh] once more, binding by binding, returning the
    arrays it names on the way together with its result. [Kd_total] and
    [z_thresh] are bound twice in the source; the record holds the last
    binding of each. *)

Module Locals.

Record t (F : Type) := {
  sfce_irr_blue_uW_m2 : ndarray F;
  sfce_irr_green_uW_m2 : ndarray F;
  sfce_irr_red_uW_m2 : ndarray F;
  sfce_irr_total_uW_m2 : ndarray F;
  R_blue : ndarray F;
  R_green : ndarray F;
  R_red : ndarray F;
  Kd_log_expression : ndarray F;
  Kd_total : ndarray F;
  z_thresh : ndarray F
}.
Arguments sfce_irr_blue_uW_m2 {F} _.
Arguments sfce_irr_green_uW_m2 {F} _.
Arguments sfce_irr_red_uW_m2 {F} _.
Arguments sfce_irr_total_uW_m2 {F} _.
Arguments R_blue {F} _.
Arguments R_green {F} _.
Arguments R_red {F} _.
Arguments Kd_log_expression {F} _.
Arguments Kd_total {F} _.
Arguments z_thresh {F} _.

End Locals.

Section locals.
Context {F : Type} `{Arith F}.
Variable cfg : config F.

Definition calculate_z_thresh_locals (falchi_masked : ndarray F)
    (kd_regridded : gmap string (ndarray F)) (landmask : ndarray Z)
    : result (Locals.t F) :=
  let sfce_irr_blue_uW_m2 :=
    amap (λ b, f_add (f_mul (M_BLUE cfg) b) (C_BLUE cfg)) falchi_masked in
  let sfce_irr_green_uW_m2 :=
    amap (λ b, f_add (f_mul (M_GREEN cfg) b) (C_GREEN cfg)) falchi_masked in
  let sfce_irr_red_uW_m2 :=
    amap (λ b, f_add (f_mul (M_RED cfg) b) (C_RED cfg)) falchi_masked in
  bg ← amap2 f_add sfce_irr_blue_uW_m2 sfce_irr_green_uW_m2;
  sfce_irr_total_uW_m2 ← amap2 f_add bg sfce_irr_red_uW_m2;
  R_blue ← amap2 f_div sfce_irr_blue_uW_m2 sfce_irr_total_uW_m2;
  R_green ← amap2 f_div sfce_irr_green_uW_m2 sfce_irr_total_uW_m2;
  R_red ← amap2 f_div sfce_irr_red_uW_m2 sfce_irr_total_uW_m2;
  kd_blue ← dict_get kd_regridded "kd_blue";
  t_blue ← amap2 f_mul R_blue (amap (λ k, f_exp (f_mul f_neg_one k)) kd_blue);
  kd_green ← dict_get kd_regridded "kd_green";
  t_green ←
    amap2 f_mul R_green (amap (λ k, f_exp (f_mul f_neg_one k)) kd_green);
  t_bg ← amap2 f_add t_blue t_green;
  kd_red ← dict_get kd_regridded "kd_red";
  t_red ← amap2 f_mul R_red (amap (λ k, f_exp (f_mul f_neg_one k)) kd_red);
  Kd_log_expression ← amap2 f_add t_bg t_red;
  cond ← np_logical_and
    (amap (λ x, f_ltb f_zero x) Kd_log_expression)
    (amap (λ x, negb (f_isnan x)) Kd_log_expression);
  Kd_total ← np_where cond
    (amap (λ x, f_mul f_neg_one (f_log x)) Kd_log_expression)
    (full_like cond f_nan);
  Kd_total ← np_where
    (amap (λ k, f_ltb f_zero k) Kd_total) Kd_total (full_like Kd_total f_nan);
  z_thresh ← amap2 f_mul
    (amap (λ k, f_div f_neg_one k) Kd_total)
    (amap (λ e, f_log (f_div (THRESH_IRR_TOTAL_UW_M2 cfg) e))
       sfce_irr_total_uW_m2);
  z_thresh ← apply_landmask landmask z_thresh;
  mret {|
    Locals.sfce_irr_blue_uW_m2 := sfce_irr_blue_uW_m2;
    Locals.sfce_irr_green_uW_m2 := sfce_irr_green_uW_m2;
    Locals.sfce_irr_red_uW_m2 := sfce_irr_red_uW_m2;
    Locals.sfce_irr_total_uW_m2 := sfce_irr_total_uW_m2;
    Locals.R_blue := R_blue;
    Locals.R_green := R_green;
    Locals.R_red := R_red;
    Locals.Kd_log_expression := Kd_log_expression;
    Locals.Kd_total := Kd_total;
    Locals.z_thresh := z_thresh
  |}.

End locals.

(** ** Well-formed binary64 inputs

    The cells of a [float64] array and the constants of the configuration
    are binary64 numbers: of the representations of [spec_float], the
    canonical ones in range. The C library returns such numbers. *)

Definition valid_array (a : ndarray B64.float) : Prop :=
  ∀ i j x, cell a i j = Some x → B64.valid x = true.

Definition valid_config (cfg : config B64.float) : Prop :=
  B64.valid (M_BLUE cfg) = true ∧ B64.valid (C_BLUE cfg) = true ∧
  B64.valid (M_GREEN cfg) = true ∧ B64.valid (C_GREEN cfg) = true ∧
  B64.valid (M_RED cfg) = true ∧ B64.valid (C_RED cfg) = true.

Definition exp_valid `{B64.Libm} : Prop :=
  ∀ s m e, bounded B64.prec B64.emax m e = true →
    B64.valid (B64.exp_core s m e) = true.

(** * Binary64 operations return binary64 numbers

    The operations of [SpecFloat] on canonical representations in range
    return canonical representations in range (or a zero, an infinity or
    NaN). *)

Module B64_valid.
Import B64.

Lemma digits2_pos_bounds (p : positive) :
  2 ^ (Z.pos (digits2_pos p) - 1) ≤ Z.pos p < 2 ^ Z.pos (digits2_pos p).
Proof.
  induction p as [p IH|p IH|]; simpl digits2_pos.
  - rewrite Pos2Z.inj_succ.
    replace (Z.succ (Z.pos (digits2_pos p)) - 1)
      with (Z.succ (Z.pos (digits2_pos p) - 1)) by lia.
    rewrite !Z.pow_succ_r by lia. lia.
  - rewrite Pos2Z.inj_succ.
    replace (Z.succ (Z.pos (digits2_pos p)) - 1)
      with (Z.succ (Z.pos (digits2_pos p) - 1)) by lia.
    rewrite !Z.pow_succ_r by lia. lia.
  - simpl. lia.
Qed.

Lemma Zdigits2_nonneg (m : Z) : 0 ≤ Zdigits2 m.
Proof. destruct m; simpl; lia. Qed.

Lemma Zdigits2_bounds (m : Z) :
  0 < m → 2 ^ (Zdigits2 m - 1) ≤ m < 2 ^ Zdigits2 m.
Proof. destruct m as [|p|p]; try lia. intros _. apply digits2_pos_bounds. Qed.

Lemma Zdigits2_unique (m k : Z) :
  0 < m → 2 ^ (k - 1) ≤ m < 2 ^ k → Zdigits2 m = k.
Proof.
  intros Hm [Hlo Hhi]. pose proof (Zdigits2_bounds m Hm) as [Dlo Dhi].
  destruct (Z.lt_trichotomy (Zdigits2 m) k) as [Hlt|[->|Hgt]]; [|done|].
  - pose proof (Z.pow_le_mono_r 2 (Zdigits2 m) (k - 1)). lia.
  - pose proof (Z.pow_le_mono_r 2 k (Zdigits2 m - 1)). lia.
Qed.

Lemma Zdigits2_mono (m m' : Z) : 0 ≤ m ≤ m' → Zdigits2 m ≤ Zdigits2 m'.
Proof.
  intros [H0 Hle]. destruct (Z.eq_dec m 0) as [->|Hne].
  { apply Zdigits2_nonneg. }
  pose proof (Zdigits2_bounds m) as [Dlo Dhi]; [lia|].
  pose proof (Zdigits2_bounds m') as [Dlo' Dhi']; [lia|].
  destruct (Z.le_gt_cases (Zdigits2 m) (Zdigits2 m')) as [|Hgt]; [done|].
  pose proof (Z.pow_le_mono_r 2 (Zdigits2 m') (Zdigits2 m - 1)). lia.
Qed.

(** A number of at least [2 ^ k] has more than [k] digits. *)
Lemma Zdigits2_lower (m k : Z) : 0 ≤ k → 2 ^ k ≤ m → k + 1 ≤ Zdigits2 m.
Proof.
  intros Hk Hm. assert (0 < m) by (pose proof (Z.pow_pos_nonneg 2 k); lia).
  pose proof (Zdigits2_bounds m) as [Dlo Dhi]; [lia|].
  destruct (Z.le_gt_cases (k + 1) (Zdigits2 m)) as [|Hgt]; [done|].
  pose proof (Z.pow_le_mono_r 2 (Zdigits2 m) k). lia.
Qed.

Lemma Zdigits2_div_pow2 (m n : Z) :
  0 ≤ m → 0 ≤ n → Zdigits2 (m / 2 ^ n) = Z.max (Zdigits2 m - n) 0.
Proof.
  intros Hm Hn. destruct (Z.eq_dec m 0) as [->|Hne].
  { rewrite Z.div_0_l by (apply Z.pow_nonzero; lia). simpl. lia. }
  pose proof (Zdigits2_bounds m) as [Dlo Dhi]; [lia|].
  set (d := Zdigits2 m) in *.
  assert (0 < 2 ^ n) by (apply Z.pow_pos_nonneg; lia).
  destruct (Z.le_gt_cases d n) as [Hdn|Hdn].
  - pose proof (Z.pow_le_mono_r 2 d n).
    rewrite Z.div_small by lia. simpl. lia.
  - assert (2 ^ (d - n - 1) ≤ m / 2 ^ n) as Hlo.
    { apply Z.div_le_lower_bound; [done|].
      rewrite <- Z.pow_add_r by lia.
      replace (n + (d - n - 1)) with (d - 1) by lia. done. }
    assert (m / 2 ^ n < 2 ^ (d - n)) as Hhi.
    { apply Z.div_lt_upper_bound; [done|].
      rewrite <- Z.pow_add_r by lia.
      replace (n + (d - n)) with d by lia. done. }
    assert (0 < 2 ^ (d - n - 1)) by (apply Z.pow_pos_nonneg; lia).
    rewrite (Zdigits2_unique (m / 2 ^ n) (d - n)); [lia|lia|done].
Qed.

(** *** Shifting a mantissa to the right *)

Lemma shr_1_m (mrs : shr_record) :
  0 ≤ shr_m mrs → shr_m (shr_1 mrs) = shr_m mrs / 2.
Proof.
  destruct mrs as [[|[p|p|]|p] r s]; simpl; intros Hm; try lia.
  - reflexivity.
  - apply (Z.div_unique (Z.pos p~1) 2 (Z.pos p) 1); lia.
  - apply (Z.div_unique (Z.pos p~0) 2 (Z.pos p) 0); lia.
  - reflexivity.
Qed.

Lemma iter_pos_shr_1_m (p : positive) (mrs : shr_record) :
  0 ≤ shr_m mrs →
  shr_m (SpecFloat.iter_pos shr_1 p mrs) = shr_m mrs / 2 ^ Z.pos p.
Proof.
  revert mrs. induction p as [p IH|p IH|]; intros mrs Hm; simpl SpecFloat.iter_pos.
  - assert (0 < 2 ^ Z.pos p) by (apply Z.pow_pos_nonneg; lia).
    assert (0 ≤ shr_m (shr_1 mrs))
      by (rewrite shr_1_m by done; apply Z.div_pos; lia).
    assert (0 ≤ shr_m (SpecFloat.iter_pos shr_1 p (shr_1 mrs)))
      by (rewrite IH by done; apply Z.div_pos; lia).
    rewrite IH, IH, shr_1_m by done.
    rewrite !Z.div_div by lia. f_equal.
    replace (Z.pos p~1) with (1 + (Z.pos p + Z.pos p)) by lia.
    rewrite !Z.pow_add_r by lia. lia.
  - assert (0 < 2 ^ Z.pos p) by (apply Z.pow_pos_nonneg; lia).
    assert (0 ≤ shr_m (SpecFloat.iter_pos shr_1 p mrs))
      by (rewrite IH by done; apply Z.div_pos; lia).
    rewrite IH, IH by done.
    rewrite !Z.div_div by lia. f_equal.
    replace (Z.pos p~0) with (Z.pos p + Z.pos p) by lia.
    rewrite !Z.pow_add_r by lia. lia.
  - by rewrite shr_1_m.
Qed.

Lemma shr_spec (mrs : shr_record) (e n : Z) :
  0 ≤ shr_m mrs →
  shr_m (shr mrs e n).1 = shr_m mrs / 2 ^ Z.max n 0 ∧
  (shr mrs e n).2 = e + Z.max n 0.
Proof.
  intros Hm. destruct n as [|p|p]; simpl.
  - rewrite Z.div_1_r. lia.
  - rewrite iter_pos_shr_1_m by done. split; [done|lia].
  - rewrite Z.div_1_r. lia.
Qed.

Lemma shr_record_of_loc_m (m : Z) (l : location) :
  shr_m (shr_record_of_loc m l) = m.
Proof. by destruct l as [|[]]. Qed.

(** After [shr_fexp] the exponent is the canonical one of the mantissa
    that is left. *)
Lemma shr_fexp_fix (m e : Z) (l : location) :
  0 ≤ m → e ≤ fexp prec emax (Zdigits2 m + e) →
  0 ≤ shr_m (shr_fexp prec emax m e l).1 ∧
  fexp prec emax
    (Zdigits2 (shr_m (shr_fexp prec emax m e l).1)
     + (shr_fexp prec emax m e l).2)
  = (shr_fexp prec emax m e l).2.
Proof.
  intros Hm He. unfold shr_fexp.
  set (n := fexp prec emax (Zdigits2 m + e) - e).
  destruct (shr_spec (shr_record_of_loc m l) e n) as [-> ->];
    [by rewrite shr_record_of_loc_m|].
  rewrite shr_record_of_loc_m.
  assert (Z.max n 0 = n) as -> by lia.
  assert (0 < 2 ^ n) by (apply Z.pow_pos_nonneg; lia).
  split; [apply Z.div_pos; lia|].
  rewrite Zdigits2_div_pow2 by lia.
  pose proof (Zdigits2_nonneg m).
  subst n. unfold fexp, SpecFloat.emin, prec, emax in *. lia.
Qed.

Lemma round_nearest_even_range (m : Z) (l : location) :
  m ≤ round_nearest_even m l ≤ m + 1.
Proof. destruct l as [|[]]; simpl; try lia. destruct (Z.even m); lia. Qed.

Lemma binary_round_aux_valid (s : bool) (m e : Z) (l : location) :
  0 ≤ m → e ≤ fexp prec emax (Zdigits2 m + e) →
  valid (binary_round_aux prec emax s m e l) = true.
Proof.
  intros Hm He. unfold binary_round_aux.
  destruct (shr_fexp_fix m e l Hm He) as [Hm1 Hfix1].
  destruct (shr_fexp prec emax m e l) as [mrs1 e1]. cbn [fst snd] in *.
  set (m2 := round_nearest_even (shr_m mrs1) (loc_of_shr_record mrs1)).
  pose proof (round_nearest_even_range (shr_m mrs1) (loc_of_shr_record mrs1))
    as Hr. fold m2 in Hr.
  assert (e1 ≤ fexp prec emax (Zdigits2 m2 + e1)) as He1.
  { pose proof (Zdigits2_mono (shr_m mrs1) m2).
    unfold fexp, SpecFloat.emin, prec, emax in *. lia. }
  destruct (shr_fexp_fix m2 e1 loc_Exact) as [Hm3 Hfix2]; [lia|done|].
  destruct (shr_fexp prec emax m2 e1 loc_Exact) as [mrs2 e2].
  cbn [fst snd] in *.
  destruct (shr_m mrs2) as [|p|p]; [done| |lia].
  destruct (e2 <=? emax - prec) eqn:Hle; [|done].
  unfold valid, valid_binary, bounded, canonical_mantissa.
  rewrite Hle, andb_true_r. apply Z.eqb_eq. exact Hfix2.
Qed.

(** *** Multiplication *)

Lemma Zdigits2_mul_lower (x y : positive) :
  Z.pos (digits2_pos x) + Z.pos (digits2_pos y) - 1
  ≤ Zdigits2 (Z.pos (x * y)).
Proof.
  pose proof (digits2_pos_bounds x) as [Hx _].
  pose proof (digits2_pos_bounds y) as [Hy _].
  set (dx := Z.pos (digits2_pos x)) in *.
  set (dy := Z.pos (digits2_pos y)) in *.
  assert (0 < 2 ^ (dx - 1)) by (apply Z.pow_pos_nonneg; lia).
  assert (0 < 2 ^ (dy - 1)) by (apply Z.pow_pos_nonneg; lia).
  pose proof (Zdigits2_lower (Z.pos (x * y)) (dx - 1 + (dy - 1))) as Hl.
  rewrite Z.pow_add_r in Hl by lia.
  rewrite Pos2Z.inj_mul.
  assert (2 ^ (dx - 1) * 2 ^ (dy - 1) ≤ Z.pos x * Z.pos y)
    by (apply Z.mul_le_mono_nonneg; lia).
  rewrite Pos2Z.inj_mul in Hl. lia.
Qed.

Lemma mul_valid (x y : float) :
  valid x = true → valid y = true → valid (mul x y) = true.
Proof.
  destruct x as [sx|sx| |sx mx ex], y as [sy|sy| |sy my ey];
    try done.
  unfold valid, valid_binary, bounded, canonical_mantissa.
  intros [Hcx Hex]%andb_true_iff [Hcy Hey]%andb_true_iff.
  apply Z.eqb_eq in Hcx, Hcy. apply Z.leb_le in Hex, Hey.
  apply binary_round_aux_valid; [lia|].
  pose proof (Zdigits2_mul_lower mx my).
  unfold fexp, SpecFloat.emin, prec, emax in *. lia.
Qed.

(** *** Division *)

Lemma div_valid (x y : float) :
  valid x = true → valid y = true → valid (div x y) = true.
Proof.
  destruct x as [sx|sx| |sx mx ex], y as [sy|sy| |sy my ey];
    try done.
  unfold valid at 1 2, valid_binary, bounded, canonical_mantissa.
  intros [Hcx Hex]%andb_true_iff [Hcy Hey]%andb_true_iff.
  apply Z.eqb_eq in Hcx, Hcy. apply Z.leb_le in Hex, Hey.
  unfold div, SFdiv, SFdiv_core_binary.
  set (dx := Zdigits2 (Z.pos mx)) in *.
  set (dy := Zdigits2 (Z.pos my)) in *.
  set (e' := Z.min (fexp prec emax (dx + ex - (dy + ey))) (ex - ey)).
  set (s := ex - ey - e').
  assert (0 ≤ s) by (unfold s, e'; lia).
  set (m' := match s with
             | 0 => Z.pos mx | Z.pos _ => Z.shiftl (Z.pos mx) s | Z.neg _ => 0
             end).
  assert (m' = Z.pos mx * 2 ^ s) as Hm'.
  { unfold m'. destruct s as [|p|p] eqn:Es; [lia| |lia].
    by rewrite Z.shiftl_mul_pow2. }
  pose proof (Z.div_eucl_eq m' (Z.pos my)) as Heucl.
  assert (Z.div_eucl m' (Z.pos my) = (m' / Z.pos my, m' mod Z.pos my)) as ->
    by (unfold Z.div, Z.modulo; by destruct (Z.div_eucl m' (Z.pos my))).
  assert (0 < 2 ^ s) by (apply Z.pow_pos_nonneg; lia).
  apply binary_round_aux_valid.
  { apply Z.div_pos; nia. }
  pose proof (Zdigits2_bounds (Z.pos mx)) as [Hxlo _]; [lia|].
  pose proof (Zdigits2_bounds (Z.pos my)) as [_ Hyhi]; [lia|].
  fold dx in Hxlo. fold dy in Hyhi.
  assert (1 ≤ dx ∧ 1 ≤ dy) as [? ?] by (unfold dx, dy; simpl; lia).
  destruct (Z.le_gt_cases e' (-1074)) as [|Hbig].
  { unfold fexp, SpecFloat.emin, prec, emax. lia. }
  assert (53 - dx + dy ≤ s)
    by (unfold s, e', fexp, SpecFloat.emin, prec, emax in *; lia).
  set (k := dx - 1 + s - dy).
  assert (2 ^ k ≤ m' / Z.pos my) as Hq.
  { apply Z.div_le_lower_bound; [lia|].
    assert (0 < 2 ^ k) by (apply Z.pow_pos_nonneg; lia).
    assert (2 ^ dy * 2 ^ k = 2 ^ (dx - 1) * 2 ^ s) as Hpow.
    { rewrite <- !Z.pow_add_r by lia. f_equal. lia. }
    rewrite Hm'. nia. }
  pose proof (Zdigits2_lower (m' / Z.pos my) k) as Hd.
  unfold fexp, SpecFloat.emin, prec, emax in *. lia.
Qed.

(** *** Addition *)

Lemma digits2_pos_iter_xO (m d : positive) :
  Z.pos (digits2_pos (Pos.iter xO m d)) = Z.pos (digits2_pos m) + Z.pos d.
Proof.
  induction d as [|d IH] using Pos.peano_ind.
  - simpl. lia.
  - rewrite Pos.iter_succ. simpl digits2_pos. lia.
Qed.

Lemma binary_round_valid (s : bool) (m : positive) (e : Z) :
  valid (binary_round prec emax s m e) = true.
Proof.
  unfold binary_round, shl_align.
  destruct (fexp prec emax (Z.pos (digits2_pos m) + e) - e) as [|d|d] eqn:Ed;
    apply binary_round_aux_valid; try lia; simpl Zdigits2.
  - lia.
  - lia.
  - rewrite digits2_pos_iter_xO.
    replace (Z.pos (digits2_pos m) + Z.pos d
             + fexp prec emax (Z.pos (digits2_pos m) + e))
      with (Z.pos (digits2_pos m) + e) by lia.
    lia.
Qed.

Lemma binary_normalize_valid (m e : Z) (sz : bool) :
  valid (binary_normalize prec emax m e sz) = true.
Proof. destruct m; [done|apply binary_round_valid..]. Qed.

Lemma add_valid (x y : float) :
  valid x = true → valid y = true → valid (add x y) = true.
Proof.
  destruct x as [[]|[]| |sx mx ex], y as [[]|[]| |sy my ey]; try done.
  intros _ _. apply binary_normalize_valid.
Qed.

(** *** The argument of the logarithm *)

Lemma np_exp_valid `{Libm} (x : float) :
  exp_valid → valid x = true → valid (np_exp x) = true.
Proof. intros Hexp. destruct x as [|[]| |]; try done. apply Hexp. Qed.

Lemma Kd_log_expression_valid `{Libm} (cfg : config float)
    (b kb kg kr : float) :
  exp_valid → valid_config cfg →
  valid b = true → valid kb = true → valid kg = true → valid kr = true →
  valid (Kd_log_expression cfg b kb kg kr) = true.
Proof.
  intros Hexp (? & ? & ? & ? & ? & ?) Hb Hkb Hkg Hkr.
  unfold Kd_log_expression, R_blue, R_green, R_red, sfce_irr_total,
    sfce_irr_blue, sfce_irr_green, sfce_irr_red.
  cbn [f_add f_mul f_div f_exp f_neg_one arith].
  repeat first
    [ apply add_valid | apply mul_valid | apply div_valid
    | apply np_exp_valid | assumption | reflexivity ].
Qed.

End B64_valid.

(** * Properties *)

(** ** Results and arrays *)

Lemma result_bind_Ok {A B} (f : A → result B) (m : result A) (b : B) :
  m ≫= f = Ok b ↔ ∃ a, m = Ok a ∧ f a = Ok b.
Proof.
  destruct m as [a|e]; simpl; split.
  - intros H. exists a. split; [reflexivity | exact H].
  - intros (a' & Ha & Hb). injection Ha as <-. exact Hb.
  - discriminate.
  - intros (a' & Ha & _). discriminate.
Qed.


Section ndarray_facts.
Context {A B C : Type}.
Implicit Types (a : ndarray A) (b : ndarray B).

Lemma shape_amap (f : A → B) a : shape (amap f a) = shape a.
Proof.
  unfold shape, amap. rewrite <- list_fmap_compose.
  apply list_fmap_ext. intros _ row _. simpl. apply length_fmap.
Qed.

Lemma cell_amap (f : A → B) a i j : cell (amap f a) i j = f <$> cell a i j.
Proof.
  unfold cell, amap. rewrite list_lookup_fmap.
  destruct (a !! i) as [row|]; simpl; [|reflexivity].
  apply list_lookup_fmap.
Qed.

Lemma shape_zip_with (f : A → B → C) a b :
  shape a = shape b → shape (zip_with (zip_with f) a b) = shape a.
Proof.
  revert b. induction a as [|r a IH]; intros [|r' b] Hs; simplify_eq/=;
    try reflexivity.
  unfold shape in *. simpl. f_equal.
  - rewrite length_zip_with. lia.
  - apply IH. assumption.
Qed.

Lemma cell_zip_with (f : A → B → C) a b i j :
  cell (zip_with (zip_with f) a b) i j =
  cell a i j ≫= λ x, cell b i j ≫= λ y, Some (f x y).
Proof.
  unfold cell. rewrite lookup_zip_with.
  destruct (a !! i) as [ra|]; simpl; [|reflexivity].
  destruct (b !! i) as [rb|]; simpl.
  - apply lookup_zip_with.
  - destruct (ra !! j); reflexivity.
Qed.

Lemma amap2_same_shape (f : A → B → C) a b :
  shape a = shape b → amap2 f a b = Ok (zip_with (zip_with f) a b).
Proof. intros Hs. unfold amap2. rewrite decide_True; done. Qed.

Lemma amap2_Ok (f : A → B → C) a b c :
  amap2 f a b = Ok c →
  shape b = shape a ∧ shape c = shape a ∧
  ∀ i j, cell c i j = cell a i j ≫= λ x, cell b i j ≫= λ y, Some (f x y).
Proof.
  unfold amap2. case_decide as Hs; [|discriminate].
  intros [= <-]. split; [done|]. split.
  - by apply shape_zip_with.
  - intros i j. apply cell_zip_with.
Qed.

(** Cells exist at the same positions in arrays of equal shape. *)
Lemma cell_is_Some_shape a b i j :
  shape a = shape b → is_Some (cell a i j) → is_Some (cell b i j).
Proof.
  unfold cell, shape. intros Hs [x Hx].
  destruct (a !! i) as [ra|] eqn:Ha; simplify_eq/=.
  assert (length <$> b !! i = Some (length ra)) as Hb.
  { rewrite <- list_lookup_fmap, <- Hs, list_lookup_fmap, Ha. done. }
  destruct (b !! i) as [rb|]; simplify_eq/=.
  apply lookup_lt_is_Some. rewrite Hb. by eapply lookup_lt_Some.
Qed.

End ndarray_facts.

Lemma cell_full_like {A B} (a : ndarray A) (s : B) i j :
  cell (full_like a s) i j = (λ _, s) <$> cell a i j.
Proof. apply cell_amap. Qed.

Lemma shape_full_like {A B} (a : ndarray A) (s : B) :
  shape (full_like a s) = shape a.
Proof. apply shape_amap. Qed.

Lemma np_where_Ok {A} (c : ndarray bool) (x y z : ndarray A) :
  np_where c x y = Ok z →
  shape x = shape c ∧ shape y = shape c ∧ shape z = shape c ∧
  ∀ i j, cell z i j =
    cell c i j ≫= λ b, cell x i j ≫= λ vx, cell y i j ≫= λ vy,
    Some (if b : bool then vx else vy).
Proof.
  unfold np_where. intros H.
  apply result_bind_Ok in H as (xy & Hxy & H).
  apply amap2_Ok in Hxy as (Hyx & Hsxy & Hcxy).
  apply amap2_Ok in H as (Hs & Hsz & Hcz).
  rewrite Hsxy in Hs.
  repeat split; try congruence.
  intros i j. rewrite Hcz, Hcxy.
  destruct (cell c i j), (cell x i j), (cell y i j); reflexivity.
Qed.

Lemma np_where_same_shape {A} (c : ndarray bool) (x y : ndarray A) :
  shape x = shape c → shape y = shape c → ∃ z, np_where c x y = Ok z.
Proof.
  intros Hx Hy. unfold np_where.
  rewrite (amap2_same_shape pair x y) by congruence. simpl.
  rewrite amap2_same_shape; [eauto|].
  rewrite shape_zip_with; congruence.
Qed.

Lemma setitem_mask_Ok {A} (a : ndarray A) mask v z :
  setitem_mask a mask v = Ok z →
  shape mask = shape a ∧ shape z = shape a ∧
  ∀ i j, cell z i j =
    cell mask i j ≫= λ m, cell a i j ≫= λ x, Some (if m : bool then v else x).
Proof.
  unfold setitem_mask. case_decide as Hs; [|discriminate].
  intros [= <-]. split; [done|]. split.
  - rewrite shape_zip_with; done.
  - intros i j. apply cell_zip_with.
Qed.

Lemma dict_get_Ok {V} (d : gmap string V) key v :
  dict_get d key = Ok v ↔ d !! key = Some v.
Proof.
  unfold dict_get. destruct (d !! key); split; intros; simplify_eq; done.
Qed.

(** ** IEEE-754 facts *)

Module B64_facts.
Import B64.

Lemma SFcompare_swap (x y : float) c :
  SFcompare x y = Some c → SFcompare y x = Some (CompOpp c).
Proof.
  destruct x as [sx|sx| |sx mx ex], y as [sy|sy| |sy my ey]; simpl;
    try discriminate; intros [= <-];
    repeat match goal with s : bool |- _ => destruct s end;
    try reflexivity; simpl.
  - rewrite (Z.compare_antisym ex ey).
    destruct (ex ?= ey)%Z; simpl; try reflexivity.
    rewrite (Pos.compare_cont_antisym _ _ Eq). simpl.
    by rewrite CompOpp_involutive.
  - rewrite (Z.compare_antisym ex ey).
    destruct (ex ?= ey)%Z; simpl; try reflexivity.
    by rewrite (Pos.compare_cont_antisym _ _ Eq).
Qed.

Lemma SFltb_not_leb (x y : float) : SFltb x y = true → SFleb y x = false.
Proof.
  unfold SFltb, SFleb. destruct (SFcompare x y) as [[]|] eqn:E;
    try discriminate.
  intros _. by rewrite (SFcompare_swap _ _ _ E).
Qed.

Lemma SFleb_not_ltb (x y : float) : SFleb x y = true → SFltb y x = false.
Proof.
  intros Hle. destruct (SFltb y x) eqn:E; [|done].
  apply SFltb_not_leb in E. congruence.
Qed.

Lemma mul_nan_l (y : float) : mul nan y = nan.
Proof. reflexivity. Qed.

Lemma mul_nan_r (x : float) : mul x nan = nan.
Proof. by destruct x. Qed.

Lemma div_nan_r (x : float) : div x nan = nan.
Proof. by destruct x. Qed.

(** A division by zero gives an infinity or NaN, never a finite number. *)
Lemma div_zero_not_finite (x : float) s :
  isfinite (div x (S754_zero s)) = false.
Proof. by destruct x. Qed.

Lemma mul_not_finite_l (x y : float) :
  isfinite x = false → isfinite (mul x y) = false.
Proof. by destruct x, y. Qed.

Lemma add_not_finite_l (x y : float) :
  isfinite x = false → isfinite (add x y) = false.
Proof. destruct x as [|[]| |], y as [|[]| |]; done. Qed.

Lemma add_not_finite_r (x y : float) :
  isfinite y = false → isfinite (add x y) = false.
Proof. destruct x as [|[]| |], y as [|[]| |]; done. Qed.

(** A finite sum has finite terms. *)
Lemma add_finite_inv (x y : float) :
  isfinite (add x y) = true → isfinite x = true ∧ isfinite y = true.
Proof. destruct x as [|[]| |], y as [|[]| |]; done. Qed.

(** A finite number divided by zero: NaN if it is zero, an infinity
    if it is not. *)
Lemma div_zero_split (x : float) s :
  isfinite x = true →
  isnan (div x (S754_zero s)) = SFeqb x zero ∧
  isinf (div x (S754_zero s)) = negb (SFeqb x zero).
Proof. destruct x as [|[]| |[]]; done. Qed.

Lemma eqb_zero (x : float) :
  SFeqb x zero = true → ∃ s, x = S754_zero s.
Proof. destruct x as [s|[]| |[]]; try discriminate. eauto. Qed.

Lemma ltb_zero_cases (x : float) :
  SFltb zero x = true →
  x = pinf ∨ ∃ m e, x = S754_finite false m e.
Proof. destruct x as [|[]| |[]]; try discriminate; eauto. Qed.

(** Multiplying a binary64 number by [-1.0] is exact: it flips the sign. *)
Lemma mul_neg_one_finite s m e :
  bounded prec emax m e = true →
  mul neg_one (S754_finite s m e) = S754_finite (negb s) m e.
Proof.
  unfold bounded, canonical_mantissa. intros Hb.
  apply andb_true_iff in Hb as [Hc He].
  apply Z.eqb_eq in Hc. apply Z.leb_le in He.
  unfold mul, neg_one, SFmul.
  change (xorb true s) with (negb s).
  unfold binary_round_aux.
  cbv [Pos.mul].
  match goal with |- context [shr_fexp _ _ (Z.pos ?p) _ _] => set (m52 := p) end.
  assert (shr_fexp prec emax (Z.pos m52) (-52 + e) loc_Exact =
          ({| shr_m := Z.pos m; shr_r := false; shr_s := false |}, e)) as ->.
  { unfold shr_fexp.
    assert (fexp prec emax (Zdigits2 (Z.pos m52) + (-52 + e)) - (-52 + e)
            = 52)%Z as ->.
    { replace (Zdigits2 (Z.pos m52) + (-52 + e))%Z
        with (Z.pos (digits2_pos m) + e)%Z; [rewrite Hc; lia|].
      subst m52. simpl. rewrite !Pos2Z.inj_succ. lia. }
    subst m52. simpl. f_equal. lia. }
  simpl.
  assert (shr_fexp prec emax (Z.pos m) e loc_Exact =
          ({| shr_m := Z.pos m; shr_r := false; shr_s := false |}, e)) as ->.
  { unfold shr_fexp. simpl Zdigits2. rewrite Hc, Z.sub_diag. reflexivity. }
  cbn [shr_m]. apply Z.leb_le in He. by rewrite He.
Qed.

Section guards.
Context `{Libm}.

(** Where the argument of the logarithm is NaN or infinite, the guarded
    coefficient is NaN: plus infinity passes the first guard, and the
    second one catches its logarithm. *)
Lemma Kd_guards_not_finite (x : float) :
  isfinite x = false → Kd_clamp (Kd_guard x) = nan.
Proof. destruct x as [|[]| |]; done. Qed.

Lemma Kd_guard_nonpos (x : float) : SFleb x zero = true → Kd_guard x = nan.
Proof.
  intros Hx. unfold Kd_guard. cbn [f_ltb f_zero arith].
  by rewrite (SFleb_not_ltb _ _ Hx).
Qed.

Lemma Kd_clamp_nonpos (k : float) : SFleb k zero = true → Kd_clamp k = nan.
Proof.
  intros Hk. unfold Kd_clamp. cbn [f_ltb f_zero arith].
  by rewrite (SFleb_not_ltb _ _ Hk).
Qed.

Lemma Kd_clamp_nan : Kd_clamp nan = nan.
Proof. reflexivity. Qed.

Lemma Kd_clamp_cases (k : float) :
  Kd_clamp k = nan ∨ (Kd_clamp k = k ∧ SFltb zero k = true).
Proof.
  unfold Kd_clamp. cbn [f_ltb f_zero f_nan arith].
  destruct (SFltb zero k); auto.
Qed.

(** With a logarithm that is finite on positive finite numbers, what the
    two guards let through is positive and finite. *)
Lemma Kd_guards_finite (x : float) :
  log_finite → valid x = true →
  Kd_clamp (Kd_guard x) = nan ∨
  (SFltb zero (Kd_clamp (Kd_guard x)) = true ∧
   isfinite (Kd_clamp (Kd_guard x)) = true).
Proof.
  intros Hlog Hx.
  destruct (Kd_clamp_cases (Kd_guard x)) as [E|[E Hpos]]; [by left|].
  right. rewrite E. split; [done|].
  destruct x as [s|[]| |[] m e]; try done.
  unfold Kd_guard in *. cbn [f_ltb f_zero f_isnan f_mul f_neg_one f_log arith] in *.
  simpl SFltb in *. simpl isnan in *. cbn [andb negb np_log] in *.
  destruct (Hlog m e Hx) as [Hf Hv].
  destruct (log_core m e) as [s'| | |s' m' e']; try done.
  by rewrite mul_neg_one_finite in * by done.
Qed.

End guards.

End B64_facts.

(** ** The critical-depth calculation, cell by cell *)

Section calc_facts.
Context {F : Type} `{Arith F}.
Variable cfg : config F.

Ltac inv_bind H :=
  let x := fresh "v" in
  let Hx := fresh "E" in
  apply result_bind_Ok in H as (x & Hx & H).

(** The land mask at a cell. *)
Lemma apply_landmask_Ok (landmask : ndarray Z) (a z : ndarray F) :
  apply_landmask landmask a = Ok z →
  shape landmask = shape a ∧ shape z = shape a ∧
  ∀ i j, cell z i j =
    cell landmask i j ≫= λ c, cell a i j ≫= λ x,
    Some (if negb (c =? SEA)%Z then f_nan else x).
Proof.
  unfold apply_landmask. intros Hz.
  apply setitem_mask_Ok in Hz as (Hs & Hsz & Hc).
  rewrite shape_amap in Hs. repeat split; try done.
  intros i j. rewrite Hc, cell_amap.
  destruct (cell landmask i j); reflexivity.
Qed.

Lemma calculate_z_thresh_Ok (fm : ndarray F) (kd : gmap string (ndarray F))
    (lm : ndarray Z) (z : ndarray F) :
  calculate_z_thresh cfg fm kd lm = Ok z →
  ∃ kb kg kr,
    kd !! "kd_blue"%string = Some kb ∧ kd !! "kd_green"%string = Some kg ∧
    kd !! "kd_red"%string = Some kr ∧
    shape kb = shape fm ∧ shape kg = shape fm ∧ shape kr = shape fm ∧
    shape lm = shape fm ∧ shape z = shape fm ∧
    ∀ i j, cell z i j =
      cell fm i j ≫= λ b, cell kb i j ≫= λ vb, cell kg i j ≫= λ vg,
      cell kr i j ≫= λ vr, cell lm i j ≫= λ c,
      Some (z_thresh_cell cfg b vb vg vr c).
Proof.
  unfold calculate_z_thresh. intros Hz.
  do 17 inv_bind Hz. unfold np_logical_and in *.
  apply apply_landmask_Ok in Hz as (? & ? & ?).
  repeat match goal with
  | E : amap2 _ _ _ = Ok _ |- _ => apply amap2_Ok in E as (? & ? & ?)
  | E : np_where _ _ _ = Ok _ |- _ => apply np_where_Ok in E as (? & ? & ? & ?)
  | E : dict_get _ _ = Ok _ |- _ => apply dict_get_Ok in E
  end.
  rewrite ?shape_amap, ?shape_full_like in *.
  eexists _, _, _. repeat (split; [eassumption || congruence|]).
  intros i j.
  repeat first
    [ rewrite cell_amap | rewrite cell_full_like
    | match goal with Hc : ∀ i j, cell _ i j = _ |- _ => rewrite Hc end ].
  destruct (cell fm i j) as [b|], (cell v4 i j) as [vb|],
    (cell v6 i j) as [vg|], (cell v9 i j) as [vr|],
    (cell lm i j) as [c|]; reflexivity.
Qed.

Lemma amap2_total {A B C} (f : A → B → C) (a : ndarray A) (b : ndarray B) :
  shape a = shape b → ∃ c, amap2 f a b = Ok c ∧ shape c = shape a.
Proof.
  intros Hs. eexists. split; [by apply amap2_same_shape|].
  by apply shape_zip_with.
Qed.

Lemma np_where_total {A} (c : ndarray bool) (x y : ndarray A) :
  shape x = shape c → shape y = shape c →
  ∃ z, np_where c x y = Ok z ∧ shape z = shape c.
Proof.
  intros Hx Hy. destruct (np_where_same_shape c x y Hx Hy) as [z Hz].
  exists z. split; [done|]. by apply np_where_Ok in Hz as (_ & _ & ? & _).
Qed.

Ltac shape_solve :=
  rewrite ?shape_amap, ?shape_full_like in *; congruence.

(** On operands of one shape, with the three channels present, the
    calculation returns. *)
Lemma calculate_z_thresh_total (fm kb kg kr : ndarray F)
    (kd : gmap string (ndarray F)) (lm : ndarray Z) :
  kd !! "kd_blue"%string = Some kb → kd !! "kd_green"%string = Some kg →
  kd !! "kd_red"%string = Some kr →
  shape kb = shape fm → shape kg = shape fm → shape kr = shape fm →
  shape lm = shape fm →
  ∃ z, calculate_z_thresh cfg fm kd lm = Ok z.
Proof.
  intros Eb Eg Er Hb Hg Hr Hl.
  unfold calculate_z_thresh, np_logical_and, dict_get, apply_landmask.
  rewrite Eb, Eg, Er.
  repeat match goal with
  | |- context [amap2 ?f ?a ?b] =>
      destruct (amap2_total f a b) as (? & -> & ?); [shape_solve | simpl]
  | |- context [np_where ?c ?x ?y] =>
      destruct (np_where_total c x y) as (? & -> & ?);
      [shape_solve | shape_solve | simpl]
  end.
  unfold setitem_mask. rewrite decide_True by shape_solve. eauto.
Qed.

End calc_facts.

(** ** The local arrays of the calculation *)

Section locals_facts.
Context {F : Type} `{Arith F}.
Variable cfg : config F.

(** The function with its locals returns what [calculate_z_thresh]
    returns. *)
Lemma calculate_z_thresh_locals_result (fm : ndarray F)
    (kd : gmap string (ndarray F)) (lm : ndarray Z) :
  calculate_z_thresh cfg fm kd lm
  = calculate_z_thresh_locals cfg fm kd lm ≫= λ L, Ok (Locals.z_thresh L).
Proof.
  unfold calculate_z_thresh, calculate_z_thresh_locals.
  repeat match goal with
  | |- mbind _ ?m = _ => destruct m; simpl; [|reflexivity]
  end.
  by destruct (apply_landmask _ _).
Qed.

Lemma calculate_z_thresh_locals_total (fm kb kg kr : ndarray F)
    (kd : gmap string (ndarray F)) (lm : ndarray Z) :
  kd !! "kd_blue"%string = Some kb → kd !! "kd_green"%string = Some kg →
  kd !! "kd_red"%string = Some kr →
  shape kb = shape fm → shape kg = shape fm → shape kr = shape fm →
  shape lm = shape fm →
  ∃ L, calculate_z_thresh_locals cfg fm kd lm = Ok L ∧
       calculate_z_thresh cfg fm kd lm = Ok (Locals.z_thresh L).
Proof.
  intros Eb Eg Er Hb Hg Hr Hl.
  destruct (calculate_z_thresh_total cfg fm kb kg kr kd lm) as [z Hz];
    try done.
  rewrite calculate_z_thresh_locals_result in Hz.
  destruct (calculate_z_thresh_locals cfg fm kd lm) as [L|e] eqn:EL;
    [|discriminate].
  exists L. split; [done|].
  by rewrite calculate_z_thresh_locals_result, EL.
Qed.

(** Every local array has the shape of the brightness array, and its
    cell is the value of the cell computation. *)
Lemma calculate_z_thresh_locals_at (fm : ndarray F)
    (kd : gmap string (ndarray F)) (lm : ndarray Z) (L : Locals.t F)
    (i j : nat) (b : F) :
  calculate_z_thresh_locals cfg fm kd lm = Ok L →
  cell fm i j = Some b →
  ∃ kb kg kr vb vg vr c,
    kd !! "kd_blue"%string = Some kb ∧ kd !! "kd_green"%string = Some kg ∧
    kd !! "kd_red"%string = Some kr ∧
    cell kb i j = Some vb ∧ cell kg i j = Some vg ∧ cell kr i j = Some vr ∧
    cell lm i j = Some c ∧
    cell (Locals.sfce_irr_blue_uW_m2 L) i j = Some (sfce_irr_blue cfg b) ∧
    cell (Locals.sfce_irr_green_uW_m2 L) i j = Some (sfce_irr_green cfg b) ∧
    cell (Locals.sfce_irr_red_uW_m2 L) i j = Some (sfce_irr_red cfg b) ∧
    cell (Locals.sfce_irr_total_uW_m2 L) i j = Some (sfce_irr_total cfg b) ∧
    cell (Locals.R_blue L) i j = Some (R_blue cfg b) ∧
    cell (Locals.R_green L) i j = Some (R_green cfg b) ∧
    cell (Locals.R_red L) i j = Some (R_red cfg b) ∧
    cell (Locals.Kd_log_expression L) i j
      = Some (Kd_log_expression cfg b vb vg vr) ∧
    cell (Locals.Kd_total L) i j = Some (Kd_total cfg b vb vg vr) ∧
    cell (Locals.z_thresh L) i j = Some (z_thresh_cell cfg b vb vg vr c).
Proof.
  unfold calculate_z_thresh_locals. intros HL Hfm.
  do 18 (let x := fresh "v" in let Hx := fresh "E" in
         apply result_bind_Ok in HL as (x & Hx & HL)).
  injection HL as <-. cbn [Locals.sfce_irr_blue_uW_m2
    Locals.sfce_irr_green_uW_m2 Locals.sfce_irr_red_uW_m2
    Locals.sfce_irr_total_uW_m2 Locals.R_blue Locals.R_green Locals.R_red
    Locals.Kd_log_expression Locals.Kd_total Locals.z_thresh].
  unfold np_logical_and in *.
  repeat match goal with
  | E : apply_landmask _ _ = Ok _ |- _ =>
      apply apply_landmask_Ok in E as (? & ? & ?)
  | E : amap2 _ _ _ = Ok _ |- _ => apply amap2_Ok in E as (? & ? & ?)
  | E : np_where _ _ _ = Ok _ |- _ => apply np_where_Ok in E as (? & ? & ? & ?)
  | E : dict_get _ _ = Ok _ |- _ => apply dict_get_Ok in E
  end.
  rewrite ?shape_amap, ?shape_full_like in *.
  match goal with
  | Eb : kd !! "kd_blue"%string = Some ?kb,
    Eg : kd !! "kd_green"%string = Some ?kg,
    Er : kd !! "kd_red"%string = Some ?kr |- _ =>
      assert (is_Some (cell kb i j)) as [vb Hkb]
        by (eapply (cell_is_Some_shape fm); [congruence|eauto]);
      assert (is_Some (cell kg i j)) as [vg Hkg]
        by (eapply (cell_is_Some_shape fm); [congruence|eauto]);
      assert (is_Some (cell kr i j)) as [vr Hkr]
        by (eapply (cell_is_Some_shape fm); [congruence|eauto]);
      assert (is_Some (cell lm i j)) as [c Hlm]
        by (eapply (cell_is_Some_shape fm); [congruence|eauto]);
      exists kb, kg, kr, vb, vg, vr, c
  end.
  repeat (split; [assumption|]).
  repeat first
    [ rewrite cell_amap | rewrite cell_full_like
    | match goal with Hc : ∀ i j, cell _ i j = _ |- _ => rewrite Hc end ].
  rewrite Hfm, Hkb, Hkg, Hkr, Hlm. simpl.
  repeat split; reflexivity.
Qed.

End locals_facts.

(** ** The loaders and the masks *)

Section zip_diag.
Context {A B C : Type} (h : A → B → C) (g : A → B).

Lemma zip_with_fmap_diag (row : list A) :
  zip_with h row (g <$> row) = (λ v, h v (g v)) <$> row.
Proof. by rewrite zip_with_fmap_r, zip_with_diag. Qed.

Lemma zip_with_amap_diag (a : ndarray A) :
  zip_with (zip_with h) a (amap g a) = amap (λ v, h v (g v)) a.
Proof.
  unfold amap. rewrite zip_with_fmap_r, zip_with_diag.
  apply list_fmap_ext. intros _ row _. apply zip_with_fmap_diag.
Qed.

Lemma zip_with_amap_diag3 (t : list (ndarray A)) :
  zip_with (zip_with (zip_with h)) t (amap g <$> t)
  = amap (λ v, h v (g v)) <$> t.
Proof.
  rewrite zip_with_fmap_r, zip_with_diag.
  apply list_fmap_ext. intros _ a _. apply zip_with_amap_diag.
Qed.

End zip_diag.


Section masks.
Context {F : Type} `{Arith F}.
Variable cfg : config F.

(** [mask_falchi] always returns, and each cell is that of [mask_low]. *)
Lemma mask_falchi_cells (a : ndarray F) :
  ∃ z, mask_falchi cfg a = Ok z ∧ shape z = shape a ∧
    ∀ i j, cell z i j = mask_low cfg <$> cell a i j.
Proof.
  unfold mask_falchi.
  set (c := amap (λ b, f_leb b (FALCHI_MASK_THRESHOLD cfg)) a).
  destruct (np_where_total c (full_like a f_nan) a) as (z & Hz & Hs).
  - unfold c. by rewrite shape_full_like, shape_amap.
  - unfold c. by rewrite shape_amap.
  - exists z. split; [exact Hz|].
    unfold c in *. rewrite shape_amap in Hs. split; [done|].
    apply np_where_Ok in Hz as (_ & _ & _ & Hc).
    intros i j. rewrite Hc, cell_amap, cell_full_like.
    destruct (cell a i j); reflexivity.
Qed.

(** C8. The attenuation loader replaces every cell of the selected region
    that equals the fill value by NaN and leaves every other cell as it
    is, in each variable; the coordinates are those of the selection. *)
Theorem get_kd_data_scrubs_fill (roi : ROI)
    (sel : Dataset F → Z * Z → Z * Z → Dataset F) (kd_data : Dataset F) :
  let kd_roi := sel kd_data (max_lat roi + 1, min_lat roi - 1)
                            (min_lon roi - 1, max_lon roi + 1) in
  ds_vars (get_kd_data cfg roi sel kd_data)
    = fmap (M:=list) (amap (scrub_fill cfg)) <$> ds_vars kd_roi
  ∧ ds_lat (get_kd_data cfg roi sel kd_data) = ds_lat kd_roi
  ∧ ds_lon (get_kd_data cfg roi sel kd_data) = ds_lon kd_roi
  ∧ ∀ x, scrub_fill cfg x = if f_eqb x (KD_FILLVAL cfg) then f_nan else x.
Proof.
  cbv zeta. unfold get_kd_data. cbn [ds_vars ds_lat ds_lon].
  repeat split.
  - unfold ds_where, ds_ne.
    rewrite map_zip_with_fmap_2, map_zip_with_diag.
    apply map_fmap_ext. intros name t _.
    rewrite zip_with_amap_diag3. reflexivity.
  - intros x. unfold scrub_fill. by destruct (f_eqb x (KD_FILLVAL cfg)).
Qed.

End masks.

(** C4. For a finite brightness [b] and the mask threshold [t], the
    low-brightness mask returns NaN exactly where [b <= t], equality
    included, and [b] itself where [b > t]; it returns on every array, with
    the shape of its argument, and does nothing else to a cell. *)
Theorem mask_falchi_spec `{B64.Libm} (cfg : config B64.float)
    (a : ndarray B64.float) :
  ∃ z, mask_falchi cfg a = Ok z ∧ shape z = shape a ∧
    ∀ i j b, cell a i j = Some b → B64.isfinite b = true →
      (cell z i j = Some B64.nan ↔ SFleb b (FALCHI_MASK_THRESHOLD cfg) = true)
      ∧ (SFltb (FALCHI_MASK_THRESHOLD cfg) b = true → cell z i j = Some b)
      ∧ (cell z i j = Some B64.nan ∨ cell z i j = Some b).
Proof.
  destruct (mask_falchi_cells cfg a) as (z & Hz & Hs & Hc).
  exists z. split; [done|]. split; [done|].
  intros i j b Hb Hfin. rewrite Hc, Hb. unfold mask_low. simpl.
  destruct (SFleb b (FALCHI_MASK_THRESHOLD cfg)) eqn:Hle.
  - split; [done|]. split; [|by left].
    intros Hlt. apply B64_facts.SFltb_not_leb in Hlt. congruence.
  - split; [|by auto]. split; [|done].
    intros [= ->]. discriminate.
Qed.

Lemma mask_falchi_spec_witness :
  ∃ z, mask_falchi (H:=Ref.arith) Sample.cfg [[B64.one; Sample.two]] = Ok z
    ∧ cell z 0 0 = Some B64.nan ∧ cell z 0 1 = Some Sample.two.
Proof.
  destruct (@mask_falchi_spec Ref.libm Sample.cfg [[B64.one; Sample.two]])
    as (z & Hz & _ & Hc).
  exists z. split; [exact Hz|]. split.
  - apply (Hc 0%nat 0%nat B64.one eq_refl eq_refl). reflexivity.
  - apply (Hc 0%nat 1%nat Sample.two eq_refl eq_refl). reflexivity.
Defined.

(** ** The land mask *)

Lemma ndarray_eq {A} (a b : ndarray A) :
  shape a = shape b → (∀ i j, cell a i j = cell b i j) → a = b.
Proof.
  intros Hs Hc. apply list_eq. intros i.
  assert (length <$> a !! i = length <$> b !! i) as Hl.
  { rewrite <- !list_lookup_fmap. unfold shape in Hs. by rewrite Hs. }
  specialize (Hc i). unfold cell in Hc.
  destruct (a !! i) as [ra|], (b !! i) as [rb|]; simplify_eq/=; [|done].
  f_equal. apply list_eq. intros j. apply Hc.
Qed.

Section landmask.
Context {F : Type} `{Arith F}.
Variable cfg : config F.

(** Masking is idempotent: the mask leaves a masked array as it is. *)
Lemma apply_landmask_idempotent (lm : ndarray Z) (a z : ndarray F) :
  apply_landmask lm a = Ok z → apply_landmask lm z = Ok z.
Proof.
  intros Hz. apply apply_landmask_Ok in Hz as (Hs & Hsz & Hc).
  unfold apply_landmask, setitem_mask.
  rewrite decide_True by (rewrite shape_amap; congruence).
  f_equal. apply ndarray_eq.
  - rewrite shape_zip_with; rewrite shape_amap; congruence.
  - intros i j. rewrite cell_zip_with, cell_amap, !Hc.
    destruct (cell lm i j) as [c|]; simpl; [|done].
    destruct (cell a i j) as [x|]; simpl; [|done].
    by destruct (negb (c =? SEA)%Z).
Qed.

(** C3. In the output of the calculation, every cell whose land/sea code
    is not the sea code is NaN, whatever steps 1 to 5 computed there;
    every sea cell holds the value of steps 1 to 5; and applying the land
    mask to the output again returns the output. *)
Theorem landmask_overrides (fm : ndarray F) (kd : gmap string (ndarray F))
    (lm : ndarray Z) (z : ndarray F) :
  calculate_z_thresh cfg fm kd lm = Ok z →
  (∀ i j c, cell lm i j = Some c → c ≠ SEA → cell z i j = Some f_nan) ∧
  (∀ i j, cell lm i j = Some SEA →
     ∃ kb kg kr b vb vg vr,
       kd !! "kd_blue"%string = Some kb ∧ kd !! "kd_green"%string = Some kg ∧
       kd !! "kd_red"%string = Some kr ∧
       cell fm i j = Some b ∧ cell kb i j = Some vb ∧
       cell kg i j = Some vg ∧ cell kr i j = Some vr ∧
       cell z i j = Some (z_thresh_sea cfg b vb vg vr)) ∧
  apply_landmask lm z = Ok z.
Proof.
  intros Hz.
  assert (apply_landmask lm z = Ok z) as Hidem.
  { unfold calculate_z_thresh in Hz.
    do 17 (apply result_bind_Ok in Hz as (? & _ & Hz)).
    by eapply apply_landmask_idempotent. }
  apply calculate_z_thresh_Ok in Hz
    as (kb & kg & kr & Eb & Eg & Er & Hb & Hg & Hr & Hl & Hs & Hc).
  assert (∀ i j c, cell lm i j = Some c →
    ∃ b vb vg vr, cell fm i j = Some b ∧ cell kb i j = Some vb ∧
      cell kg i j = Some vg ∧ cell kr i j = Some vr) as Hcells.
  { intros i j c Hlm.
    assert (is_Some (cell fm i j)) as [b Hfm]
      by (eapply (cell_is_Some_shape lm); [done|eauto]).
    assert (is_Some (cell kb i j)) as [vb Hkb]
      by (eapply (cell_is_Some_shape fm); [done|eauto]).
    assert (is_Some (cell kg i j)) as [vg Hkg]
      by (eapply (cell_is_Some_shape fm); [done|eauto]).
    assert (is_Some (cell kr i j)) as [vr Hkr]
      by (eapply (cell_is_Some_shape fm); [done|eauto]).
    eauto 10. }
  split; [|split; [|exact Hidem]].
  - intros i j c Hlm Hland.
    destruct (Hcells i j c Hlm) as (b & vb & vg & vr & Hfm & Hkb & Hkg & Hkr).
    rewrite Hc, Hfm, Hkb, Hkg, Hkr, Hlm. simpl. unfold z_thresh_cell.
    apply Z.eqb_neq in Hland. by rewrite Hland.
  - intros i j Hlm.
    destruct (Hcells i j _ Hlm) as (b & vb & vg & vr & Hfm & Hkb & Hkg & Hkr).
    exists kb, kg, kr, b, vb, vg, vr. repeat (split; [done|]).
    rewrite Hc, Hfm, Hkb, Hkg, Hkr, Hlm. reflexivity.
Qed.

End landmask.

Lemma landmask_overrides_witness :
  ∃ z, calculate_z_thresh (H:=Ref.arith) Sample.cfg
         [[Sample.two; Sample.two]] (Sample.kd Sample.half) [[255; 0]]%Z
       = Ok z
    ∧ cell z 0 1 = Some B64.nan
    ∧ apply_landmask (H:=Ref.arith) [[255; 0]]%Z z = Ok z.
Proof.
  destruct (calculate_z_thresh (H:=Ref.arith) Sample.cfg
              [[Sample.two; Sample.two]] (Sample.kd Sample.half)
              [[255; 0]]%Z) as [z|e] eqn:Hz;
    [|vm_compute in Hz; discriminate].
  exists z.
  destruct (landmask_overrides (H:=Ref.arith) _ _ _ _ _ Hz)
    as (Hland & _ & Hid).
  split; [reflexivity|]. split; [|exact Hid].
  apply (Hland 0%nat 1%nat 0%Z); [reflexivity|discriminate].
Defined.

(** ** NaN through the formula (binary64) *)

Section nan_propagation.
Import B64 B64_facts.
Context `{Libm}.
Variable cfg : config float.

(** With a zero total, each weight is an infinity or NaN. *)
Lemma weights_at_zero_total (b : float) :
  SFeqb (sfce_irr_total cfg b) zero = true →
  isfinite (R_blue cfg b) = false ∧ isfinite (R_green cfg b) = false ∧
  isfinite (R_red cfg b) = false.
Proof.
  intros Hz. apply eqb_zero in Hz as [s Hz].
  unfold R_blue, R_green, R_red. rewrite Hz.
  cbn [f_div arith]. auto using div_zero_not_finite.
Qed.

Lemma Kd_log_expression_at_zero_total (b kb kg kr : float) :
  SFeqb (sfce_irr_total cfg b) zero = true →
  isfinite (Kd_log_expression cfg b kb kg kr) = false.
Proof.
  intros Hz. destruct (weights_at_zero_total b Hz) as (Hb & _ & _).
  unfold Kd_log_expression. cbn [f_add f_mul arith].
  by apply add_not_finite_l, add_not_finite_l, mul_not_finite_l.
Qed.

Lemma z_thresh_sea_Kd_nan (b kb kg kr : float) :
  Kd_total cfg b kb kg kr = nan → z_thresh_sea cfg b kb kg kr = nan.
Proof.
  intros Hk. unfold z_thresh_sea. rewrite Hk.
  cbn [f_mul f_div f_neg_one arith]. reflexivity.
Qed.

Lemma z_thresh_cell_Kd_nan (b kb kg kr : float) c :
  Kd_total cfg b kb kg kr = nan → z_thresh_cell cfg b kb kg kr c = nan.
Proof.
  intros Hk. unfold z_thresh_cell. rewrite z_thresh_sea_Kd_nan by done.
  by destruct (negb _).
Qed.

(** The output at a cell of arrays of one shape. *)
Lemma calculate_z_thresh_at (fm kb kg kr : ndarray float)
    (kd : gmap string (ndarray float)) (lm : ndarray Z) z i j b vb vg vr :
  kd !! "kd_blue"%string = Some kb → kd !! "kd_green"%string = Some kg →
  kd !! "kd_red"%string = Some kr →
  calculate_z_thresh cfg fm kd lm = Ok z →
  cell fm i j = Some b → cell kb i j = Some vb →
  cell kg i j = Some vg → cell kr i j = Some vr →
  ∃ c, cell lm i j = Some c ∧
       cell z i j = Some (z_thresh_cell cfg b vb vg vr c).
Proof.
  intros Eb Eg Er Hz Hfm Hkb Hkg Hkr.
  apply calculate_z_thresh_Ok in Hz
    as (kb' & kg' & kr' & Eb' & Eg' & Er' & _ & _ & _ & Hl & _ & Hc).
  simplify_eq.
  assert (is_Some (cell lm i j)) as [c Hlm]
    by (eapply (cell_is_Some_shape fm); [done|eauto]).
  exists c. split; [done|].
  by rewrite Hc, Hfm, Hkb, Hkg, Hkr, Hlm.
Qed.

(** The channel irradiances of a zero total are finite. *)
Lemma channels_at_zero_total (b : float) :
  SFeqb (sfce_irr_total cfg b) zero = true →
  isfinite (sfce_irr_blue cfg b) = true ∧
  isfinite (sfce_irr_green cfg b) = true ∧
  isfinite (sfce_irr_red cfg b) = true.
Proof.
  intros Hz. apply eqb_zero in Hz as [s Hz].
  assert (isfinite (sfce_irr_total cfg b) = true) as Hf by by rewrite Hz.
  unfold sfce_irr_total in Hf. cbn [f_add arith] in Hf.
  apply add_finite_inv in Hf as [Hbg Hr].
  apply add_finite_inv in Hbg as [Hb Hg]. done.
Qed.

(** C1, as the code has it. On arrays of one shape the calculation
    returns, whatever the cell values. At every cell where the array
    [sfce_irr_total_uW_m2] is zero, each of the arrays [R_blue], [R_green]
    and [R_red] holds NaN where the channel irradiance is zero too and an
    infinity where it is not, the array [Kd_log_expression] holds a value
    that is not finite, [Kd_total] holds NaN after the two guards, and
    the depth returned is NaN. *)
Theorem zero_irradiance_depth_is_nan (fm kb kg kr : ndarray float)
    (kd : gmap string (ndarray float)) (lm : ndarray Z) :
  kd !! "kd_blue"%string = Some kb → kd !! "kd_green"%string = Some kg →
  kd !! "kd_red"%string = Some kr →
  shape kb = shape fm → shape kg = shape fm → shape kr = shape fm →
  shape lm = shape fm →
  ∃ L, calculate_z_thresh_locals cfg fm kd lm = Ok L ∧
       calculate_z_thresh cfg fm kd lm = Ok (Locals.z_thresh L) ∧
    ∀ i j, is_Some (cell fm i j) →
      ∃ eb eg er e rb rg rr x,
        cell (Locals.sfce_irr_blue_uW_m2 L) i j = Some eb ∧
        cell (Locals.sfce_irr_green_uW_m2 L) i j = Some eg ∧
        cell (Locals.sfce_irr_red_uW_m2 L) i j = Some er ∧
        cell (Locals.sfce_irr_total_uW_m2 L) i j = Some e ∧
        cell (Locals.R_blue L) i j = Some rb ∧
        cell (Locals.R_green L) i j = Some rg ∧
        cell (Locals.R_red L) i j = Some rr ∧
        cell (Locals.Kd_log_expression L) i j = Some x ∧
        (SFeqb e zero = true →
           isnan rb = SFeqb eb zero ∧ isinf rb = negb (SFeqb eb zero) ∧
           isnan rg = SFeqb eg zero ∧ isinf rg = negb (SFeqb eg zero) ∧
           isnan rr = SFeqb er zero ∧ isinf rr = negb (SFeqb er zero) ∧
           isfinite x = false ∧
           cell (Locals.Kd_total L) i j = Some nan ∧
           cell (Locals.z_thresh L) i j = Some nan).
Proof.
  intros Eb Eg Er Hb Hg Hr Hl.
  destruct (calculate_z_thresh_locals_total cfg fm kb kg kr kd lm)
    as (L & HL & Hz); try done.
  exists L. split; [done|]. split; [done|].
  intros i j [b Hfm].
  destruct (calculate_z_thresh_locals_at cfg fm kd lm L i j b HL Hfm)
    as (kb' & kg' & kr' & vb & vg & vr & c & _ & _ & _ & _ & _ & _ & _
        & Heb & Heg & Her & He & Hrb & Hrg & Hrr & Hx & Hk & Hzc).
  eexists _, _, _, _, _, _, _, _.
  do 8 (split; [eassumption|]).
  intros Hzero.
  destruct (channels_at_zero_total b Hzero) as (Fb & Fg & Fr).
  pose proof (Kd_log_expression_at_zero_total b vb vg vr Hzero) as Hxf.
  pose proof (Kd_guards_not_finite _ Hxf) as Hknan.
  pose proof Hzero as [s Hs]%eqb_zero.
  unfold R_blue, R_green, R_red. rewrite Hs. cbn [f_div arith].
  destruct (div_zero_split _ s Fb) as [-> ->].
  destruct (div_zero_split _ s Fg) as [-> ->].
  destruct (div_zero_split _ s Fr) as [-> ->].
  do 6 (split; [reflexivity|]).
  split; [done|]. split.
  - rewrite Hk. f_equal. exact Hknan.
  - rewrite Hzc. f_equal. by apply z_thresh_cell_Kd_nan.
Qed.

End nan_propagation.

(** With blue [B], green [-B] and red [0], the total at brightness [1.0]
    is zero and the blue weight is [1.0 / 0.0], plus infinity: not NaN. *)
Lemma zero_irradiance_weight_is_infinite :
  SFeqb (sfce_irr_total (H:=Ref.arith) Sample.cfg_cancel B64.one) B64.zero
    = true
  ∧ R_blue (H:=Ref.arith) Sample.cfg_cancel B64.one = B64.pinf
  ∧ B64.isnan (R_blue (H:=Ref.arith) Sample.cfg_cancel B64.one) = false.
Proof. repeat split; vm_compute; reflexivity. Qed.

Lemma zero_irradiance_depth_is_nan_witness :
  ∃ L, calculate_z_thresh_locals (H:=Ref.arith) Sample.cfg_cancel
         [[B64.one; Sample.two]] (Sample.kd Sample.half) [[255; 255]]%Z
       = Ok L
    ∧ cell (Locals.R_blue L) 0 0 = Some B64.pinf
    ∧ cell (Locals.R_red L) 0 0 = Some B64.nan
    ∧ cell (Locals.Kd_total L) 0 0 = Some B64.nan
    ∧ cell (Locals.z_thresh L) 0 0 = Some B64.nan.
Proof.
  destruct (@zero_irradiance_depth_is_nan Ref.libm Sample.cfg_cancel
              [[B64.one; Sample.two]] [[Sample.half; Sample.half]]
              [[Sample.half; Sample.half]] [[Sample.half; Sample.half]]
              (Sample.kd Sample.half) [[255; 255]]%Z)
    as (L & HL & _ & Hc); try reflexivity.
  exists L. split; [exact HL|].
  destruct (Hc 0%nat 0%nat) as (eb & eg & er & e & rb & rg & rr & x
    & Heb & Heg & Her & He & Hrb & Hrg & Hrr & Hx & Hzero);
    [by eexists|].
  destruct (calculate_z_thresh_locals_at (H:=Ref.arith) Sample.cfg_cancel
              _ _ _ L 0 0 B64.one HL eq_refl)
    as (? & ? & ? & ? & ? & ? & ? & _ & _ & _ & _ & _ & _ & _
        & Heb' & _ & Her' & He' & Hrb' & _ & Hrr' & _).
  destruct Hzero as (_ & _ & _ & _ & _ & _ & _ & Hk & Hz).
  { rewrite He' in He. injection He as <-. vm_compute. reflexivity. }
  split; [rewrite Hrb'; vm_compute; reflexivity|].
  split; [rewrite Hrr'; vm_compute; reflexivity|].
  split; [exact Hk|exact Hz].
Defined.

(** ** The two guards on the effective coefficient (binary64) *)

Section guards_on_grid.
Import B64 B64_facts.
Context `{Libm}.
Variable cfg : config float.

(** C2. On arrays of one shape the calculation returns: the logarithm
    and the division raise nothing. At every cell where the argument of
    the logarithm is at most zero, NaN or infinite, the effective
    coefficient is NaN; a coefficient that comes out of the first guard at
    most zero is NaN after the second; and the depth divides by that
    guarded coefficient. *)
Theorem log_argument_guards (fm kb kg kr : ndarray float)
    (kd : gmap string (ndarray float)) (lm : ndarray Z) :
  kd !! "kd_blue"%string = Some kb → kd !! "kd_green"%string = Some kg →
  kd !! "kd_red"%string = Some kr →
  shape kb = shape fm → shape kg = shape fm → shape kr = shape fm →
  shape lm = shape fm →
  ∃ z, calculate_z_thresh cfg fm kd lm = Ok z ∧
    ∀ i j b vb vg vr,
      cell fm i j = Some b → cell kb i j = Some vb →
      cell kg i j = Some vg → cell kr i j = Some vr →
      let x := Kd_log_expression cfg b vb vg vr in
      let k := Kd_total cfg b vb vg vr in
      (SFleb x zero = true ∨ isnan x = true ∨ isinf x = true → k = nan) ∧
      (SFleb (Kd_guard x) zero = true → k = nan) ∧
      ∃ c, cell lm i j = Some c ∧
        cell z i j = Some
          (if negb (c =? SEA)%Z then nan
           else mul (div neg_one k)
                    (np_log (div (THRESH_IRR_TOTAL_UW_M2 cfg)
                                 (sfce_irr_total cfg b)))).
Proof.
  intros Eb Eg Er Hb Hg Hr Hl.
  destruct (calculate_z_thresh_total cfg fm kb kg kr kd lm) as [z Hz];
    try done.
  exists z. split; [done|].
  intros i j b vb vg vr Hfm Hkb Hkg Hkr x k. split; [|split].
  - unfold k, Kd_total. fold x. intros [Hle|[Hnan|Hinf]].
    + by rewrite Kd_guard_nonpos.
    + apply Kd_guards_not_finite. by destruct x.
    + apply Kd_guards_not_finite. by destruct x.
  - unfold k, Kd_total. fold x. apply Kd_clamp_nonpos.
  - destruct (calculate_z_thresh_at cfg fm kb kg kr kd lm z i j b vb vg vr)
      as (c & Hlm & Hc); try done.
    exists c. split; [done|]. exact Hc.
Qed.

(** C10. After the two guards every cell of the array [Kd_total] is NaN
    or strictly positive, so the quotient [-1.0 / Kd_total] has no zero
    and no negative divisor; the depth returned at a sea cell is that
    quotient times the logarithm, and it is NaN where [Kd_total] is NaN.
    On binary64 inputs, with a C library whose [exp] returns binary64
    numbers and whose [log] is finite on the positive finite ones, every
    cell of [Kd_total] that is not NaN is finite. *)
Theorem Kd_total_positive_finite_or_nan (fm kb kg kr : ndarray float)
    (kd : gmap string (ndarray float)) (lm : ndarray Z) :
  kd !! "kd_blue"%string = Some kb → kd !! "kd_green"%string = Some kg →
  kd !! "kd_red"%string = Some kr →
  shape kb = shape fm → shape kg = shape fm → shape kr = shape fm →
  shape lm = shape fm →
  ∃ L, calculate_z_thresh_locals cfg fm kd lm = Ok L ∧
       calculate_z_thresh cfg fm kd lm = Ok (Locals.z_thresh L) ∧
    ∀ i j, is_Some (cell fm i j) →
      ∃ k e c,
        cell (Locals.Kd_total L) i j = Some k ∧
        cell (Locals.sfce_irr_total_uW_m2 L) i j = Some e ∧
        cell lm i j = Some c ∧
        (k = nan ∨ SFltb zero k = true) ∧
        (log_finite → exp_valid → valid_config cfg →
         valid_array fm → valid_array kb → valid_array kg → valid_array kr →
         k = nan ∨ isfinite k = true) ∧
        cell (Locals.z_thresh L) i j = Some
          (if negb (c =? SEA)%Z then nan
           else mul (div neg_one k)
                    (np_log (div (THRESH_IRR_TOTAL_UW_M2 cfg) e))) ∧
        (k = nan → cell (Locals.z_thresh L) i j = Some nan).
Proof.
  intros Eb Eg Er Hb Hg Hr Hl.
  destruct (calculate_z_thresh_locals_total cfg fm kb kg kr kd lm)
    as (L & HL & Hz); try done.
  exists L. split; [done|]. split; [done|].
  intros i j [b Hfm].
  destruct (calculate_z_thresh_locals_at cfg fm kd lm L i j b HL Hfm)
    as (kb' & kg' & kr' & vb & vg & vr & c & Eb' & Eg' & Er'
        & Hkb & Hkg & Hkr & Hlm & _ & _ & _ & He & _ & _ & _ & _ & Hk & Hzc).
  simplify_eq.
  exists (Kd_total cfg b vb vg vr), (sfce_irr_total cfg b), c.
  do 3 (split; [done|]).
  set (x := Kd_log_expression cfg b vb vg vr).
  split; [|split; [|split]].
  - unfold Kd_total. fold x.
    destruct (Kd_clamp_cases (Kd_guard x)) as [E|[E Hpos]]; [by left|].
    right. by rewrite E.
  - intros Hlog Hexp Hcfg Hvfm Hvkb Hvkg Hvkr.
    assert (valid x = true) as Hx.
    { apply B64_valid.Kd_log_expression_valid; eauto. }
    destruct (Kd_guards_finite x Hlog Hx) as [E|[_ E]]; [by left|by right].
  - exact Hzc.
  - intros E. rewrite Hzc. f_equal. by apply z_thresh_cell_Kd_nan.
Qed.

End guards_on_grid.


(** The reference logarithm is finite on the positive finite numbers. *)
Lemma log_ref_table : Ref.log_ref_table_ok = true.
Proof. vm_compute. reflexivity. Qed.

Lemma Ref_log_finite : @B64.log_finite Ref.libm.
Proof.
  intros m e Hb. unfold B64.log_core, Ref.libm, Ref.log_ref.
  unfold bounded, canonical_mantissa, fexp, SpecFloat.emin in Hb.
  apply andb_true_iff in Hb as [Hc He].
  apply Z.eqb_eq in Hc. apply Z.leb_le in He.
  unfold B64.prec, B64.emax in *.
  set (n := (e + Z.pos (digits2_pos m) - 1)%Z).
  assert (-1074 ≤ n ≤ 1023)%Z as Hn by (unfold n; lia).
  pose proof log_ref_table as Ht. unfold Ref.log_ref_table_ok in Ht.
  rewrite List.forallb_forall in Ht.
  specialize (Ht (Z.to_nat (n + 1074))).
  rewrite Z2Nat.id in Ht by lia.
  replace (n + 1074 - 1074)%Z with n in Ht by lia.
  apply andb_true_iff. apply Ht.
  apply List.in_seq. lia.
Qed.

(** ** Stateful code: rules of the weakest precondition *)

Section wp_rules.
Context {S : Type}.
Implicit Types (σ : S) (E : exn → S → Prop).

Lemma wp_ret {A} (a : A) σ (Q : A → S → Prop) E :
  Q a σ → wp (mret a) σ Q E.
Proof. done. Qed.

Lemma wp_raise {A} e σ (Q : A → S → Prop) E : E e σ → wp (raise e) σ Q E.
Proof. done. Qed.

Lemma wp_bind {A B} (m : ST S A) (f : A → ST S B) σ (Q : B → S → Prop) E :
  wp m σ (λ a σ', wp (f a) σ' Q E) E → wp (m ≫= f) σ Q E.
Proof.
  unfold wp, mbind, ST_bind. by destruct (m σ) as [[a|e] σ'].
Qed.

Lemma wp_lift_result {A} (r : result A) σ (Q : A → S → Prop) E :
  (∀ a, r = Ok a → Q a σ) → (∀ e, r = Raise e → E e σ) →
  wp (lift_result r) σ Q E.
Proof. unfold wp, lift_result. destruct r; auto. Qed.

Lemma wp_lift_result_known {A} (r : result A) a σ (Q : A → S → Prop) E :
  r = Ok a → Q a σ → wp (lift_result r) σ Q E.
Proof. intros -> HQ. exact HQ. Qed.

Lemma wp_mono {A} (m : ST S A) σ (Q Q' : A → S → Prop) E E' :
  wp m σ Q E → (∀ a σ', Q a σ' → Q' a σ') → (∀ e σ', E e σ' → E' e σ') →
  wp m σ Q' E'.
Proof. unfold wp. destruct (m σ) as [[a|e] σ']; auto. Qed.

Lemma wp_run {A} (m : ST S A) σ (Q : A → S → Prop) E :
  wp m σ Q E →
  match (m σ).1 with Ok a => Q a (m σ).2 | Raise e => E e (m σ).2 end.
Proof. unfold wp. by destruct (m σ) as [[a|e] σ']. Qed.

End wp_rules.

Section store_rules.
Context {F : Type}.
Implicit Types (σ : store F) (E : exn → store F → Prop).

Lemma wp_alloc (o : obj F) σ (Q : positive → store F → Prop) E :
  (∀ l, σ !! l = None → Q l (<[l:=o]> σ)) → wp (alloc o) σ Q E.
Proof.
  intros HQ. unfold wp, alloc. apply HQ.
  apply not_elem_of_dom, is_fresh.
Qed.

Lemma wp_put_obj l (o : obj F) σ (Q : unit → store F → Prop) E :
  Q tt (<[l:=o]> σ) → wp (put_obj l o) σ Q E.
Proof. done. Qed.

Lemma wp_get_ndarray l σ (Q : ndarray F → store F → Prop) E :
  (∀ a, σ !! l = Some (ONdarray a) → Q a σ) → (∀ e, E e σ) →
  wp (get_ndarray l) σ Q E.
Proof.
  intros HQ HE. unfold wp, get_ndarray.
  destruct (σ !! l) as [[a|v|d lat lon]|]; auto.
Qed.

Lemma wp_get_vector l σ (Q : list F → store F → Prop) E :
  (∀ v, σ !! l = Some (OVector v) → Q v σ) → (∀ e, E e σ) →
  wp (get_vector l) σ Q E.
Proof.
  intros HQ HE. unfold wp, get_vector.
  destruct (σ !! l) as [[a|v|d lat lon]|]; auto.
Qed.

Lemma wp_get_DataArray l σ
    (Q : positive * positive * positive → store F → Prop) E :
  (∀ d lat lon, σ !! l = Some (ODataArray d lat lon) → Q (d, lat, lon) σ) →
  (∀ e, E e σ) → wp (get_DataArray l) σ Q E.
Proof.
  intros HQ HE. unfold wp, get_DataArray.
  destruct (σ !! l) as [[a|v|d lat lon]|]; auto.
Qed.

End store_rules.

(** One step of symbolic execution. *)
Ltac wp_step :=
  lazymatch goal with
  | |- wp (_ ≫= _) _ _ _ => apply wp_bind
  | |- wp (mret _) _ _ _ => apply wp_ret
  | |- wp (raise _) _ _ _ => apply wp_raise
  | |- wp (alloc _) _ _ _ =>
      let l := fresh "l" in let Hl := fresh "Hl" in
      apply wp_alloc; intros l Hl
  | |- wp (put_obj _ _) _ _ _ => apply wp_put_obj
  | |- wp (get_ndarray _) _ _ _ =>
      let a := fresh "a" in let Ha := fresh "Ha" in
      apply wp_get_ndarray; [intros a Ha|intros ?]
  | |- wp (get_vector _) _ _ _ =>
      let v := fresh "v" in let Hv := fresh "Hv" in
      apply wp_get_vector; [intros v Hv|intros ?]
  | |- wp (get_DataArray _) _ _ _ =>
      let d := fresh "d" in let lat := fresh "lat" in
      let lon := fresh "lon" in let Hd := fresh "Hd" in
      apply wp_get_DataArray; [intros d lat lon Hd|intros ?]
  | |- wp (lift_result _) _ _ _ =>
      let a := fresh "r" in let Ha := fresh "Hr" in
      apply wp_lift_result; [intros a Ha|intros ? ?]
  | |- wp (if decide _ then _ else _) _ _ _ => case_decide
  | |- wp (ndarray_T _) _ _ _ => unfold ndarray_T
  | |- wp (Grid2D_new _) _ _ _ => unfold Grid2D_new
  | |- wp (DataArray_copy _) _ _ _ => unfold DataArray_copy
  | |- wp (DataArray_set_data _ _) _ _ _ => unfold DataArray_set_data
  end.

(** A store that extends [σ0] by fresh objects, possibly rebound. *)
Ltac store_extends :=
  repeat match goal with
  | H : <[_:=_]> _ !! _ = None |- _ =>
      apply lookup_insert_None in H as [H ?]
  end;
  repeat (apply insert_subseteq_r; [assumption|]);
  reflexivity.

Section regrid_frame.
Context {F : Type}.
Variable pyi : Pyinterp F.

Lemma fill_and_regrid_frame (in_arr mx my : positive) (σ : store F) :
  wp (fill_and_regrid pyi in_arr mx my) σ
    (λ out σ', σ ⊆ σ' ∧ σ !! out = None ∧
               ∃ a, σ' !! out = Some (ONdarray a))
    (λ _ σ', σ ⊆ σ').
Proof.
  unfold fill_and_regrid.
  repeat (wp_step; try solve [store_extends]).
  repeat match goal with
  | H : <[_:=_]> _ !! _ = None |- _ =>
      apply lookup_insert_None in H as [H ?]
  end.
  split; [store_extends|]. split; [assumption|].
  eexists. apply lookup_insert_eq.
Qed.

(** C9. Whatever the store and the three references, and whether the call
    returns or raises, every object of the store before the call is in the
    store after it, unchanged: the source array, its coordinate vectors and
    the target meshes among them. The result is an array at a reference
    that did not exist before the call. *)
Theorem fill_and_regrid_preserves_store (in_arr mx my : positive)
    (σ : store F) :
  (∀ l o, σ !! l = Some o →
     (fill_and_regrid pyi in_arr mx my σ).2 !! l = Some o) ∧
  (∀ out, (fill_and_regrid pyi in_arr mx my σ).1 = Ok out →
     σ !! out = None ∧
     ∃ a, (fill_and_regrid pyi in_arr mx my σ).2 !! out = Some (ONdarray a)).
Proof.
  pose proof (wp_run _ _ _ _ (fill_and_regrid_frame in_arr mx my σ)) as Hrun.
  destruct (fill_and_regrid pyi in_arr mx my σ) as [[out|e] σ'];
    simpl in *.
  - destruct Hrun as (Hsub & Hnew & Harr).
    split; [intros l o Hl; by eapply lookup_weaken|].
    by intros ? [= <-].
  - split; [intros l o Hl; by eapply lookup_weaken|]. discriminate.
Qed.

End regrid_frame.

(** *** Execution along the path that returns *)

Section store_known.
Context {F : Type}.
Implicit Types (σ : store F) (E : exn → store F → Prop).

Lemma wp_get_ndarray_known l a σ (Q : ndarray F → store F → Prop) E :
  σ !! l = Some (ONdarray a) → Q a σ → wp (get_ndarray l) σ Q E.
Proof. intros Hl HQ. unfold wp, get_ndarray. by rewrite Hl. Qed.

Lemma wp_get_vector_known l v σ (Q : list F → store F → Prop) E :
  σ !! l = Some (OVector v) → Q v σ → wp (get_vector l) σ Q E.
Proof. intros Hl HQ. unfold wp, get_vector. by rewrite Hl. Qed.

Lemma wp_get_DataArray_known l d lat lon σ
    (Q : positive * positive * positive → store F → Prop) E :
  σ !! l = Some (ODataArray d lat lon) → Q (d, lat, lon) σ →
  wp (get_DataArray l) σ Q E.
Proof. intros Hl HQ. unfold wp, get_DataArray. by rewrite Hl. Qed.

End store_known.

(** A lookup in a store built by insertions at distinct references. *)
Ltac solve_lookup :=
  repeat first
    [ rewrite lookup_insert_eq
    | rewrite lookup_insert_ne by (assumption || congruence) ];
  first [eassumption | reflexivity].

Ltac wp_exec :=
  lazymatch goal with
  | |- wp (_ ≫= _) _ _ _ => apply wp_bind
  | |- wp (mret _) _ _ _ => apply wp_ret
  | |- wp (alloc _) _ _ _ =>
      let l := fresh "l" in let Hl := fresh "Hl" in
      apply wp_alloc; intros l Hl;
      repeat match goal with
      | H : <[_:=_]> _ !! _ = None |- _ =>
          apply lookup_insert_None in H as [H ?]
      end
  | |- wp (put_obj _ _) _ _ _ => apply wp_put_obj
  | |- wp (get_ndarray _) _ _ _ =>
      eapply wp_get_ndarray_known; [solve_lookup|]
  | |- wp (get_vector _) _ _ _ =>
      eapply wp_get_vector_known; [solve_lookup|]
  | |- wp (get_DataArray _) _ _ _ =>
      eapply wp_get_DataArray_known; [solve_lookup|]
  | |- wp (lift_result _) _ _ _ =>
      eapply wp_lift_result_known; [eassumption|]
  | |- wp (if decide ?P then _ else _) _ _ _ =>
      rewrite (decide_True (P:=P)) by congruence
  | |- wp (ndarray_T _) _ _ _ => unfold ndarray_T
  | |- wp (Grid2D_new _) _ _ _ => unfold Grid2D_new
  | |- wp (DataArray_copy _) _ _ _ => unfold DataArray_copy
  | |- wp (DataArray_set_data _ _) _ _ _ => unfold DataArray_set_data
  end.

Lemma length_ravel {A} (a : ndarray A) : length (ravel a) = sum_list (shape a).
Proof.
  unfold ravel, shape. induction a as [|row a IH]; [done|].
  rewrite fmap_cons. simpl. by rewrite length_app, IH.
Qed.

Lemma cell_in_ravel {A} (a : ndarray A) i j v :
  cell a i j = Some v → v ∈ ravel a.
Proof.
  unfold cell, ravel. intros Hc.
  destruct (a !! i) as [row|] eqn:Hrow; simplify_eq/=.
  apply list_elem_of_lookup_2 in Hc.
  revert i Hrow. induction a as [|r a IH]; intros [|i] Hrow; simplify_eq/=.
  - apply elem_of_app. by left.
  - apply elem_of_app. right. by eapply IH.
Qed.

Lemma ravel_zip_with_cons {A} (row : list A) (t : ndarray A) v :
  v ∈ ravel (zip_with cons row t) → v ∈ row ∨ v ∈ ravel t.
Proof.
  unfold ravel. revert t. induction row as [|x row IH]; intros [|r t];
    simpl; try (intros Hv; by apply elem_of_nil in Hv).
  rewrite elem_of_cons, !elem_of_app. intros [->|[Hv|Hv]].
  - left. apply elem_of_cons. by left.
  - right. by left.
  - destruct (IH t Hv) as [?|?].
    + left. apply elem_of_cons. by right.
    + right. by right.
Qed.

(** The values of a transposed array are values of the array. *)
Lemma ravel_transpose {A} (a : ndarray A) v :
  v ∈ ravel (transpose a) → v ∈ ravel a.
Proof.
  induction a as [|row a IH]; [done|].
  destruct a as [|row' a].
  - unfold ravel. simpl. rewrite app_nil_r.
    induction row as [|x row IHr]; [done|].
    simpl. rewrite !elem_of_cons. intros [->|Hv]; auto.
  - change (transpose (row :: row' :: a))
      with (zip_with cons row (transpose (row' :: a))).
    intros Hv. apply ravel_zip_with_cons in Hv as [Hv|Hv].
    + unfold ravel. simpl. apply elem_of_app. by left.
    + unfold ravel. change (concat (row :: row' :: a))
        with (row ++ concat (row' :: a)).
      apply elem_of_app. right. by apply IH.
Qed.

(** The values of a reshaped vector are values of the vector. *)
Lemma ravel_reshape {A} (vs : list A) sh v :
  v ∈ ravel (reshape vs sh) → v ∈ vs.
Proof.
  unfold ravel. revert vs. induction sh as [|n sh IH]; intros vs; simpl.
  - intros Hv. by apply elem_of_nil in Hv.
  - rewrite elem_of_app. intros [Hv|Hv].
    + apply elem_of_take in Hv as (i & Hi & _).
      by eapply list_elem_of_lookup_2.
    + apply IH, list_elem_of_lookup_1 in Hv as [i Hi].
      rewrite lookup_drop in Hi. by eapply list_elem_of_lookup_2.
Qed.

Section regrid_overlap.
Context {F : Type} `{Arith F}.
Variable pyi : Pyinterp F.

Lemma fill_and_regrid_zero_overlap (in_arr mx my d lat lon : positive)
    (σ : store F) (a mxa mya filled : ndarray F) (xs ys : list F) :
  bounds_error_False pyi →
  σ !! in_arr = Some (ODataArray d lat lon) →
  σ !! d = Some (ONdarray a) →
  σ !! lat = Some (OVector ys) → σ !! lon = Some (OVector xs) →
  shape a = replicate (length ys) (length xs) →
  σ !! mx = Some (ONdarray mxa) → σ !! my = Some (ONdarray mya) →
  shape mya = shape mxa →
  fill_loess pyi (Build_Grid2D xs ys (transpose a)) 3 3 = Ok filled →
  shape (transpose filled) = shape a →
  (∀ i x y, ravel mxa !! i = Some x → ravel mya !! i = Some y →
     covers xs x && covers ys y = false) →
  wp (fill_and_regrid pyi in_arr mx my) σ
    (λ out σ', σ' !! out = Some (ONdarray (transpose
       (reshape (replicate (length (ravel mxa)) f_nan) (shape mxa)))))
    (λ _ _, False).
Proof.
  intros Hbe Hin Hd Hlat Hlon Ha Hmx Hmy Hsh Hfill Hfsh Hout.
  destruct (Hbe (Build_Grid2D xs ys (transpose (transpose filled)))
              (ravel mxa) (ravel mya)) as (vs & Hvs & Hlen & Hnan).
  { rewrite !length_ravel. by rewrite Hsh. }
  assert (vs = replicate (length (ravel mxa)) f_nan) as ->.
  { symmetry. apply replicate_as_Forall. split; [done|].
    apply Forall_lookup. intros i v Hv.
    destruct (lookup_lt_is_Some_2 (ravel mxa) i) as [x Hx].
    { rewrite <- Hlen. by eapply lookup_lt_Some. }
    destruct (lookup_lt_is_Some_2 (ravel mya) i) as [y Hy].
    { rewrite !length_ravel, Hsh, <- length_ravel, <- Hlen.
      by eapply lookup_lt_Some. }
    specialize (Hnan i x y Hx Hy (Hout i x y Hx Hy)). congruence. }
  assert (np_reshape (replicate (length (ravel mxa)) f_nan) (shape mxa)
          = Ok (reshape (replicate (length (ravel mxa)) f_nan) (shape mxa)))
    as Hreshape.
  { unfold np_reshape. rewrite decide_True; [done|].
    by rewrite length_replicate, length_ravel. }
  unfold fill_and_regrid.
  repeat wp_exec.
  apply lookup_insert_eq.
Qed.

(** C6, as the code has it. The function has no check of its own on what
    the interpolation returns and raises nothing of its own. With
    pyinterp's treatment of points outside the grid ([bounds_error] is
    left at [False]), a well-formed source none of whose coordinates
    covers any target point, and a gap fill that returns, the call
    returns: the result is a new array with the cells of the target mesh,
    transposed, each of them NaN. *)
Theorem regrid_zero_overlap_all_nan (in_arr mx my d lat lon : positive)
    (σ : store F) (a mxa mya filled : ndarray F) (xs ys : list F) :
  bounds_error_False pyi →
  σ !! in_arr = Some (ODataArray d lat lon) →
  σ !! d = Some (ONdarray a) →
  σ !! lat = Some (OVector ys) → σ !! lon = Some (OVector xs) →
  shape a = replicate (length ys) (length xs) →
  σ !! mx = Some (ONdarray mxa) → σ !! my = Some (ONdarray mya) →
  shape mya = shape mxa →
  fill_loess pyi (Build_Grid2D xs ys (transpose a)) 3 3 = Ok filled →
  shape (transpose filled) = shape a →
  (∀ i x y, ravel mxa !! i = Some x → ravel mya !! i = Some y →
     covers xs x && covers ys y = false) →
  ∃ out σ' g,
    fill_and_regrid pyi in_arr mx my σ = (Ok out, σ') ∧
    σ' !! out = Some (ONdarray g) ∧
    g = transpose
          (reshape (replicate (length (ravel mxa)) f_nan) (shape mxa)) ∧
    ∀ i j v, cell g i j = Some v → v = f_nan.
Proof.
  intros Hbe Hin Hd Hlat Hlon Ha Hmx Hmy Hsh Hfill Hfsh Hout.
  pose proof (fill_and_regrid_zero_overlap in_arr mx my d lat lon σ a mxa mya
    filled xs ys Hbe Hin Hd Hlat Hlon Ha Hmx Hmy Hsh Hfill Hfsh Hout) as Hwp.
  unfold wp in Hwp.
  destruct (fill_and_regrid pyi in_arr mx my σ) as [[out|e] σ']; [|done].
  eexists out, σ', _. split; [done|]. split; [exact Hwp|]. split; [done|].
  intros i j v Hv.
  apply cell_in_ravel, ravel_transpose, ravel_reshape in Hv.
  by apply elem_of_replicate in Hv as [-> _].
Qed.

End regrid_overlap.

(** The reference interpolator treats the points outside the grid as
    pyinterp documents it for [bounds_error=False]. *)
Lemma bracket_covers (axis : list B64.float) (v : B64.float) k r :
  Ref.bracket axis v k = Some r → covers (H:=Ref.arith) axis v = true.
Proof.
  unfold covers. cbn [f_leb Ref.arith B64.arith].
  revert k. induction axis as [|a0 axis IH]; intros k; [done|].
  destruct axis as [|a1 axis]; [done|].
  change (Ref.bracket (a0 :: a1 :: axis) v k) with
    (if (SFleb a0 v && SFleb v a1) || (SFleb a1 v && SFleb v a0)
     then Some (k, a0, a1) else Ref.bracket (a1 :: axis) v (S k)).
  destruct ((SFleb a0 v && SFleb v a1) || (SFleb a1 v && SFleb v a0))
    eqn:Hb.
  - intros _. apply orb_true_iff in Hb as [Hb|Hb];
      apply andb_true_iff in Hb as [H1 H2];
      cbn [existsb]; rewrite H1, H2; simpl;
      rewrite ?orb_true_r; reflexivity.
  - intros Hr. apply IH in Hr. apply andb_true_iff in Hr as [H1 H2].
    apply andb_true_iff. split.
    + change (existsb (λ a, SFleb a v) (a0 :: a1 :: axis))
        with (SFleb a0 v || existsb (λ a, SFleb a v) (a1 :: axis)).
      rewrite H1. apply orb_true_r.
    + change (existsb (λ a, SFleb v a) (a0 :: a1 :: axis))
        with (SFleb v a0 || existsb (λ a, SFleb v a) (a1 :: axis)).
      rewrite H2. apply orb_true_r.
Qed.

Lemma Ref_bounds_error_False : bounds_error_False (H:=Ref.arith) Ref.pyinterp.
Proof.
  intros g xs ys Hlen. cbn [bivariate Ref.pyinterp].
  unfold Ref.bivariate_ref. rewrite decide_True by done.
  eexists. split; [reflexivity|]. split.
  - rewrite length_zip_with. lia.
  - intros i x y Hx Hy Hout. rewrite lookup_zip_with, Hx, Hy. simpl.
    f_equal. unfold outside in Hout. unfold Ref.bilinear.
    destruct (Ref.bracket (g_x g) x 0) as [[[i' x0] x1]|] eqn:Ex; [|done].
    destruct (Ref.bracket (g_y g) y 0) as [[[j' y0] y1]|] eqn:Ey; [|done].
    apply bracket_covers in Ex, Ey. rewrite Ex, Ey in Hout. discriminate.
Qed.

(** ** The batch driver *)

Section loops.
Context {A : Type}.
Implicit Types (w : World) (body : A → ST World unit) (p : A → list string).

Lemma wp_logging_debug msg w (Q : unit → World → Prop) E :
  Q tt {| logged := logged w ++ [msg]; saved := saved w |} →
  wp (logging_debug msg) w Q E.
Proof. done. Qed.

Lemma wp_file_written path w (Q : unit → World → Prop) E :
  Q tt {| logged := logged w; saved := saved w ++ [path] |} →
  wp (file_written path) w Q E.
Proof. done. Qed.

(** A loop whose every iteration returns. *)
Lemma wp_for_each_ok body p xs w :
  (∀ x w, x ∈ xs →
     wp (body x) w (λ _ w', saved w' = saved w ++ p x) (λ _ _, False)) →
  wp (for_each body xs) w
    (λ _ w', saved w' = saved w ++ concat (p <$> xs)) (λ _ _, False).
Proof.
  revert w. induction xs as [|x xs IH]; intros w Hbody.
  - apply wp_ret. by rewrite app_nil_r.
  - simpl. apply wp_bind.
    eapply wp_mono; [apply Hbody; by left| |done].
    intros [] w1 Hw1. simpl.
    eapply wp_mono; [apply IH| |done].
    + intros y w2 Hy. apply Hbody. by right.
    + intros [] w2 Hw2. simpl in *. by rewrite Hw2, Hw1, <- app_assoc.
Qed.

(** A loop whose iteration on [x] raises, after iterations that return:
    the loop raises there, and the rest of the list is not visited. *)
Lemma wp_for_each_raise body p xs x ys q e w :
  (∀ y w, y ∈ xs →
     wp (body y) w (λ _ w', saved w' = saved w ++ p y) (λ _ _, False)) →
  (∀ w, wp (body x) w (λ _ _, False)
          (λ e' w', e' = e ∧ saved w' = saved w ++ q)) →
  wp (for_each body (xs ++ x :: ys)) w (λ _ _, False)
    (λ e' w', e' = e ∧ saved w' = saved w ++ concat (p <$> xs) ++ q).
Proof.
  revert w. induction xs as [|y xs IH]; intros w Hxs Hx.
  - simpl. apply wp_bind. eapply wp_mono; [apply Hx|done|done].
  - simpl. apply wp_bind.
    eapply wp_mono; [apply Hxs; by left| |done].
    intros [] w1 Hw1. simpl.
    eapply wp_mono; [apply IH| done |].
    + intros z w2 Hz. apply Hxs. by right.
    + done.
    + intros e' w2 [-> Hw2]. split; [done|].
      simpl in *. by rewrite Hw2, Hw1, <- !app_assoc.
Qed.

End loops.

Section driver_facts.
Variable tile : Type.
Variable ALANTile_new : string → ROI → string → result tile.
Variable to_netcdf : tile → string → result unit.


Lemma process_month_ok args region_name entry month w :
  assoc_get REGION_LOOKUP region_name = Ok entry →
  unit_ok ALANTile_new to_netcdf (output_dir args) region_name month →
  wp (process_month tile ALANTile_new to_netcdf args region_name
        entry.1 entry.2 month) w
    (λ _ w', saved w' = saved w ++ [unit_path (output_dir args) region_name month])
    (λ _ _, False).
Proof.
  intros Hentry (entry' & t & Hentry' & Hnew & Hsave).
  unfold unit_path in *. rewrite Hentry in *. injection Hentry' as <-.
  unfold process_month, save_z_thresh_to_nc.
  apply wp_bind, wp_logging_debug.
  apply wp_bind. rewrite Hnew. unfold wp, lift_result. simpl.
  rewrite Hsave. reflexivity.
Qed.

Lemma process_month_raises args region_name entry month e w :
  assoc_get REGION_LOOKUP region_name = Ok entry →
  unit_raises ALANTile_new region_name month e →
  wp (process_month tile ALANTile_new to_netcdf args region_name
        entry.1 entry.2 month) w
    (λ _ _, False) (λ e' w', e' = e ∧ saved w' = saved w ++ []).
Proof.
  intros Hentry (entry' & Hentry' & Hnew).
  rewrite Hentry in Hentry'. injection Hentry' as <-.
  unfold process_month.
  apply wp_bind, wp_logging_debug.
  apply wp_bind. rewrite Hnew. unfold wp, lift_result. simpl.
  by rewrite app_nil_r.
Qed.

Lemma concat_singletons {A B} (f : A → B) (l : list A) :
  concat ((λ x, [f x]) <$> l) = f <$> l.
Proof. induction l as [|x l IH]; [done|]. csimpl. by rewrite IH. Qed.

Lemma process_region_ok args region_name entry w :
  assoc_get REGION_LOOKUP region_name = Ok entry →
  (∀ month, month ∈ months args →
     unit_ok ALANTile_new to_netcdf (output_dir args) region_name month) →
  wp (process_region tile ALANTile_new to_netcdf args region_name) w
    (λ _ w', saved w' = saved w ++
       (unit_path (output_dir args) region_name <$> months args))
    (λ _ _, False).
Proof.
  intros Hentry Hok. unfold process_region.
  apply wp_bind, wp_logging_debug.
  apply wp_bind. eapply wp_lift_result_known; [exact Hentry|].
  rewrite <- concat_singletons.
  change (saved w) with
    (saved {| logged := logged w ++ ["Processing " +:+ region_name]%string;
              saved := saved w |}).
  apply wp_for_each_ok.
  intros month w1 Hmonth. by apply process_month_ok, Hok.
Qed.

Lemma process_region_raises args region_name ms1 month ms2 e w :
  months args = ms1 ++ month :: ms2 →
  (∀ month', month' ∈ ms1 → unit_ok ALANTile_new to_netcdf (output_dir args) region_name month') →
  unit_raises ALANTile_new region_name month e →
  wp (process_region tile ALANTile_new to_netcdf args region_name) w
    (λ _ _, False)
    (λ e' w', e' = e ∧ saved w' = saved w ++
       (unit_path (output_dir args) region_name <$> ms1)).
Proof.
  intros Hmonths Hok Hraise. pose proof Hraise as (entry & Hentry & _).
  unfold process_region.
  apply wp_bind, wp_logging_debug.
  apply wp_bind. eapply wp_lift_result_known; [exact Hentry|].
  rewrite Hmonths, <- concat_singletons.
  change (saved w) with
    (saved {| logged := logged w ++ ["Processing " +:+ region_name]%string;
              saved := saved w |}).
  eapply wp_mono;
    [apply (wp_for_each_raise _
              (λ m, [unit_path (output_dir args) region_name m])
              ms1 month ms2 [] e)
    |done|].
  - intros month' w1 Hmonth'. by apply process_month_ok, Hok.
  - intros w1. by apply process_month_raises.
  - intros e' w' [-> Hw']. split; [done|]. by rewrite Hw', app_nil_r.
Qed.

(** C7, as the code has it. The loops have no exception handler. When the
    tile of one unit fails, after units that went through, the run ends
    there with that exception: the files saved are those of the units
    before it, in loop order, and the months and regions after it are not
    processed, whatever they would have done. *)
Theorem failure_aborts_run (args : Args) (rs1 : list string) (r : string)
    (rs2 : list string) (ms1 : list string) (m : string) (ms2 : list string)
    (e : exn) (w : World) :
  regions args = rs1 ++ r :: rs2 →
  months args = ms1 ++ m :: ms2 →
  (∀ r' m', r' ∈ rs1 → m' ∈ months args → unit_ok ALANTile_new to_netcdf (output_dir args) r' m') →
  (∀ m', m' ∈ ms1 → unit_ok ALANTile_new to_netcdf (output_dir args) r m') →
  unit_raises ALANTile_new r m e →
  (main tile ALANTile_new to_netcdf args w).1 = Raise e ∧
  saved (main tile ALANTile_new to_netcdf args w).2 =
    saved w
    ++ concat ((λ r', unit_path (output_dir args) r' <$> months args) <$> rs1)
    ++ (unit_path (output_dir args) r <$> ms1).
Proof.
  intros Hregions Hmonths Hbefore Hsame Hraise.
  assert (wp (main tile ALANTile_new to_netcdf args) w (λ _ _, False)
    (λ e' w', e' = e ∧ saved w' = saved w
       ++ concat ((λ r', unit_path (output_dir args) r' <$> months args)
                    <$> rs1)
       ++ (unit_path (output_dir args) r <$> ms1))) as Hwp.
  { unfold main.
    apply wp_bind, wp_logging_debug. apply wp_bind, wp_logging_debug.
    rewrite Hregions.
    match goal with |- wp _ ?w1 _ _ => change (saved w) with (saved w1) end.
    apply wp_for_each_raise.
    - intros r' w1 Hr'.
      assert (m ∈ months args) as Hm
        by (rewrite Hmonths; apply elem_of_app; right; by left).
      destruct (Hbefore r' m Hr' Hm) as (entry & _ & Hentry & _).
      eapply process_region_ok; [exact Hentry|]. intros m' Hm'.
      by apply Hbefore.
    - intros w1. by eapply process_region_raises. }
  apply wp_run in Hwp.
  destruct (main tile ALANTile_new to_netcdf args w) as [[[]|e'] w'];
    simpl in *; [done|].
  destruct Hwp as [-> Hw']. done.
Qed.

End driver_facts.

(** With the attenuation file of month 01 missing, the run over the months
    01 and 02 ends with the exception of the first unit and saves nothing;
    the run over month 02 alone saves the two files of that month. *)
Lemma failure_stops_later_units :
  (main unit Sample.ALANTile_new Sample.to_netcdf
     (Sample.args ["01"; "02"]%string) Sample.world0).1
    = Raise (FileNotFoundError "kd_01.nc")
  ∧ saved (main unit Sample.ALANTile_new Sample.to_netcdf
             (Sample.args ["01"; "02"]%string) Sample.world0).2 = []
  ∧ main unit Sample.ALANTile_new Sample.to_netcdf
      (Sample.args ["02"]%string) Sample.world0
    = (Ok tt,
       {| logged :=
            ["Regions to be processed: ['NAfr', 'SAfr']";
             "Months to be processed: ['02']";
             "Processing NAfr"; "Processing month 02";
             "Saving results to out";
             "Processing SAfr"; "Processing month 02";
             "Saving results to out"]%string;
          saved :=
            ["out/In-water_clear-sky_ALAN_Zc_Month-02_0S_30N_-20W_20E_NAfr.nc";
             "out/In-water_clear-sky_ALAN_Zc_Month-02_-40S_0N_0W_70E_SAfr.nc"
            ]%string |}).
Proof. repeat split; vm_compute; reflexivity. Qed.

Lemma failure_aborts_run_witness :
  (main unit Sample.ALANTile_new Sample.to_netcdf
     (Sample.args ["02"; "01"; "03"]%string) Sample.world0).1
    = Raise (FileNotFoundError "kd_01.nc")
  ∧ saved (main unit Sample.ALANTile_new Sample.to_netcdf
             (Sample.args ["02"; "01"; "03"]%string) Sample.world0).2
    = ["out/In-water_clear-sky_ALAN_Zc_Month-02_0S_30N_-20W_20E_NAfr.nc"
      ]%string.
Proof.
  apply (failure_aborts_run unit Sample.ALANTile_new Sample.to_netcdf
           (Sample.args ["02"; "01"; "03"]%string)
           [] "NAfr"%string ["SAfr"%string]
           ["02"%string] "01"%string ["03"%string]
           (FileNotFoundError "kd_01.nc") Sample.world0).
  - reflexivity.
  - reflexivity.
  - intros r' m' Hr'. by apply elem_of_nil in Hr'.
  - intros m' Hm'. apply list_elem_of_singleton in Hm' as ->.
    eexists _, tt. repeat split; reflexivity.
  - eexists. split; reflexivity.
Defined.

(** The source covers longitudes and latitudes [0, 1]; the target point
    is [(10, 10)]. The call returns, and its result is the one-cell array
    holding NaN. *)
Lemma regrid_zero_overlap_returns :
  covers (H:=Ref.arith) [B64.zero; B64.one] Sample.ten = false
  ∧ (fill_and_regrid Ref.pyinterp 1 5 6 Sample.store_far).1 = Ok 14%positive
  ∧ (fill_and_regrid Ref.pyinterp 1 5 6 Sample.store_far).2 !! 14%positive
    = Some (ONdarray [[B64.nan]]).
Proof. repeat split; vm_compute; reflexivity. Qed.

Lemma regrid_zero_overlap_all_nan_witness :
  ∃ out σ',
    fill_and_regrid Ref.pyinterp 1 5 6 Sample.store_far = (Ok out, σ') ∧
    σ' !! out = Some (ONdarray [[B64.nan]]).
Proof.
  destruct (regrid_zero_overlap_all_nan (H:=Ref.arith) Ref.pyinterp
              1 5 6 2 3 4 Sample.store_far
              [[B64.one; B64.one]; [B64.one; Sample.two]]
              [[Sample.ten]] [[Sample.ten]]
              [[B64.one; B64.one]; [B64.one; Sample.two]]
              [B64.zero; B64.one] [B64.zero; B64.one])
    as (out & σ' & g & Hrun & Hout & -> & _);
    try reflexivity.
  - exact Ref_bounds_error_False.
  - intros [|i] x y Hx Hy; simplify_eq/=. reflexivity.
  - exists out, σ'. split; [exact Hrun|exact Hout].
Defined.

(** On the source with a gap, the call returns a new array and leaves the
    source as it was, gap included: the fill went to a copy. *)
Lemma fill_and_regrid_preserves_store_witness :
  (fill_and_regrid Ref.pyinterp 1 5 6 Sample.store_near).2 !! 2%positive
    = Some (ONdarray [[B64.one; B64.nan]; [B64.one; Sample.two]])
  ∧ Sample.store_near !! 14%positive = None.
Proof.
  destruct (fill_and_regrid_preserves_store Ref.pyinterp 1 5 6
              Sample.store_near) as [Hkeep Hnew].
  split.
  - apply Hkeep. reflexivity.
  - apply (Hnew 14%positive). vm_compute. reflexivity.
Defined.

(** At the cell of brightness [1.0] under the cancelling calibration the
    argument of the logarithm is NaN and so is the coefficient; at the
    cell of brightness [2.0] the depth divides by the guarded coefficient. *)
Lemma log_argument_guards_witness :
  ∃ z, calculate_z_thresh (H:=Ref.arith) Sample.cfg_cancel
         [[B64.one; Sample.two]] (Sample.kd Sample.half) [[255; 255]]%Z
       = Ok z
    ∧ Kd_total (H:=Ref.arith) Sample.cfg_cancel B64.one
        Sample.half Sample.half Sample.half = B64.nan.
Proof.
  destruct (@log_argument_guards Ref.libm Sample.cfg_cancel
              [[B64.one; Sample.two]] [[Sample.half; Sample.half]]
              [[Sample.half; Sample.half]] [[Sample.half; Sample.half]]
              (Sample.kd Sample.half) [[255; 255]]%Z)
    as (z & Hz & Hc); try reflexivity.
  exists z. split; [exact Hz|].
  destruct (Hc 0%nat 0%nat B64.one Sample.half Sample.half Sample.half)
    as (Hk & _ & _); [reflexivity..|].
  apply Hk. right. left. reflexivity.
Defined.

(** With unit slopes, brightness [2.0] and attenuation [0.5] on the three
    channels, the guarded coefficient is positive and finite. *)
(** The reference exponential returns binary64 numbers. *)
Lemma Ref_exp_valid : @exp_valid Ref.libm.
Proof.
  intros s m e _. unfold B64.exp_core, Ref.libm, Ref.exp_ref.
  generalize (Z.shiftl (cond_Zopp s (Z.pos m) * Ref.log2e_mantissa) (e - 52)).
  intros k. unfold Ref.pow2.
  destruct (1024 <=? k) eqn:E1; [done|].
  destruct (k <? -1074) eqn:E2; [done|].
  apply Z.leb_gt in E1. apply Z.ltb_ge in E2.
  unfold B64.valid, valid_binary, bounded, canonical_mantissa.
  destruct (-1022 <=? k) eqn:E3.
  - apply Z.leb_le in E3. apply andb_true_iff. split.
    + apply Z.eqb_eq. simpl digits2_pos.
      unfold fexp, SpecFloat.emin, B64.prec, B64.emax. lia.
    + apply Z.leb_le. unfold B64.prec, B64.emax. lia.
  - apply Z.leb_gt in E3. apply andb_true_iff. split; [|done].
    apply Z.eqb_eq. rewrite Z.shiftl_1_l.
    assert (0 < 2 ^ (k + 1074)) as Hpos by (apply Z.pow_pos_nonneg; lia).
    assert (Z.pos (digits2_pos (Z.to_pos (2 ^ (k + 1074)))) = k + 1075)
      as ->.
    { change (Z.pos (digits2_pos (Z.to_pos (2 ^ (k + 1074)))))
        with (Zdigits2 (Z.pos (Z.to_pos (2 ^ (k + 1074))))).
      rewrite Z2Pos.id by done.
      apply B64_valid.Zdigits2_unique; [done|].
      replace (k + 1075 - 1) with (k + 1074) by lia.
      split; [lia|]. apply Z.pow_lt_mono_r; lia. }
    unfold fexp, SpecFloat.emin, B64.prec, B64.emax. lia.
Qed.

Lemma valid_array_forallb (a : ndarray B64.float) :
  forallb (forallb B64.valid) a = true → valid_array a.
Proof.
  intros Ha i j x Hx. unfold cell in Hx.
  destruct (a !! i) as [row|] eqn:Hrow; [|done]. simpl in Hx.
  rewrite forallb_forall in Ha.
  apply list_elem_of_lookup_2, list_elem_of_In, Ha in Hrow.
  rewrite forallb_forall in Hrow.
  apply Hrow, list_elem_of_In. by eapply list_elem_of_lookup_2.
Qed.

Lemma Kd_total_positive_finite_or_nan_witness :
  ∃ L k, calculate_z_thresh_locals (H:=Ref.arith) Sample.cfg
           [[Sample.two; Sample.two]] (Sample.kd Sample.half) [[255; 0]]%Z
         = Ok L
    ∧ cell (Locals.Kd_total L) 0 0 = Some k
    ∧ SFltb B64.zero k = true ∧ B64.isfinite k = true.
Proof.
  destruct (@Kd_total_positive_finite_or_nan Ref.libm Sample.cfg
              [[Sample.two; Sample.two]] [[Sample.half; Sample.half]]
              [[Sample.half; Sample.half]] [[Sample.half; Sample.half]]
              (Sample.kd Sample.half) [[255; 0]]%Z)
    as (L & HL & _ & Hc); try reflexivity.
  destruct (Hc 0%nat 0%nat) as (k & e & c & Hk & _ & _ & Hpos & Hfin & _);
    [by eexists|].
  exists L, k. split; [exact HL|]. split; [exact Hk|].
  assert (B64.isnan k = false) as Hnn.
  { destruct (calculate_z_thresh_locals_at (H:=Ref.arith) Sample.cfg
                _ _ _ L 0 0 Sample.two HL eq_refl)
      as (kb' & kg' & kr' & vb & vg & vr & ? & Eb' & Eg' & Er'
          & Hvb & Hvg & Hvr & _
          & _ & _ & _ & _ & _ & _ & _ & _ & Hk' & _).
    rewrite Hk' in Hk. injection Hk as <-.
    change (Some [[Sample.half; Sample.half]] = Some kb') in Eb'.
    change (Some [[Sample.half; Sample.half]] = Some kg') in Eg'.
    change (Some [[Sample.half; Sample.half]] = Some kr') in Er'.
    injection Eb' as <-. injection Eg' as <-. injection Er' as <-.
    injection Hvb as <-. injection Hvg as <-. injection Hvr as <-.
    vm_compute. reflexivity. }
  split.
  - destruct Hpos as [->|Hp]; [discriminate|exact Hp].
  - destruct Hfin as [->|Hf]; [| | | | | | |discriminate|exact Hf].
    + exact Ref_log_finite.
    + exact Ref_exp_valid.
    + repeat split; reflexivity.
    + by apply valid_array_forallb.
    + by apply valid_array_forallb.
    + by apply valid_array_forallb.
    + by apply valid_array_forallb.
Defined.

(** In binary64 the identity of C5 is lost where [exp (-k)] underflows:
    with unit slopes, brightness [2.0] (a total of [6.0]) and attenuation
    [1000.0] on the three channels, the argument of the logarithm is zero
    and the first guard returns NaN. *)
Lemma degenerate_channels_underflow :
  SFltb B64.zero (sfce_irr_total (H:=Ref.arith) Sample.cfg Sample.two) = true
  ∧ B64.isfinite (sfce_irr_total (H:=Ref.arith) Sample.cfg Sample.two) = true
  ∧ SFltb B64.zero Sample.thousand = true
  ∧ B64.np_exp (H:=Ref.libm) (B64.mul B64.neg_one Sample.thousand) = B64.zero
  ∧ Kd_log_expression (H:=Ref.arith) Sample.cfg Sample.two
      Sample.thousand Sample.thousand Sample.thousand = B64.zero
  ∧ Kd_total (H:=Ref.arith) Sample.cfg Sample.two
      Sample.thousand Sample.thousand Sample.thousand = B64.nan.
Proof. repeat split; vm_compute; reflexivity. Qed.

(** * Further properties *)

(** ** Masks and loaders on binary64 *)

Section more_masks.
Import B64 B64_facts.
Context `{Libm}.
Variable cfg : config float.

Lemma mask_low_idempotent (b : float) :
  mask_low cfg (mask_low cfg b) = mask_low cfg b.
Proof.
  unfold mask_low. cbn [f_leb f_nan arith].
  destruct (SFleb b (FALCHI_MASK_THRESHOLD cfg)) eqn:E; [done|].
  by rewrite E.
Qed.

Lemma mask_low_above (b : float) :
  SFleb (mask_low cfg b) (FALCHI_MASK_THRESHOLD cfg) = false.
Proof.
  unfold mask_low. cbn [f_leb f_nan arith].
  by destruct (SFleb b (FALCHI_MASK_THRESHOLD cfg)) eqn:E.
Qed.

(** X1. Masking a masked brightness array returns it unchanged, and no
    cell of a masked array is at or below the threshold: each is NaN or
    above it (or the threshold itself is NaN). *)
Theorem mask_falchi_idempotent (a z : ndarray float) :
  mask_falchi cfg a = Ok z →
  mask_falchi cfg z = Ok z ∧
  ∀ i j v, cell z i j = Some v →
    SFleb v (FALCHI_MASK_THRESHOLD cfg) = false.
Proof.
  intros Hz.
  destruct (mask_falchi_cells cfg a) as (z1 & Hz1 & Hs1 & Hc1).
  rewrite Hz in Hz1. injection Hz1 as <-.
  split.
  - destruct (mask_falchi_cells cfg z) as (z2 & Hz2 & Hs2 & Hc2).
    rewrite Hz2. f_equal. apply ndarray_eq; [done|].
    intros i j. rewrite Hc2, Hc1.
    destruct (cell a i j) as [b|]; simpl; [|done].
    by rewrite mask_low_idempotent.
  - intros i j v Hv. rewrite Hc1 in Hv.
    destruct (cell a i j) as [b|]; simplify_eq/=.
    apply mask_low_above.
Qed.

End more_masks.

Lemma mask_falchi_idempotent_witness :
  mask_falchi (H:=Ref.arith) Sample.cfg [[B64.nan; Sample.two]]
    = Ok [[B64.nan; Sample.two]]
  ∧ SFleb Sample.two (FALCHI_MASK_THRESHOLD Sample.cfg) = false.
Proof.
  destruct (@mask_falchi_idempotent Ref.libm Sample.cfg
              [[B64.one; Sample.two]] [[B64.nan; Sample.two]] eq_refl)
    as [Hid Hc].
  split; [exact Hid|]. exact (Hc 0%nat 1%nat Sample.two eq_refl).
Defined.

Section more_loaders.
Context {F : Type} `{Arith F}.
Variable cfg : config F.

(** The variables after [where(ds != fill)]. *)
Lemma ds_where_ne (vars : gmap string (list (ndarray F))) (v : F) :
  ds_where vars (ds_ne vars v)
  = fmap (M:=list) (amap (λ x, if negb (f_eqb x v) then x else f_nan))
      <$> vars.
Proof.
  unfold ds_where, ds_ne.
  rewrite map_zip_with_fmap_2, map_zip_with_diag.
  apply map_fmap_ext. intros name t _.
  by rewrite zip_with_amap_diag3.
Qed.

Lemma get_kd_data_cell (roi : ROI)
    (sel : Dataset F → Z * Z → Z * Z → Dataset F) (kd_data : Dataset F)
    name (t : list (ndarray F)) k (a : ndarray F) i j x :
  ds_vars (get_kd_data cfg roi sel kd_data) !! name = Some t →
  t !! k = Some a → cell a i j = Some x →
  ∃ y, x = scrub_fill cfg y.
Proof.
  unfold get_kd_data. cbn [ds_vars]. rewrite ds_where_ne, lookup_fmap.
  intros Ht Ha Hx.
  destruct (ds_vars _ !! name) as [t0|]; simplify_eq/=.
  rewrite list_lookup_fmap in Ha.
  destruct (t0 !! k) as [a0|]; simplify_eq/=.
  rewrite cell_amap in Hx.
  destruct (cell a0 i j) as [y|]; simplify_eq/=. by exists y.
Qed.

End more_loaders.

Section more_loaders_b64.
Import B64 B64_facts.
Context `{Libm}.
Variable cfg : config float.

(** X2. No cell of the loaded attenuation data equals the fill value:
    every variable, every time step, every cell. *)
Theorem get_kd_data_no_fill (roi : ROI)
    (sel : Dataset float → Z * Z → Z * Z → Dataset float)
    (kd_data : Dataset float) name (t : list (ndarray float)) k
    (a : ndarray float) i j x :
  ds_vars (get_kd_data cfg roi sel kd_data) !! name = Some t →
  t !! k = Some a → cell a i j = Some x →
  SFeqb x (KD_FILLVAL cfg) = false.
Proof.
  intros Ht Ha Hx.
  destruct (get_kd_data_cell cfg roi sel kd_data name t k a i j x Ht Ha Hx)
    as [y ->].
  unfold scrub_fill. cbn [f_eqb f_nan arith].
  by destruct (SFeqb y (KD_FILLVAL cfg)) eqn:E.
Qed.

(** X3. With a fill value that is itself NaN nothing compares equal to it:
    the loader returns the selected region as it is. *)
Theorem get_kd_data_nan_fill (roi : ROI)
    (sel : Dataset float → Z * Z → Z * Z → Dataset float)
    (kd_data : Dataset float) :
  KD_FILLVAL cfg = nan →
  ds_vars (get_kd_data cfg roi sel kd_data)
  = ds_vars (sel kd_data (max_lat roi + 1, min_lat roi - 1)
                         (min_lon roi - 1, max_lon roi + 1)).
Proof.
  intros Hfill. unfold get_kd_data. cbn [ds_vars].
  rewrite ds_where_ne, Hfill.
  rewrite <- (map_fmap_id (ds_vars _)) at 2.
  apply map_fmap_ext. intros name t _.
  rewrite <- (list_fmap_id t) at 2.
  apply list_fmap_ext. intros _ a _. unfold amap.
  rewrite <- (list_fmap_id a) at 2.
  apply list_fmap_ext. intros _ row _.
  rewrite <- (list_fmap_id row) at 2.
  apply list_fmap_ext. intros _ x _. cbn [f_eqb f_nan arith].
  by destruct x.
Qed.

End more_loaders_b64.

(** ** When the calculation returns and what it raises *)

Section calc_errors.
Context {F : Type} `{Arith F}.
Variable cfg : config F.

(** The arrays derived from the brightness alone combine without error. *)
Ltac run_amap2 :=
  repeat match goal with
  | |- context [amap2 ?f ?a ?b] =>
      destruct (amap2_total f a b) as (? & -> & ?);
      [rewrite ?shape_amap, ?shape_full_like in *; congruence | simpl]
  | |- context [np_where ?c ?x ?y] =>
      destruct (np_where_total c x y) as (? & -> & ?);
      [rewrite ?shape_amap, ?shape_full_like in *; congruence
      |rewrite ?shape_amap, ?shape_full_like in *; congruence | simpl]
  end.

(** X4. A channel missing from the dict is a [KeyError] naming it: the
    blue one whatever else holds, the green one when the blue array has the
    shape of the brightness, the red one when the blue and green arrays
    have it. *)
Theorem calculate_z_thresh_missing_channel (fm : ndarray F)
    (kd : gmap string (ndarray F)) (lm : ndarray Z) :
  (kd !! "kd_blue"%string = None →
   calculate_z_thresh cfg fm kd lm = Raise (KeyError "kd_blue")) ∧
  (∀ kb, kd !! "kd_blue"%string = Some kb → shape kb = shape fm →
   kd !! "kd_green"%string = None →
   calculate_z_thresh cfg fm kd lm = Raise (KeyError "kd_green")) ∧
  (∀ kb kg, kd !! "kd_blue"%string = Some kb → shape kb = shape fm →
   kd !! "kd_green"%string = Some kg → shape kg = shape fm →
   kd !! "kd_red"%string = None →
   calculate_z_thresh cfg fm kd lm = Raise (KeyError "kd_red")).
Proof.
  split; [|split].
  - intros Eb. unfold calculate_z_thresh, dict_get. rewrite Eb.
    run_amap2. reflexivity.
  - intros kb Eb Hb Eg. unfold calculate_z_thresh, dict_get. rewrite Eb, Eg.
    run_amap2. reflexivity.
  - intros kb kg Eb Hb Eg Hg Er.
    unfold calculate_z_thresh, dict_get. rewrite Eb, Eg, Er.
    run_amap2. reflexivity.
Qed.

(** X5. With the three channels in the shape of the brightness array, a
    land/sea raster of another shape is an [IndexError]: the depth is
    computed first, and the masking at the end raises. *)
Theorem calculate_z_thresh_landmask_shape (fm kb kg kr : ndarray F)
    (kd : gmap string (ndarray F)) (lm : ndarray Z) :
  kd !! "kd_blue"%string = Some kb → kd !! "kd_green"%string = Some kg →
  kd !! "kd_red"%string = Some kr →
  shape kb = shape fm → shape kg = shape fm → shape kr = shape fm →
  shape lm ≠ shape fm →
  calculate_z_thresh cfg fm kd lm
  = Raise (IndexError "boolean index did not match indexed array").
Proof.
  intros Eb Eg Er Hb Hg Hr Hl.
  unfold calculate_z_thresh, np_logical_and, dict_get, apply_landmask.
  rewrite Eb, Eg, Er. run_amap2.
  unfold setitem_mask. rewrite decide_False; [done|].
  rewrite ?shape_amap, ?shape_full_like in *. congruence.
Qed.

End calc_errors.

(** ** Missing data through the pipeline (binary64) *)

Section calc_cells.
Context {F : Type} `{Arith F}.
Variable cfg : config F.

(** Every cell of the output is the cell formula on the cells of the
    operands at the same position. *)
Lemma calculate_z_thresh_cell (fm : ndarray F)
    (kd : gmap string (ndarray F)) (lm : ndarray Z) (z : ndarray F) i j b :
  calculate_z_thresh cfg fm kd lm = Ok z → cell fm i j = Some b →
  ∃ kb kg kr vb vg vr c,
    kd !! "kd_blue"%string = Some kb ∧ kd !! "kd_green"%string = Some kg ∧
    kd !! "kd_red"%string = Some kr ∧
    cell kb i j = Some vb ∧ cell kg i j = Some vg ∧ cell kr i j = Some vr ∧
    cell lm i j = Some c ∧
    cell z i j = Some (z_thresh_cell cfg b vb vg vr c).
Proof.
  intros Hz Hfm.
  apply calculate_z_thresh_Ok in Hz
    as (kb & kg & kr & Eb & Eg & Er & Hb & Hg & Hr & Hl & _ & Hc).
  assert (is_Some (cell kb i j)) as [vb Hkb]
    by (eapply (cell_is_Some_shape fm); [done|eauto]).
  assert (is_Some (cell kg i j)) as [vg Hkg]
    by (eapply (cell_is_Some_shape fm); [done|eauto]).
  assert (is_Some (cell kr i j)) as [vr Hkr]
    by (eapply (cell_is_Some_shape fm); [done|eauto]).
  assert (is_Some (cell lm i j)) as [c Hlm]
    by (eapply (cell_is_Some_shape fm); [done|eauto]).
  exists kb, kg, kr, vb, vg, vr, c. repeat (split; [done|]).
  by rewrite Hc, Hfm, Hkb, Hkg, Hkr, Hlm.
Qed.

End calc_cells.

Section missing_data.
Import B64 B64_facts.
Context `{Libm}.
Variable cfg : config float.

Lemma add_nan_l (y : float) : add nan y = nan.
Proof. reflexivity. Qed.

Lemma add_nan_r (x : float) : add x nan = nan.
Proof. by destruct x. Qed.

Lemma Kd_total_nan_brightness (kb kg kr : float) :
  Kd_total cfg nan kb kg kr = nan.
Proof.
  apply Kd_guards_not_finite.
  unfold Kd_log_expression, R_blue, sfce_irr_blue.
  cbn [f_add f_mul f_div arith].
  by rewrite mul_nan_r.
Qed.

Lemma term_nan_attenuation (r : float) :
  mul r (np_exp (mul neg_one nan)) = nan.
Proof. by destruct r. Qed.

Lemma Kd_total_nan_attenuation (b kb kg kr : float) :
  isnan kb = true ∨ isnan kg = true ∨ isnan kr = true →
  Kd_total cfg b kb kg kr = nan.
Proof.
  intros Hk. apply Kd_guards_not_finite.
  unfold Kd_log_expression. cbn [f_add f_mul f_exp f_neg_one arith].
  destruct Hk as [Hk|[Hk|Hk]].
  - destruct kb; try discriminate.
    by rewrite term_nan_attenuation.
  - destruct kg; try discriminate.
    by rewrite term_nan_attenuation, add_nan_r.
  - destruct kr; try discriminate.
    by rewrite term_nan_attenuation, add_nan_r.
Qed.

(** X6. Masking and calculation compose: a cell whose regridded
    brightness is NaN or at or below the mask threshold has NaN depth,
    sea or land, whatever the attenuation there. *)
Theorem dark_cell_depth_is_nan (a fm : ndarray float)
    (kd : gmap string (ndarray float)) (lm : ndarray Z) (z : ndarray float)
    i j b :
  mask_falchi cfg a = Ok fm →
  calculate_z_thresh cfg fm kd lm = Ok z →
  cell a i j = Some b →
  SFleb b (FALCHI_MASK_THRESHOLD cfg) = true ∨ isnan b = true →
  cell fm i j = Some nan ∧ cell z i j = Some nan.
Proof.
  intros Hfm Hz Hb Hdark.
  destruct (mask_falchi_cells cfg a) as (fm' & Hfm' & _ & Hc).
  rewrite Hfm in Hfm'. injection Hfm' as <-.
  assert (cell fm i j = Some nan) as Hcell.
  { rewrite Hc, Hb. simpl. f_equal. unfold mask_low.
    cbn [f_leb f_nan arith].
    destruct Hdark as [->|Hnan]; [done|].
    destruct b; try discriminate. reflexivity. }
  split; [done|].
  destruct (calculate_z_thresh_cell cfg fm kd lm z i j nan Hz Hcell)
    as (kb & kg & kr & vb & vg & vr & c & _ & _ & _ & _ & _ & _ & _ & ->).
  f_equal. apply z_thresh_cell_Kd_nan, Kd_total_nan_brightness.
Qed.

(** X7. A cell where the attenuation of some channel is NaN (a scrubbed
    fill value that the gap fill did not close) has NaN depth. *)
Theorem missing_attenuation_depth_is_nan (fm kb kg kr : ndarray float)
    (kd : gmap string (ndarray float)) (lm : ndarray Z) (z : ndarray float)
    i j vb vg vr :
  calculate_z_thresh cfg fm kd lm = Ok z →
  kd !! "kd_blue"%string = Some kb → kd !! "kd_green"%string = Some kg →
  kd !! "kd_red"%string = Some kr →
  cell kb i j = Some vb → cell kg i j = Some vg → cell kr i j = Some vr →
  isnan vb = true ∨ isnan vg = true ∨ isnan vr = true →
  cell z i j = Some nan.
Proof.
  intros Hz Eb Eg Er Hkb Hkg Hkr Hnan.
  pose proof Hz as Hz'. apply calculate_z_thresh_Ok in Hz'
    as (kb' & kg' & kr' & Eb' & Eg' & Er' & Hb & _ & _ & _ & _ & _).
  simplify_eq.
  assert (is_Some (cell fm i j)) as [b Hfm]
    by (eapply (cell_is_Some_shape kb); [done|eauto]).
  destruct (calculate_z_thresh_at cfg fm kb kg kr kd lm z i j b vb vg vr)
    as (c & _ & ->); try done.
  f_equal. by apply z_thresh_cell_Kd_nan, Kd_total_nan_attenuation.
Qed.

End missing_data.

(** ** Transposition, reshaping and meshes *)

Section array_layout.
Context {A : Type}.
Implicit Types (a : ndarray A) (v row : list A).

Lemma cell_rect_None_col a n m i j :
  shape a = replicate n m → (m ≤ j)%nat → cell a i j = None.
Proof.
  unfold cell, shape. intros Hs Hj.
  destruct (a !! i) as [row|] eqn:Hrow; [|done]. simpl.
  apply lookup_ge_None.
  assert (length <$> a !! i = Some (length row)) as Hl by (by rewrite Hrow).
  rewrite <- list_lookup_fmap, Hs in Hl.
  apply lookup_replicate in Hl as [-> _]. done.
Qed.

Lemma transpose_cons2 row row' a :
  transpose (row :: row' :: a) = zip_with cons row (transpose (row' :: a)).
Proof. reflexivity. Qed.

Lemma shape_zip_with_cons row (t : ndarray A) k :
  shape t = replicate (length row) k →
  shape (zip_with cons row t) = replicate (length row) (S k).
Proof.
  unfold shape. revert t. induction row as [|x row IH]; intros [|r t] Ht;
    simplify_eq/=; [done|].
  f_equal. by apply IH.
Qed.

(** The transpose of an array of [n] rows and [m] columns, [n] not zero,
    has [m] rows and [n] columns, and its cell [(j, i)] is the cell
    [(i, j)] of the array. *)
Lemma transpose_rect a n m :
  shape a = replicate (S n) m →
  shape (transpose a) = replicate m (S n) ∧
  ∀ i j, cell (transpose a) j i = cell a i j.
Proof.
  revert a. induction n as [|n IH]; intros a Hs.
  - destruct a as [|row [|??]]; simplify_eq/=.
    split.
    + unfold shape. rewrite <- list_fmap_compose.
      induction row as [|x row IHr]; [done|]. simpl. by f_equal.
    + intros i j. unfold cell. rewrite list_lookup_fmap.
      destruct i as [|i]; simpl.
      * by destruct (row !! j).
      * by destruct (row !! j).
  - destruct a as [|row [|row' a]]; [done|done|].
    assert (length row = m ∧ shape (row' :: a) = replicate (S n) m)
      as [<- Hs'].
    { unfold shape in Hs |- *. rewrite fmap_cons in Hs.
      change (replicate (S (S n)) m) with (m :: replicate (S n) m) in Hs.
      injection Hs as Hrow Hrest Ha. split; [done|].
      rewrite fmap_cons. simpl. by f_equal. }
    destruct (IH (row' :: a) Hs') as [IHs IHc].
    rewrite transpose_cons2.
    set (t := transpose (row' :: a)) in *. clearbody t.
    split; [by apply shape_zip_with_cons|].
    intros i j. unfold cell at 1. rewrite lookup_zip_with.
    destruct (row !! j) as [x|] eqn:Hx; simpl.
    + destruct (t !! j) as [r|] eqn:Hr; simpl.
      * destruct i as [|i]; simpl.
        -- unfold cell. simpl. by rewrite Hx.
        -- specialize (IHc i j). unfold cell in IHc at 1.
           rewrite Hr in IHc. simpl in IHc. rewrite IHc. reflexivity.
      * apply lookup_ge_None in Hr. apply lookup_lt_Some in Hx.
        assert (length t = length row); [|lia].
        transitivity (length (shape t));
          [unfold shape; by rewrite length_fmap|].
        by rewrite IHs, length_replicate.
    + symmetry. apply (cell_rect_None_col _ (S (S n)) (length row)); [done|].
      by apply lookup_ge_None.
Qed.

(** On an array of at least one row and one column the two
    transpositions cancel. *)
Lemma transpose_involutive a n m :
  shape a = replicate (S n) (S m) → transpose (transpose a) = a.
Proof.
  intros Hs. destruct (transpose_rect a n (S m) Hs) as [Hts Htc].
  destruct (transpose_rect (transpose a) m (S n) Hts) as [Htts Httc].
  apply ndarray_eq; [congruence|].
  intros i j. by rewrite Httc, Htc.
Qed.

Lemma shape_reshape v sh :
  length v = sum_list sh → shape (reshape v sh) = sh.
Proof.
  revert v. induction sh as [|n sh IH]; intros v Hv; [done|].
  simpl in *. unfold shape. simpl. f_equal.
  - rewrite length_take. lia.
  - apply IH. rewrite length_drop. lia.
Qed.

(** Row-major layout: cell [(i, j)] of a reshaped vector. *)
Lemma cell_reshape v n m i j :
  (i < n)%nat → (j < m)%nat →
  cell (reshape v (replicate n m)) i j = v !! (i * m + j)%nat.
Proof.
  revert v i. induction n as [|n IH]; intros v i Hi Hj; [lia|].
  simpl. destruct i as [|i].
  - unfold cell. simpl. by rewrite lookup_take_lt.
  - change (cell (take m v :: reshape (drop m v) (replicate n m)) (S i) j)
      with (cell (reshape (drop m v) (replicate n m)) i j).
    rewrite IH by lia. rewrite lookup_drop. f_equal. lia.
Qed.

Lemma ravel_rect a n m i j :
  shape a = replicate n m → (j < m)%nat →
  ravel a !! (i * m + j)%nat = cell a i j.
Proof.
  unfold ravel. revert n i. induction a as [|row a IH]; intros n i Hs Hj.
  - unfold cell. by rewrite lookup_nil.
  - destruct n as [|n]; simplify_eq/=.
    destruct i as [|i]; simpl.
    + unfold cell. simpl. by rewrite lookup_app_l.
    + rewrite lookup_app_r by lia.
      replace (length row + i * length row + j - length row)%nat
        with (i * length row + j)%nat by lia.
      by apply (IH n).
Qed.

End array_layout.

Lemma meshgrid_ij_shape {A} (xs ys : list A) :
  shape (meshgrid_ij xs ys).1 = replicate (length xs) (length ys) ∧
  shape (meshgrid_ij xs ys).2 = replicate (length xs) (length ys).
Proof.
  unfold meshgrid_ij, shape. simpl.
  split; induction xs as [|x xs IH]; try done.
  - rewrite !fmap_cons, length_fmap, IH. reflexivity.
  - rewrite !fmap_cons, IH. reflexivity.
Qed.

Lemma meshgrid_ij_cell {A} (xs ys : list A) i j x y :
  xs !! i = Some x → ys !! j = Some y →
  cell (meshgrid_ij xs ys).1 i j = Some x ∧
  cell (meshgrid_ij xs ys).2 i j = Some y.
Proof.
  intros Hx Hy. unfold meshgrid_ij, cell. simpl.
  rewrite !list_lookup_fmap, Hx. simpl.
  by rewrite list_lookup_fmap, Hy.
Qed.

(** The two meshes, read row by row, list every pair of a longitude
    and a latitude: position [i * n + j], with [n] the number of
    latitudes, holds longitude [i] and latitude [j]. *)
Lemma meshgrid_ij_ravel {A} (xs ys : list A) i j x y :
  xs !! i = Some x → ys !! j = Some y →
  ravel (meshgrid_ij xs ys).1 !! (i * length ys + j)%nat = Some x ∧
  ravel (meshgrid_ij xs ys).2 !! (i * length ys + j)%nat = Some y.
Proof.
  intros Hx Hy.
  destruct (meshgrid_ij_shape xs ys) as [Hs1 Hs2].
  destruct (meshgrid_ij_cell xs ys i j x y Hx Hy) as [Hc1 Hc2].
  apply lookup_lt_Some in Hy as Hj.
  by rewrite (ravel_rect _ _ _ _ _ Hs1 Hj), (ravel_rect _ _ _ _ _ Hs2 Hj).
Qed.

(** ** What [fill_and_regrid] returns *)

Section regrid_returns.
Context {F : Type}.
Variable pyi : Pyinterp F.

Lemma fill_and_regrid_value (in_arr mx my d lat lon : positive)
    (σ : store F) (a mxa mya filled : ndarray F) (xs ys vals : list F) n m :
  σ !! in_arr = Some (ODataArray d lat lon) →
  σ !! d = Some (ONdarray a) →
  σ !! lat = Some (OVector ys) → σ !! lon = Some (OVector xs) →
  length ys = S n → length xs = S m →
  shape a = replicate (S n) (S m) →
  σ !! mx = Some (ONdarray mxa) → σ !! my = Some (ONdarray mya) →
  fill_loess pyi (Build_Grid2D xs ys (transpose a)) 3 3 = Ok filled →
  shape filled = shape (transpose a) →
  bivariate pyi (Build_Grid2D xs ys filled) (ravel mxa) (ravel mya)
    = Ok vals →
  length vals = length (ravel mxa) →
  wp (fill_and_regrid pyi in_arr mx my) σ
    (λ out σ', σ ⊆ σ' ∧ σ !! out = None ∧
       σ' !! out = Some (ONdarray (transpose (reshape vals (shape mxa)))))
    (λ _ _, False).
Proof.
  intros Hin Hd Hlat Hlon Hny Hnx Ha Hmx Hmy Hfill Hfsh Hbiv Hlen.
  destruct (transpose_rect a n (S m) Ha) as [Hta _].
  rewrite Hta in Hfsh.
  destruct (transpose_rect filled m (S n) Hfsh) as [Htf _].
  rewrite <- (transpose_involutive filled m n Hfsh) in Hbiv.
  assert (shape a = replicate (length ys) (length xs)) as Ha'
    by (by rewrite Hny, Hnx).
  assert (shape (transpose filled) = shape a) as Hset by congruence.
  assert (np_reshape vals (shape mxa) = Ok (reshape vals (shape mxa)))
    as Hreshape.
  { unfold np_reshape. rewrite decide_True; [done|].
    by rewrite Hlen, length_ravel. }
  unfold fill_and_regrid.
  repeat wp_exec.
  split; [store_extends|]. split; [done|]. apply lookup_insert_eq.
Qed.

(** X10. An exception of the gap fill leaves [fill_and_regrid] as it is,
    from a store in which nothing was allocated or changed. *)
Theorem fill_and_regrid_loess_raises (in_arr mx my d lat lon : positive)
    (σ : store F) (a : ndarray F) (xs ys : list F) e :
  σ !! in_arr = Some (ODataArray d lat lon) →
  σ !! d = Some (ONdarray a) →
  σ !! lat = Some (OVector ys) → σ !! lon = Some (OVector xs) →
  shape a = replicate (length ys) (length xs) →
  fill_loess pyi (Build_Grid2D xs ys (transpose a)) 3 3 = Raise e →
  fill_and_regrid pyi in_arr mx my σ = (Raise e, σ).
Proof.
  intros Hin Hd Hlat Hlon Ha Hfill.
  unfold fill_and_regrid, Grid2D_new, get_DataArray, get_ndarray, get_vector,
    mbind, ST_bind.
  rewrite Hin, Hd, Hlat, Hlon. rewrite decide_True by done.
  unfold mret, ST_ret, lift_result. by rewrite Hfill.
Qed.

End regrid_returns.

(** ** The regridding methods *)

Section regrid_methods_facts.
Context {F : Type} `{Arith F}.
Variable cfg : config F.
Variable pyi : Pyinterp F.

Lemma wp_regrid_falchi (falchi_data : DataArray3) (lon lat d : positive)
    (σ : store F) (a filled : ndarray F) (xs ys txs tys vals : list F)
    n m :
  σ !! lon = Some (OVector txs) → σ !! lat = Some (OVector tys) →
  da_slices falchi_data !! 0%nat = Some d →
  σ !! d = Some (ONdarray a) →
  σ !! da_lat falchi_data = Some (OVector ys) →
  σ !! da_lon falchi_data = Some (OVector xs) →
  length ys = S n → length xs = S m →
  shape a = replicate (S n) (S m) →
  fill_loess pyi (Build_Grid2D xs ys (transpose a)) 3 3 = Ok filled →
  shape filled = shape (transpose a) →
  bivariate pyi (Build_Grid2D xs ys filled)
    (ravel (meshgrid_ij txs tys).1) (ravel (meshgrid_ij txs tys).2)
    = Ok vals →
  length vals = length (ravel (meshgrid_ij txs tys).1) →
  wp (regrid_falchi pyi falchi_data lon lat) σ
    (λ out σ', σ ⊆ σ' ∧ σ !! out = None ∧
       σ' !! out = Some (ONdarray (transpose
         (reshape vals (replicate (length txs) (length tys))))))
    (λ _ _, False).
Proof.
  intros Hlon Hlat Hslice Hd Hdlat Hdlon Hny Hnx Ha Hfill Hfsh Hbiv Hlen.
  unfold regrid_falchi, target_mesh, DataArray3_getitem.
  rewrite Hslice.
  repeat wp_exec. simpl.
  destruct (meshgrid_ij_shape txs tys) as [Hs1 Hs2].
  eapply wp_mono.
  - lazymatch goal with
    | |- wp (fill_and_regrid _ ?band ?mx ?my) _ _ _ =>
        eapply (fill_and_regrid_value pyi band mx my d (da_lat falchi_data)
                  (da_lon falchi_data) _ a _ _ filled xs ys vals n m)
    end; try solve_lookup; try done.
  - intros out σ' (Hsub & Hnew & Hout). simpl.
    repeat match goal with
    | H : <[_:=_]> _ !! _ = None |- _ =>
        apply lookup_insert_None in H as [H ?]
    end.
    split; [|split].
    + etrans; [|exact Hsub]. store_extends.
    + done.
    + rewrite <- Hs1. exact Hout.
  - done.
Qed.

(** X11. [regrid_falchi] puts the interpolated values on the target grid
    with latitude first: given a well-formed band 0 and pyinterp calls that
    return, it returns a new array of one row for each target latitude and
    one column for each target longitude, whose cell [(j, i)] is the value
    pyinterp returned for the point of longitude [i] and latitude [j]; the
    objects of the store are unchanged. *)
Theorem regrid_falchi_layout (falchi_data : DataArray3) (lon lat d : positive)
    (σ : store F) (a filled : ndarray F) (xs ys txs tys vals : list F)
    n m p :
  σ !! lon = Some (OVector txs) → σ !! lat = Some (OVector tys) →
  length txs = S p →
  da_slices falchi_data !! 0%nat = Some d →
  σ !! d = Some (ONdarray a) →
  σ !! da_lat falchi_data = Some (OVector ys) →
  σ !! da_lon falchi_data = Some (OVector xs) →
  length ys = S n → length xs = S m →
  shape a = replicate (S n) (S m) →
  fill_loess pyi (Build_Grid2D xs ys (transpose a)) 3 3 = Ok filled →
  shape filled = shape (transpose a) →
  bivariate pyi (Build_Grid2D xs ys filled)
    (ravel (meshgrid_ij txs tys).1) (ravel (meshgrid_ij txs tys).2)
    = Ok vals →
  length vals = length (ravel (meshgrid_ij txs tys).1) →
  ∃ out σ' o,
    regrid_falchi pyi falchi_data lon lat σ = (Ok out, σ') ∧
    σ ⊆ σ' ∧ σ !! out = None ∧ σ' !! out = Some (ONdarray o) ∧
    shape o = replicate (length tys) (length txs) ∧
    ∀ i j x y, txs !! i = Some x → tys !! j = Some y →
      ∃ k, ravel (meshgrid_ij txs tys).1 !! k = Some x ∧
           ravel (meshgrid_ij txs tys).2 !! k = Some y ∧
           cell o j i = vals !! k.
Proof.
  intros Hlon Hlat Hp Hslice Hd Hdlat Hdlon Hny Hnx Ha Hfill Hfsh Hbiv Hlen.
  pose proof (wp_regrid_falchi falchi_data lon lat d σ a filled xs ys txs tys
    vals n m Hlon Hlat Hslice Hd Hdlat Hdlon Hny Hnx Ha Hfill Hfsh Hbiv Hlen)
    as Hwp.
  unfold wp in Hwp.
  destruct (regrid_falchi pyi falchi_data lon lat σ) as [[out|e] σ'];
    [|done].
  destruct Hwp as (Hsub & Hnew & Hout).
  eexists out, σ', _. repeat (split; [done|]).
  destruct (meshgrid_ij_shape txs tys) as [Hs1 _].
  assert (shape (reshape vals (replicate (length txs) (length tys)))
          = replicate (length txs) (length tys)) as Hr.
  { apply shape_reshape. by rewrite Hlen, length_ravel, Hs1. }
  rewrite Hp in Hr at 2.
  destruct (transpose_rect _ p (length tys) Hr) as [Hts Htc].
  split; [by rewrite Hts, Hp|].
  intros i j x y Hx Hy.
  destruct (meshgrid_ij_ravel txs tys i j x y Hx Hy) as [Hk1 Hk2].
  exists (i * length tys + j)%nat. repeat (split; [done|]).
  rewrite Htc. apply cell_reshape; by eapply lookup_lt_Some.
Qed.

Lemma source_at_weaken (σ σ' : store F) d lat lon a ys xs :
  σ ⊆ σ' → source_at σ d lat lon a ys xs → source_at σ' d lat lon a ys xs.
Proof.
  intros Hsub (Hd & Hlat & Hlon & Hrest).
  repeat split; try (by eapply lookup_weaken). all: apply Hrest.
Qed.

(** Under the contract of pyinterp, a call on a well-formed source and
    meshes of [S p] rows and [q] columns returns an array of [q] rows and
    [S p] columns at a new reference. *)
Lemma wp_fill_and_regrid (in_arr mx my d lat lon : positive) (σ : store F)
    (a mxa mya : ndarray F) (xs ys : list F) p q :
  pyinterp_returns pyi →
  σ !! in_arr = Some (ODataArray d lat lon) →
  source_at σ d lat lon a ys xs →
  σ !! mx = Some (ONdarray mxa) → σ !! my = Some (ONdarray mya) →
  shape mxa = replicate (S p) q → shape mya = replicate (S p) q →
  wp (fill_and_regrid pyi in_arr mx my) σ
    (λ out σ', σ ⊆ σ' ∧ σ !! out = None ∧
       ∃ o, σ' !! out = Some (ONdarray o) ∧ shape o = replicate q (S p))
    (λ _ _, False).
Proof.
  intros [Hloess Hbiv] Hin (Hd & Hlat & Hlon & Ha & Hys & Hxs) Hmx Hmy Hs1 Hs2.
  destruct ys as [|y0 ys]; [done|]. destruct xs as [|x0 xs]; [done|].
  set (ys' := y0 :: ys) in *. set (xs' := x0 :: xs) in *.
  destruct (Hloess (Build_Grid2D xs' ys' (transpose a)) 3%nat 3%nat)
    as (filled & Hfilled & Hfsh).
  destruct (Hbiv (Build_Grid2D xs' ys' filled) (ravel mxa) (ravel mya))
    as (vals & Hvals & Hlen).
  { by rewrite !length_ravel, Hs1, Hs2. }
  eapply wp_mono.
  - by eapply (fill_and_regrid_value pyi in_arr mx my d lat lon σ a mxa mya
                 filled xs' ys' vals (length ys) (length xs)).
  - intros out σ' (Hsub & Hnew & Hout). simpl.
    repeat (split; [done|]). eexists. split; [exact Hout|].
    assert (shape (reshape vals (shape mxa)) = replicate (S p) q) as Hr.
    { rewrite shape_reshape; [done|]. by rewrite Hlen, length_ravel. }
    by destruct (transpose_rect _ p q Hr).
  - done.
Qed.



Lemma wp_regrid_channels (kd_data : gmap string DataArray3)
    (mx my : positive) (mxa mya : ndarray F) p q (σ0 : store F)
    (channels : list string) :
  pyinterp_returns pyi →
  σ0 !! mx = Some (ONdarray mxa) → σ0 !! my = Some (ONdarray mya) →
  shape mxa = replicate (S p) q → shape mya = replicate (S p) q →
  (∀ c, c ∈ channels → channel_at σ0 kd_data c) →
  ∀ (acc : gmap string positive) (σ : store F),
    σ0 ⊆ σ → dict_shaped σ acc (replicate q (S p)) →
    wp (regrid_channels pyi kd_data mx my channels acc) σ
      (λ r σ', σ ⊆ σ' ∧ dict_shaped σ' r (replicate q (S p)) ∧
               dom r = dom acc ∪ list_to_set channels)
      (λ _ _, False).
Proof.
  intros Hpyi Hmx Hmy Hs1 Hs2.
  induction channels as [|c channels IH]; intros Hch acc σ Hsub Hacc.
  - apply wp_ret. split; [done|]. split; [done|]. set_solver.
  - simpl.
    destruct (Hch c) as (var & d & a & ys & xs & Hvar & Hslice & Hsrc);
      [by left|].
    apply wp_bind. eapply wp_lift_result_known; [by apply dict_get_Ok|].
    unfold DataArray3_getitem. rewrite Hslice.
    apply wp_bind, wp_alloc. intros l Hl.
    assert (σ ⊆ <[l:=ODataArray d (da_lat var) (da_lon var)]> σ) as Hsub1
      by (by apply insert_subseteq).
    apply wp_bind. eapply wp_mono.
    + eapply (wp_fill_and_regrid l mx my d (da_lat var) (da_lon var) _
                a mxa mya xs ys p q); try done.
      * apply lookup_insert_eq.
      * eapply source_at_weaken; [|exact Hsrc]. by etrans.
      * eapply lookup_weaken; [exact Hmx|]. by etrans.
      * eapply lookup_weaken; [exact Hmy|]. by etrans.
    + intros out σ1 (Hsub2 & Hnew & o & Hout & Hosh). simpl.
      eapply wp_mono.
      * apply IH.
        -- intros c' Hc'. apply Hch. by right.
        -- etrans; [exact Hsub|]. by etrans.
        -- intros c' l' Hl'. destruct (decide (c = c')) as [<-|Hne].
           ++ rewrite lookup_insert_eq in Hl'. injection Hl' as <-. eauto.
           ++ rewrite lookup_insert_ne in Hl' by done.
              destruct (Hacc c' l' Hl') as (o' & Ho' & Hsh').
              exists o'. split; [|done].
              eapply lookup_weaken; [exact Ho'|]. by etrans.
      * intros r σ' (Hsub3 & Hr & Hdom). simpl. split; [|split; [done|]].
        -- etrans; [exact Hsub1|]. by etrans.
        -- rewrite Hdom, dom_insert_L. set_solver.
      * done.
    + done.
Qed.

Lemma wp_regrid_kd (kd_data : gmap string DataArray3)
    (lon lat : positive) (σ : store F) (txs tys : list F) p :
  pyinterp_returns pyi →
  σ !! lon = Some (OVector txs) → σ !! lat = Some (OVector tys) →
  length txs = S p →
  (∀ c, c ∈ ["kd_blue"; "kd_red"; "kd_green"]%string →
     channel_at σ kd_data c) →
  wp (regrid_kd pyi kd_data lon lat) σ
    (λ r σ', σ ⊆ σ' ∧
       dom r = {["kd_blue"; "kd_green"; "kd_red"]}%string ∧
       dict_shaped σ' r (replicate (length tys) (length txs)))
    (λ _ _, False).
Proof.
  intros Hpyi Hlon Hlat Hp Hch.
  unfold regrid_kd, target_mesh. repeat wp_exec. cbn [fst snd].
  destruct (meshgrid_ij_shape txs tys) as [Hs1 Hs2].
  rewrite Hp in Hs1, Hs2.
  eapply wp_mono.
  - lazymatch goal with
    | |- wp (regrid_channels _ _ ?mx ?my _ _) ?σ1 _ _ =>
        eapply (wp_regrid_channels kd_data mx my (meshgrid_ij txs tys).1
                  (meshgrid_ij txs tys).2 p (length tys) σ1)
    end; try done; try solve_lookup.
    intros c Hc. destruct (Hch c Hc)
      as (var & d & a & ys & xs & Hvar & Hslice & Hsrc).
    exists var, d, a, ys, xs. repeat (split; [done|]).
    eapply source_at_weaken; [|exact Hsrc]. store_extends.
  - intros r σ' (Hsub & Hr & Hdom). simpl. split; [|split].
    + etrans; [|exact Hsub]. store_extends.
    + rewrite Hdom. set_solver.
    + by rewrite Hp.
  - done.
Qed.

(** X12. Under the contract of pyinterp, [regrid_kd] on a dataset that
    holds the three channels returns a dict of exactly the keys
    [kd_blue], [kd_green] and [kd_red], each a new array of one row for
    each target latitude and one column for each target longitude; the
    objects of the store are unchanged. *)
Theorem regrid_kd_keys (kd_data : gmap string DataArray3)
    (lon lat : positive) (σ : store F) (txs tys : list F) p :
  pyinterp_returns pyi →
  σ !! lon = Some (OVector txs) → σ !! lat = Some (OVector tys) →
  length txs = S p →
  (∀ c, c ∈ ["kd_blue"; "kd_red"; "kd_green"]%string →
     channel_at σ kd_data c) →
  ∃ r σ',
    regrid_kd pyi kd_data lon lat σ = (Ok r, σ') ∧ σ ⊆ σ' ∧
    dom r = {["kd_blue"; "kd_green"; "kd_red"]}%string ∧
    dict_shaped σ' r (replicate (length tys) (length txs)).
Proof.
  intros Hpyi Hlon Hlat Hp Hch.
  pose proof (wp_regrid_kd kd_data lon lat σ txs tys p Hpyi Hlon Hlat Hp Hch)
    as Hwp.
  unfold wp in Hwp.
  destruct (regrid_kd pyi kd_data lon lat σ) as [[r|e] σ']; [|done].
  by exists r, σ'.
Qed.

(** X13. A dataset without the variable [kd_blue] stops [regrid_kd] with
    a [KeyError], after the two meshes were built and before anything is
    interpolated; the objects of the store are unchanged. (The argument of
    the exception is xarray's own message; the model keeps the key.) *)
Theorem regrid_kd_missing_blue (kd_data : gmap string DataArray3)
    (lon lat : positive) (σ : store F) (txs tys : list F) :
  σ !! lon = Some (OVector txs) → σ !! lat = Some (OVector tys) →
  kd_data !! "kd_blue"%string = None →
  ∃ msg σ',
    regrid_kd pyi kd_data lon lat σ = (Raise (KeyError msg), σ') ∧ σ ⊆ σ'.
Proof.
  intros Hlon Hlat Hblue.
  assert (wp (regrid_kd pyi kd_data lon lat) σ (λ _ _, False)
    (λ e σ', e = KeyError "kd_blue" ∧ σ ⊆ σ')) as Hwp.
  { unfold regrid_kd, target_mesh. repeat wp_exec. cbn [fst snd].
    simpl. apply wp_bind. unfold dict_get. rewrite Hblue.
    unfold wp, lift_result. split; [done|]. store_extends. }
  unfold wp in Hwp.
  destruct (regrid_kd pyi kd_data lon lat σ) as [[r|e] σ']; [done|].
  destruct Hwp as [-> Hsub]. by eexists _, _.
Qed.

Lemma wp_get_arrays (r : gmap string positive) (σ : store F)
    (Q : gmap string (ndarray F) → store F → Prop) E :
  Q (deref σ r) σ → wp (get_arrays r) σ Q E.
Proof. done. Qed.

Lemma deref_lookup (σ : store F) (r : gmap string positive) c l o :
  r !! c = Some l → σ !! l = Some (ONdarray o) → deref σ r !! c = Some o.
Proof.
  intros Hr Hl. unfold deref. rewrite lookup_omap, Hr. simpl. by rewrite Hl.
Qed.

Lemma wp_regrid_falchi_shape (falchi_data : DataArray3)
    (lon lat d : positive) (σ : store F) (a : ndarray F)
    (xs ys txs tys : list F) p :
  pyinterp_returns pyi →
  σ !! lon = Some (OVector txs) → σ !! lat = Some (OVector tys) →
  length txs = S p →
  da_slices falchi_data !! 0%nat = Some d →
  source_at σ d (da_lat falchi_data) (da_lon falchi_data) a ys xs →
  wp (regrid_falchi pyi falchi_data lon lat) σ
    (λ out σ', σ ⊆ σ' ∧
       ∃ o, σ' !! out = Some (ONdarray o) ∧
            shape o = replicate (length tys) (length txs))
    (λ _ _, False).
Proof.
  intros Hpyi Hlon Hlat Hp Hslice Hsrc.
  unfold regrid_falchi, target_mesh, DataArray3_getitem.
  rewrite Hslice. repeat wp_exec. simpl.
  destruct (meshgrid_ij_shape txs tys) as [Hs1 Hs2].
  rewrite Hp in Hs1, Hs2.
  eapply wp_mono.
  - lazymatch goal with
    | |- wp (fill_and_regrid _ ?band ?mx ?my) _ _ _ =>
        eapply (wp_fill_and_regrid band mx my d (da_lat falchi_data)
                  (da_lon falchi_data) _ a (meshgrid_ij txs tys).1
                  (meshgrid_ij txs tys).2 xs ys p (length tys))
    end; try done; try solve_lookup.
    eapply source_at_weaken; [|exact Hsrc]. store_extends.
  - intros out σ' (Hsub & Hnew & o & Hout & Hosh). simpl.
    split; [etrans; [|exact Hsub]; store_extends|].
    exists o. split; [done|]. by rewrite Hp.
  - done.
Qed.

Lemma channel_at_weaken (σ σ' : store F) (kd_data : gmap string DataArray3) c :
  σ ⊆ σ' → channel_at σ kd_data c → channel_at σ' kd_data c.
Proof.
  intros Hsub (var & d & a & ys & xs & Hvar & Hslice & Hsrc).
  exists var, d, a, ys, xs. repeat (split; [done|]).
  by eapply source_at_weaken.
Qed.

(** X14. The constructor goes through on well-formed sources: under the
    contract of pyinterp, with non-empty target axes, a land/sea raster
    on the target grid, a brightness raster with a first band and an
    attenuation dataset holding the three channels, [__init__] returns a
    tile; the masked brightness and the depth have the shape of the
    land/sea raster, the depth is NaN on every cell that is not sea, and
    the objects of the store are unchanged. *)
Theorem ALANTile_init_returns (landmask : ndarray Z) (lat lon d : positive)
    (falchi_data : DataArray3) (kd_data : gmap string DataArray3)
    (σ : store F) (a : ndarray F) (xs ys txs tys : list F) p :
  pyinterp_returns pyi →
  σ !! lon = Some (OVector txs) → σ !! lat = Some (OVector tys) →
  length txs = S p →
  shape landmask = replicate (length tys) (length txs) →
  da_slices falchi_data !! 0%nat = Some d →
  source_at σ d (da_lat falchi_data) (da_lon falchi_data) a ys xs →
  (∀ c, c ∈ ["kd_blue"; "kd_red"; "kd_green"]%string →
     channel_at σ kd_data c) →
  ∃ t σ',
    ALANTile_init cfg pyi landmask lat lon falchi_data kd_data σ
      = (Ok t, σ') ∧ σ ⊆ σ' ∧
    shape (falchi_masked t) = shape landmask ∧
    shape (z_thresh t) = shape landmask ∧
    ∀ i j c, cell landmask i j = Some c → c ≠ SEA →
      cell (z_thresh t) i j = Some f_nan.
Proof.
  intros Hpyi Hlon Hlat Hp Hlm Hslice Hsrc Hch.
  assert (wp (ALANTile_init cfg pyi landmask lat lon falchi_data kd_data) σ
    (λ t σ', σ ⊆ σ' ∧
       shape (falchi_masked t) = shape landmask ∧
       shape (z_thresh t) = shape landmask ∧
       ∀ i j c, cell landmask i j = Some c → c ≠ SEA →
         cell (z_thresh t) i j = Some f_nan)
    (λ _ _, False)) as Hwp.
  { unfold ALANTile_init. apply wp_bind.
    eapply wp_mono;
      [by eapply (wp_regrid_falchi_shape falchi_data lon lat d σ a xs ys txs tys p)
      | |done].
    intros fr σ1 (Hsub1 & o & Hfr & Hosh). simpl.
    apply wp_bind. eapply wp_get_ndarray_known; [exact Hfr|].
    destruct (mask_falchi_cells cfg o) as (fm & Hfm & Hfmsh & _).
    apply wp_bind. eapply wp_lift_result_known; [exact Hfm|].
    apply wp_bind. eapply wp_mono;
      [eapply (wp_regrid_kd kd_data lon lat σ1 txs tys p); try done;
       [by eapply lookup_weaken|by eapply lookup_weaken|
        intros c Hc; eapply channel_at_weaken; [exact Hsub1|by apply Hch]]
      | |done].
    intros kr σ2 (Hsub2 & Hdom & Hshaped). simpl.
    apply wp_bind, wp_get_arrays.
    assert (∀ c, c ∈ ["kd_blue"; "kd_green"; "kd_red"]%string →
      ∃ k, deref σ2 kr !! c = Some k ∧ shape k = shape fm) as Hk.
    { intros c Hc.
      assert (c ∈ dom kr) as [l Hl]%elem_of_dom by (rewrite Hdom; set_solver).
      destruct (Hshaped c l Hl) as (k & Hk & Hksh).
      exists k. split; [by eapply deref_lookup|]. congruence. }
    destruct (Hk "kd_blue"%string) as (kb & Eb & Hb); [set_solver|].
    destruct (Hk "kd_green"%string) as (kg & Eg & Hg); [set_solver|].
    destruct (Hk "kd_red"%string) as (kr' & Er & Hr); [set_solver|].
    destruct (calculate_z_thresh_total cfg fm kb kg kr' (deref σ2 kr) landmask)
      as (z & Hz); try done; [congruence|].
    apply wp_bind. eapply wp_lift_result_known; [exact Hz|].
    apply wp_ret. simpl.
    split; [by etrans|]. split; [congruence|].
    pose proof Hz as Hz'.
    apply calculate_z_thresh_Ok in Hz'
      as (? & ? & ? & _ & _ & _ & _ & _ & _ & Hl & Hs & _).
    split; [congruence|].
    intros i j c Hc Hsea.
    assert (is_Some (cell fm i j)) as [b Hb']
      by (eapply (cell_is_Some_shape landmask); [done|eauto]).
    destruct (calculate_z_thresh_cell cfg fm (deref σ2 kr) landmask z i j b
                Hz Hb')
      as (? & ? & ? & vb & vg & vr & c' & _ & _ & _ & _ & _ & _ & Hc' & ->).
    rewrite Hc in Hc'. injection Hc' as <-.
    f_equal. unfold z_thresh_cell.
    destruct (Z.eqb_spec c SEA); [done|reflexivity]. }
  unfold wp in Hwp.
  destruct (ALANTile_init cfg pyi landmask lat lon falchi_data kd_data σ)
    as [[t|e] σ']; [|done].
  by exists t, σ'.
Qed.

(** X15. A brightness raster with no band stops the constructor with an
    [IndexError] before anything is interpolated. *)
Theorem ALANTile_init_no_band (landmask : ndarray Z) (lat lon : positive)
    (falchi_data : DataArray3) (kd_data : gmap string DataArray3)
    (σ : store F) (txs tys : list F) :
  σ !! lon = Some (OVector txs) → σ !! lat = Some (OVector tys) →
  da_slices falchi_data = [] →
  (ALANTile_init cfg pyi landmask lat lon falchi_data kd_data σ).1
    = Raise (IndexError "index out of bounds").
Proof.
  intros Hlon Hlat Hnil.
  assert (wp (ALANTile_init cfg pyi landmask lat lon falchi_data kd_data) σ
    (λ _ _, False) (λ e _, e = IndexError "index out of bounds")) as Hwp.
  { unfold ALANTile_init, regrid_falchi, target_mesh, DataArray3_getitem.
    rewrite Hnil. by repeat wp_exec. }
  apply wp_run in Hwp.
  destruct (ALANTile_init cfg pyi landmask lat lon falchi_data kd_data σ)
    as [[t|e] σ']; simpl in *; [done|]. by rewrite Hwp.
Qed.

End regrid_methods_facts.

(** ** More of the batch driver *)

Lemma assoc_get_missing {V} (table : list (string * V)) (key : string) :
  key ∉ table.*1 → assoc_get table key = Raise (KeyError key).
Proof.
  induction table as [|[k v] table IH]; intros Hkey; [done|].
  simpl. rewrite fmap_cons, not_elem_of_cons in Hkey.
  destruct Hkey as [Hne Hkey]. simpl in Hne.
  destruct (decide (k = key)); [congruence|]. by apply IH.
Qed.

Lemma assoc_get_elem_of {V} (table : list (string * V)) (key : string) :
  key ∈ table.*1 →
  ∃ v, assoc_get table key = Ok v ∧ (key, v) ∈ table.
Proof.
  induction table as [|[k v] table IH]; intros Hkey;
    [by apply elem_of_nil in Hkey|].
  simpl. destruct (decide (k = key)) as [->|Hne].
  - exists v. split; [done|]. by left.
  - rewrite fmap_cons, elem_of_cons in Hkey. destruct Hkey as [Heq|Hkey];
      [simpl in Heq; congruence|].
    destruct (IH Hkey) as (v' & Hv' & Hin). exists v'. split; [done|].
    by right.
Qed.

Section driver_more.
Variable tile : Type.
Variable ALANTile_new : string → ROI → string → result tile.
Variable to_netcdf : tile → string → result unit.

(** X16. A run whose regions are all in the table and whose units all go
    through returns, and has saved one file for each unit, region by
    region in the order of the command line and month by month within a
    region. *)
Theorem main_saves_every_unit (args : Args) (w : World) :
  (∀ r, r ∈ regions args → r ∈ REGION_LOOKUP.*1) →
  (∀ r m, r ∈ regions args → m ∈ months args →
     unit_ok ALANTile_new to_netcdf (output_dir args) r m) →
  (main tile ALANTile_new to_netcdf args w).1 = Ok tt ∧
  saved (main tile ALANTile_new to_netcdf args w).2 =
    saved w
    ++ concat ((λ r, unit_path (output_dir args) r <$> months args)
                 <$> regions args).
Proof.
  intros Hknown Hok.
  assert (wp (main tile ALANTile_new to_netcdf args) w
    (λ _ w', saved w' = saved w
       ++ concat ((λ r, unit_path (output_dir args) r <$> months args)
                    <$> regions args))
    (λ _ _, False)) as Hwp.
  { unfold main.
    apply wp_bind, wp_logging_debug. apply wp_bind, wp_logging_debug.
    match goal with |- wp _ ?w1 _ _ => change (saved w) with (saved w1) end.
    apply wp_for_each_ok. intros r w1 Hr.
    destruct (assoc_get_elem_of REGION_LOOKUP r (Hknown r Hr))
      as (entry & Hentry & _).
    eapply process_region_ok; [exact Hentry|]. intros m Hm. by apply Hok. }
  apply wp_run in Hwp.
  by destruct (main tile ALANTile_new to_netcdf args w) as [[[]|e'] w'].
Qed.

(** X17. A region name that is not in the table stops the run with a
    [KeyError] naming it when the loop reaches it: the files of the
    regions before it have been saved, nothing of the regions after it. *)
Theorem main_unknown_region (args : Args) (rs1 : list string) (r : string)
    (rs2 : list string) (w : World) :
  regions args = rs1 ++ r :: rs2 →
  r ∉ REGION_LOOKUP.*1 →
  (∀ r', r' ∈ rs1 → r' ∈ REGION_LOOKUP.*1) →
  (∀ r' m, r' ∈ rs1 → m ∈ months args →
     unit_ok ALANTile_new to_netcdf (output_dir args) r' m) →
  (main tile ALANTile_new to_netcdf args w).1 = Raise (KeyError r) ∧
  saved (main tile ALANTile_new to_netcdf args w).2 =
    saved w
    ++ concat ((λ r', unit_path (output_dir args) r' <$> months args)
                 <$> rs1).
Proof.
  intros Hregions Hunknown Hknown Hok.
  assert (wp (main tile ALANTile_new to_netcdf args) w (λ _ _, False)
    (λ e w', e = KeyError r ∧ saved w' = saved w
       ++ concat ((λ r', unit_path (output_dir args) r' <$> months args)
                    <$> rs1) ++ [])) as Hwp.
  { unfold main.
    apply wp_bind, wp_logging_debug. apply wp_bind, wp_logging_debug.
    rewrite Hregions.
    match goal with |- wp _ ?w1 _ _ => change (saved w) with (saved w1) end.
    apply wp_for_each_raise.
    - intros r' w1 Hr'.
      destruct (assoc_get_elem_of REGION_LOOKUP r' (Hknown r' Hr'))
        as (entry & Hentry & _).
      eapply process_region_ok; [exact Hentry|]. intros m Hm. by apply Hok.
    - intros w1. unfold process_region.
      apply wp_bind, wp_logging_debug. apply wp_bind.
      rewrite (assoc_get_missing _ _ Hunknown).
      unfold wp, lift_result. simpl. by rewrite app_nil_r. }
  apply wp_run in Hwp.
  destruct (main tile ALANTile_new to_netcdf args w) as [[[]|e'] w'];
    simpl in *; [done|].
  destruct Hwp as [-> Hw']. by rewrite app_nil_r in Hw'.
Qed.

End driver_more.

(** *** File names *)

Lemma list_ascii_of_string_app (s t : string) :
  list_ascii_of_string (s +:+ t)
  = list_ascii_of_string s ++ list_ascii_of_string t.
Proof. induction s as [|c s IH]; [done|]. simpl. by rewrite IH. Qed.

Lemma list_ascii_of_string_inj (s t : string) :
  list_ascii_of_string s = list_ascii_of_string t → s = t.
Proof.
  intros Heq. rewrite <- (string_of_list_ascii_of_string s),
    <- (string_of_list_ascii_of_string t). by rewrite Heq.
Qed.

Lemma string_app_cancel_r (s1 s2 t : string) :
  s1 +:+ t = s2 +:+ t → s1 = s2.
Proof.
  intros Heq. apply list_ascii_of_string_inj.
  apply (f_equal list_ascii_of_string) in Heq.
  rewrite !list_ascii_of_string_app in Heq. by apply app_inv_tail in Heq.
Qed.

Lemma ends_agree_app (s1 s2 t1 t2 : string) :
  s1 +:+ t1 = s2 +:+ t2 → ends_agree t1 t2 = true.
Proof.
  intros Heq. apply (f_equal list_ascii_of_string) in Heq.
  rewrite !list_ascii_of_string_app in Heq.
  apply (f_equal reverse) in Heq. rewrite !reverse_app in Heq.
  unfold ends_agree. apply bool_decide_eq_true.
  set (l1 := reverse (list_ascii_of_string t1)) in *.
  set (l2 := reverse (list_ascii_of_string t2)) in *.
  set (n := (length l1 `min` length l2)%nat).
  apply (f_equal (take n)) in Heq.
  rewrite !take_app_le in Heq by (unfold n; lia). done.
Qed.

Lemma make_output_fname_suffix (roi : ROI) (month region_name : string) :
  make_output_fname roi month region_name
  = "In-water_clear-sky_ALAN_Zc_Month-" +:+ month
      +:+ fname_suffix roi region_name.
Proof. reflexivity. Qed.

Lemma region_suffixes_differ :
  forallb (λ e1 : string * (string * ROI),
    forallb (λ e2 : string * (string * ROI),
      bool_decide (e1.1 = e2.1)
      || negb (ends_agree (fname_suffix e1.2.2 e1.1)
                          (fname_suffix e2.2.2 e2.1)))
      REGION_LOOKUP) REGION_LOOKUP = true.
Proof. vm_compute. reflexivity. Qed.

Lemma unit_path_inj (dir r1 r2 m1 m2 : string) :
  r1 ∈ REGION_LOOKUP.*1 → r2 ∈ REGION_LOOKUP.*1 →
  unit_path dir r1 m1 = unit_path dir r2 m2 →
  r1 = r2 ∧ m1 = m2.
Proof.
  intros Hr1 Hr2 Heq.
  destruct (assoc_get_elem_of _ _ Hr1) as (e1 & He1 & Hin1).
  destruct (assoc_get_elem_of _ _ Hr2) as (e2 & He2 & Hin2).
  unfold unit_path in Heq. rewrite He1, He2 in Heq.
  apply (inj (String.append dir)) in Heq.
  apply (inj (String.append "/")) in Heq.
  rewrite !make_output_fname_suffix in Heq.
  apply (inj (String.append "In-water_clear-sky_ALAN_Zc_Month-")) in Heq.
  pose proof (ends_agree_app _ _ _ _ Heq) as Hends.
  pose proof region_suffixes_differ as Hall.
  rewrite forallb_forall in Hall.
  apply list_elem_of_In in Hin1, Hin2.
  specialize (Hall _ Hin1). rewrite forallb_forall in Hall.
  specialize (Hall _ Hin2). simpl in Hall.
  rewrite Hends in Hall. simpl in Hall. rewrite orb_false_r in Hall.
  apply bool_decide_eq_true in Hall. subst r2.
  split; [done|].
  rewrite He1 in He2. injection He2 as <-.
  by apply string_app_cancel_r in Heq.
Qed.

(** X18. No two units of a run write the same file: for regions of the
    table, two units that differ in the region or in the month have
    different output paths under one directory. *)
Theorem unit_paths_differ (dir r1 r2 m1 m2 : string) :
  r1 ∈ REGION_LOOKUP.*1 → r2 ∈ REGION_LOOKUP.*1 →
  r1 ≠ r2 ∨ m1 ≠ m2 →
  unit_path dir r1 m1 ≠ unit_path dir r2 m2.
Proof.
  intros Hr1 Hr2 Hne Heq.
  destruct (unit_path_inj dir r1 r2 m1 m2 Hr1 Hr2 Heq) as [-> ->].
  by destruct Hne.
Qed.

(** ** The saved depth *)

Section saved_depth.
Import B64 B64_facts.
Context `{Libm}.
Variable cfg : config float.

(** X19. The data of the output dataset is one time step of the depth
    with every NaN replaced: a cell that is not sea holds the replacement
    value, a cell whose depth is not NaN holds that depth, and if the
    replacement value is not NaN no cell of the output is. *)
Theorem z_thresh_data_no_nan (v : float) (fm : ndarray float)
    (kd : gmap string (ndarray float)) (lm : ndarray Z) (z : ndarray float) :
  calculate_z_thresh cfg fm kd lm = Ok z →
  ∃ s, z_thresh_data v z = [s] ∧ shape s = shape lm ∧
    (∀ i j c, cell lm i j = Some c → c ≠ SEA → cell s i j = Some v) ∧
    (∀ i j x, cell z i j = Some x → isnan x = false → cell s i j = Some x) ∧
    (isnan v = false → ∀ i j x, cell s i j = Some x → isnan x = false).
Proof.
  intros Hz.
  exists (amap (λ x, if isnan x then v else x) z).
  split; [reflexivity|].
  pose proof Hz as Hz'.
  apply calculate_z_thresh_Ok in Hz'
    as (? & ? & ? & _ & _ & _ & _ & _ & _ & Hl & Hs & _).
  split; [rewrite shape_amap; congruence|].
  split; [|split].
  - intros i j c Hc Hsea.
    assert (is_Some (cell fm i j)) as [b Hb]
      by (eapply (cell_is_Some_shape lm); [done|eauto]).
    destruct (calculate_z_thresh_cell cfg fm kd lm z i j b Hz Hb)
      as (? & ? & ? & vb & vg & vr & c' & _ & _ & _ & _ & _ & _ & Hc' & Hcell).
    rewrite Hc in Hc'. injection Hc' as <-.
    rewrite cell_amap, Hcell. simpl. unfold z_thresh_cell.
    destruct (Z.eqb_spec c SEA); [done|reflexivity].
  - intros i j u Hu Hnan. rewrite cell_amap, Hu. simpl. by rewrite Hnan.
  - intros Hv i j u Hu. rewrite cell_amap in Hu.
    destruct (cell z i j) as [y|]; simplify_eq/=.
    by destruct (isnan y) eqn:Hy.
Qed.

End saved_depth.

(** ** The properties on sample data *)

Lemma shape_imap_rows {A B} (f : nat → nat → A → B) (a : ndarray A) :
  shape (imap (λ i row, imap (f i) row) a) = shape a.
Proof.
  revert f. induction a as [|row a IH]; intros f; [done|].
  unfold shape in *. cbn [imap]. rewrite !fmap_cons, length_imap. f_equal.
  apply (IH (λ i, f (S i))).
Qed.

Lemma Ref_pyinterp_returns : pyinterp_returns Ref.pyinterp.
Proof.
  split.
  - intros g nx ny. eexists. split; [reflexivity|].
    apply shape_imap_rows.
  - intros g xs ys Hlen. simpl. unfold Ref.bivariate_ref.
    rewrite decide_True by done. eexists. split; [reflexivity|].
    rewrite length_zip_with. lia.
Qed.

Lemma Demo_channels c :
  c ∈ ["kd_blue"; "kd_red"; "kd_green"]%string →
  channel_at Demo.sources Demo.kd_data c.
Proof.
  intros Hc.
  repeat (apply elem_of_cons in Hc as [->|Hc]);
    [| | |by apply elem_of_nil in Hc];
    eexists _, _, _, _, _;
    (split; [reflexivity|]); (split; [reflexivity|]);
    repeat (split; [reflexivity|]); split; discriminate.
Qed.

Lemma get_kd_data_no_fill_witness :
  SFeqb Sample.half (KD_FILLVAL Sample.cfg) = false.
Proof.
  apply (@get_kd_data_no_fill Ref.libm Sample.cfg Demo.roi Demo.sel_all
           Demo.kd_file "kd_blue"%string [[[B64.nan; Sample.half]]] 0%nat
           [[B64.nan; Sample.half]] 0%nat 1%nat Sample.half);
    reflexivity.
Defined.

Lemma get_kd_data_nan_fill_witness :
  ds_vars (get_kd_data (H:=Ref.arith) Demo.cfg_nan_fill Demo.roi Demo.sel_all
             Demo.kd_file)
  = ds_vars Demo.kd_file.
Proof.
  apply (@get_kd_data_nan_fill Ref.libm Demo.cfg_nan_fill Demo.roi
           Demo.sel_all Demo.kd_file).
  reflexivity.
Defined.

Lemma calculate_z_thresh_missing_channel_witness :
  calculate_z_thresh (H:=Ref.arith) Sample.cfg [[Sample.two; Sample.two]]
    (delete "kd_green"%string (Sample.kd Sample.half)) [[255; 0]]%Z
  = Raise (KeyError "kd_green").
Proof.
  destruct (calculate_z_thresh_missing_channel (H:=Ref.arith) Sample.cfg
              [[Sample.two; Sample.two]]
              (delete "kd_green"%string (Sample.kd Sample.half))
              [[255; 0]]%Z) as (_ & Hgreen & _).
  apply (Hgreen [[Sample.half; Sample.half]]); reflexivity.
Defined.

Lemma calculate_z_thresh_landmask_shape_witness :
  calculate_z_thresh (H:=Ref.arith) Sample.cfg [[Sample.two; Sample.two]]
    (Sample.kd Sample.half) [[255]; [0]]%Z
  = Raise (IndexError "boolean index did not match indexed array").
Proof.
  apply (calculate_z_thresh_landmask_shape (H:=Ref.arith) Sample.cfg
           [[Sample.two; Sample.two]] [[Sample.half; Sample.half]]
           [[Sample.half; Sample.half]] [[Sample.half; Sample.half]]);
    [reflexivity..|discriminate].
Defined.

Lemma dark_cell_depth_is_nan_witness :
  ∃ z, calculate_z_thresh (H:=Ref.arith) Sample.cfg
         [[B64.nan; Sample.two]] (Sample.kd Sample.half) [[255; 255]]%Z
       = Ok z
    ∧ cell z 0 0 = Some B64.nan.
Proof.
  destruct (calculate_z_thresh (H:=Ref.arith) Sample.cfg
              [[B64.nan; Sample.two]] (Sample.kd Sample.half)
              [[255; 255]]%Z) as [z|e] eqn:Hz;
    [|vm_compute in Hz; discriminate].
  exists z. split; [reflexivity|].
  apply (@dark_cell_depth_is_nan Ref.libm Sample.cfg
           [[B64.one; Sample.two]] [[B64.nan; Sample.two]]
           (Sample.kd Sample.half) [[255; 255]]%Z z 0%nat 0%nat B64.one);
    [reflexivity|exact Hz|reflexivity|left; reflexivity].
Defined.

Lemma missing_attenuation_depth_is_nan_witness :
  ∃ z, calculate_z_thresh (H:=Ref.arith) Sample.cfg
         [[Sample.two]]
         (<["kd_blue"%string := [[B64.nan]]]>
            (<["kd_green"%string := [[Sample.half]]]>
               (<["kd_red"%string := [[Sample.half]]]> ∅)))
         [[255]]%Z
       = Ok z
    ∧ cell z 0 0 = Some B64.nan.
Proof.
  destruct (calculate_z_thresh (H:=Ref.arith) Sample.cfg
              [[Sample.two]]
              (<["kd_blue"%string := [[B64.nan]]]>
                 (<["kd_green"%string := [[Sample.half]]]>
                    (<["kd_red"%string := [[Sample.half]]]> ∅)))
              [[255]]%Z) as [z|e] eqn:Hz;
    [|vm_compute in Hz; discriminate].
  exists z. split; [reflexivity|].
  apply (@missing_attenuation_depth_is_nan Ref.libm Sample.cfg
           [[Sample.two]] [[B64.nan]] [[Sample.half]] [[Sample.half]]
           _ [[255]]%Z z 0%nat 0%nat B64.nan Sample.half Sample.half Hz);
    [reflexivity..|left; reflexivity].
Defined.

Lemma fill_and_regrid_loess_raises_witness :
  fill_and_regrid Demo.pyinterp_failing 1 5 6 Sample.store_near
  = (Raise (ValueError "loess failed"), Sample.store_near).
Proof.
  apply (fill_and_regrid_loess_raises Demo.pyinterp_failing 1 5 6 2 3 4
           Sample.store_near [[B64.one; B64.nan]; [B64.one; Sample.two]]
           [B64.zero; B64.one] [B64.zero; B64.one]);
    reflexivity.
Defined.

Lemma regrid_falchi_layout_witness :
  ∃ out σ' o,
    regrid_falchi Ref.pyinterp Demo.falchi_data 1 2 Demo.sources
      = (Ok out, σ') ∧
    σ' !! out = Some (ONdarray o) ∧
    shape o = [3; 3]%nat.
Proof.
  destruct (regrid_falchi_layout Ref.pyinterp Demo.falchi_data 1 2 5
              Demo.sources
              [[Sample.two; Sample.two]; [Sample.two; Sample.ten]]
              [[Sample.two; Sample.two]; [Sample.two; Sample.ten]]
              [B64.zero; B64.one] [B64.zero; B64.one]
              [B64.zero; Sample.half; B64.one] [B64.zero; B64.one]
              (zip_with
                 (Ref.bilinear
                    (Build_Grid2D [B64.zero; B64.one] [B64.zero; B64.one]
                       [[Sample.two; Sample.two]; [Sample.two; Sample.ten]]))
                 (ravel (meshgrid_ij [B64.zero; Sample.half; B64.one]
                                     [B64.zero; B64.one]).1)
                 (ravel (meshgrid_ij [B64.zero; Sample.half; B64.one]
                                     [B64.zero; B64.one]).2))
              1 1 2)
    as (out & σ' & o & Hrun & _ & _ & Hout & Hsh & _);
    try reflexivity.
  exists out, σ', o. split; [exact Hrun|]. split; [exact Hout|exact Hsh].
Defined.

Lemma regrid_kd_keys_witness :
  ∃ r σ',
    regrid_kd Ref.pyinterp Demo.kd_data 1 2 Demo.sources = (Ok r, σ') ∧
    dom r = {["kd_blue"; "kd_green"; "kd_red"]}%string.
Proof.
  destruct (regrid_kd_keys Ref.pyinterp Demo.kd_data 1 2 Demo.sources
              [B64.zero; Sample.half; B64.one] [B64.zero; B64.one] 2
              Ref_pyinterp_returns eq_refl eq_refl eq_refl Demo_channels)
    as (r & σ' & Hrun & _ & Hdom & _).
  exists r, σ'. split; [exact Hrun|exact Hdom].
Defined.

Lemma regrid_kd_missing_blue_witness :
  ∃ msg σ',
    regrid_kd Ref.pyinterp (delete "kd_blue"%string Demo.kd_data) 1 2
      Demo.sources = (Raise (KeyError msg), σ') ∧ Demo.sources ⊆ σ'.
Proof.
  apply (regrid_kd_missing_blue Ref.pyinterp
           (delete "kd_blue"%string Demo.kd_data) 1 2 Demo.sources
           [B64.zero; Sample.half; B64.one] [B64.zero; B64.one]);
    reflexivity.
Defined.

Lemma ALANTile_init_returns_witness :
  ∃ t σ',
    ALANTile_init (H:=Ref.arith) Sample.cfg Ref.pyinterp Demo.landmask 2 1
      Demo.falchi_data Demo.kd_data Demo.sources = (Ok t, σ') ∧
    shape (z_thresh t) = [3; 3]%nat ∧
    cell (z_thresh t) 0 2 = Some B64.nan.
Proof.
  destruct (ALANTile_init_returns (H:=Ref.arith) Sample.cfg Ref.pyinterp
              Demo.landmask 2 1 5 Demo.falchi_data Demo.kd_data Demo.sources
              [[Sample.two; Sample.two]; [Sample.two; Sample.ten]]
              [B64.zero; B64.one] [B64.zero; B64.one]
              [B64.zero; Sample.half; B64.one] [B64.zero; B64.one] 2
              Ref_pyinterp_returns eq_refl eq_refl eq_refl eq_refl eq_refl)
    as (t & σ' & Hrun & _ & _ & Hsh & Hland).
  - repeat (split; [reflexivity|]). split; discriminate.
  - exact Demo_channels.
  - exists t, σ'. split; [exact Hrun|]. split; [exact Hsh|].
    apply (Hland 0%nat 2%nat 0%Z); [reflexivity|discriminate].
Defined.

Lemma ALANTile_init_no_band_witness :
  (ALANTile_init (H:=Ref.arith) Sample.cfg Ref.pyinterp Demo.landmask 2 1
     Demo.no_bands Demo.kd_data Demo.sources).1
  = Raise (IndexError "index out of bounds").
Proof.
  apply (ALANTile_init_no_band (H:=Ref.arith) Sample.cfg Ref.pyinterp
           Demo.landmask 2 1 Demo.no_bands Demo.kd_data Demo.sources
           [B64.zero; Sample.half; B64.one] [B64.zero; B64.one]);
    reflexivity.
Defined.

Lemma main_saves_every_unit_witness :
  (main unit Sample.ALANTile_new Sample.to_netcdf
     (Sample.args ["02"; "03"]%string) Sample.world0).1 = Ok tt
  ∧ saved (main unit Sample.ALANTile_new Sample.to_netcdf
             (Sample.args ["02"; "03"]%string) Sample.world0).2
    = ["out/In-water_clear-sky_ALAN_Zc_Month-02_0S_30N_-20W_20E_NAfr.nc";
       "out/In-water_clear-sky_ALAN_Zc_Month-03_0S_30N_-20W_20E_NAfr.nc";
       "out/In-water_clear-sky_ALAN_Zc_Month-02_-40S_0N_0W_70E_SAfr.nc";
       "out/In-water_clear-sky_ALAN_Zc_Month-03_-40S_0N_0W_70E_SAfr.nc"
      ]%string.
Proof.
  apply (main_saves_every_unit unit Sample.ALANTile_new Sample.to_netcdf
           (Sample.args ["02"; "03"]%string) Sample.world0).
  - intros r Hr. simpl in Hr.
    repeat (apply elem_of_cons in Hr as [->|Hr]);
      [| |by apply elem_of_nil in Hr];
      apply (bool_decide_unpack _); vm_compute; exact I.
  - intros r m Hr Hm. simpl in Hr, Hm.
    repeat (apply elem_of_cons in Hr as [->|Hr]);
      [| |by apply elem_of_nil in Hr];
      (repeat (apply elem_of_cons in Hm as [->|Hm]);
         [| |by apply elem_of_nil in Hm]);
      eexists _, tt; repeat split; reflexivity.
Defined.

Lemma main_unknown_region_witness :
  (main unit Sample.ALANTile_new Sample.to_netcdf Demo.args_unknown
     Sample.world0).1 = Raise (KeyError "Atlantis")
  ∧ saved (main unit Sample.ALANTile_new Sample.to_netcdf Demo.args_unknown
             Sample.world0).2
    = ["out/In-water_clear-sky_ALAN_Zc_Month-02_0S_30N_-20W_20E_NAfr.nc"
      ]%string.
Proof.
  apply (main_unknown_region unit Sample.ALANTile_new Sample.to_netcdf
           Demo.args_unknown ["NAfr"%string] "Atlantis"%string
           ["SAfr"%string] Sample.world0).
  - reflexivity.
  - apply (bool_decide_unpack _). vm_compute. exact I.
  - intros r Hr. apply list_elem_of_singleton in Hr as ->.
    apply (bool_decide_unpack _). vm_compute. exact I.
  - intros r m Hr Hm. apply list_elem_of_singleton in Hr as ->.
    simpl in Hm. apply list_elem_of_singleton in Hm as ->.
    eexists _, tt. repeat split; reflexivity.
Defined.

Lemma unit_paths_differ_witness :
  unit_path "out" "NAfr" "01" ≠ unit_path "out" "NAfr" "02".
Proof.
  apply (unit_paths_differ "out" "NAfr" "NAfr" "01" "02").
  - apply (bool_decide_unpack _). vm_compute. exact I.
  - apply (bool_decide_unpack _). vm_compute. exact I.
  - right. discriminate.
Defined.

Lemma z_thresh_data_no_nan_witness :
  ∃ z s, calculate_z_thresh (H:=Ref.arith) Sample.cfg
           [[Sample.two; Sample.two]] (Sample.kd Sample.half) [[255; 0]]%Z
         = Ok z
    ∧ z_thresh_data (H:=Ref.arith) Sample.fill z = [s]
    ∧ cell s 0 1 = Some Sample.fill.
Proof.
  destruct (calculate_z_thresh (H:=Ref.arith) Sample.cfg
              [[Sample.two; Sample.two]] (Sample.kd Sample.half)
              [[255; 0]]%Z) as [z|e] eqn:Hz;
    [|vm_compute in Hz; discriminate].
  destruct (@z_thresh_data_no_nan Ref.libm Sample.cfg Sample.fill
              [[Sample.two; Sample.two]] (Sample.kd Sample.half)
              [[255; 0]]%Z z Hz) as (s & Hs & _ & Hland & _).
  exists z, s. split; [reflexivity|]. split; [exact Hs|].
  apply (Hland 0%nat 1%nat 0%Z); [reflexivity|discriminate].
Defined.
